(** * Email Family PDF Merger: the family-grouping and merge-ordering engine

    A shallow embedding of [EmailFamilyPDFMerger_v1_0_0.py]: the identifier
    parser ([extract_family_key], [extract_suffix_parts]), the ordering of a
    family's members, and the worker [merge_pdfs_worker] with its two passes,
    the QC selection, the CSV log and the cleanup of placeholders.

    Python strings are modelled as [string], one [ascii] per character: the
    model covers names made of the code points below 256, on which case
    folding, white space and decimal digits are Python's.  Python integers
    are [Z] and [nat], dictionaries are [gmap] or, where the order of
    insertion is observed, association lists, and the set of placeholders is
    a [gset]. *)

From Stdlib Require Import Ascii String ZArith Lia List Permutation Sorted DecimalString.
From stdpp Require Import gmap strings list fin_maps.

Local Open Scope Z_scope.

(** ** Python string primitives *)

Module Py.

(** [s.rfind(c)] for a one-character needle: the highest index of [c] in
    [s], or [-1]. *)
Fixpoint rfind_from (c : ascii) (s : string) (i acc : Z) : Z :=
  match s with
  | EmptyString => acc
  | String a s' => rfind_from c s' (i + 1) (if Ascii.eqb a c then i else acc)
  end.

Definition rfind (c : ascii) (s : string) : Z := rfind_from c s 0 (-1).

(** [s[:i]] and [s[i:]] for [0 <= i]. *)
Fixpoint take (n : nat) (s : string) : string :=
  match n, s with
  | S n', String a s' => String a (take n' s')
  | _, _ => EmptyString
  end.

Fixpoint drop (n : nat) (s : string) : string :=
  match n, s with
  | S n', String _ s' => drop n' s'
  | _, _ => s
  end.

Definition slice_to (s : string) (i : Z) : string := take (Z.to_nat i) s.
Definition slice_from (s : string) (i : Z) : string := drop (Z.to_nat i) s.

(** [s[i:j]] for [0 <= i <= j]. *)
Definition slice (s : string) (i j : Z) : string :=
  take (Z.to_nat (j - i)) (drop (Z.to_nat i) s).

(** [s.split(sep)] for a one-character separator: never the empty list. *)
Fixpoint split (sep : ascii) (s : string) : list string :=
  match s with
  | EmptyString => [EmptyString]
  | String a s' =>
      if Ascii.eqb a sep then EmptyString :: split sep s'
      else match split sep s' with
           | h :: t => String a h :: t
           | [] => [String a EmptyString]
           end
  end.

(** [c.lower()] below code point 256: the letters A-Z, and the accented
    capitals U+00C0-U+00DE but the multiplication sign U+00D7. *)
Definition lower_ascii (a : ascii) : ascii :=
  let n := N_of_ascii a in
  if ((65 <=? n) && (n <=? 90))%N then ascii_of_N (n + 32)
  else if ((192 <=? n) && (n <=? 222) && negb (n =? 215))%N then ascii_of_N (n + 32)
  else a.

Fixpoint lower (s : string) : string :=
  match s with
  | EmptyString => EmptyString
  | String a s' => String (lower_ascii a) (lower s')
  end.

(** [s.startswith(p)]. *)
Definition startswith (s p : string) : bool := String.prefix p s.

(** [str(n)] of a non-negative integer, as an f-string prints a count. *)
Definition str_of_nat (n : nat) : string := NilZero.string_of_uint (Nat.to_uint n).

(** [sep.join(l)]. *)
Definition join (sep : string) (l : list string) : string := String.concat sep l.

(** The truth value of a string: the empty string is false. *)
Definition truthy (s : string) : bool :=
  match s with EmptyString => false | String _ _ => true end.

(** *** [int(s)], base 10

    Optional white space, an optional sign, then digits in which single
    underscores may separate digits, then optional white space.  [None]
    stands for [ValueError].  White space is the space, the characters
    U+0009-U+000D and, above ASCII, U+0085 and U+00A0; the only decimal
    digits below code point 256 are 0-9.  The model has no limit on the
    number of digits: the limit of CPython, 4300 digits by default since
    version 3.11, is beyond the length of a file name, and what is stated
    about [int] on digit strings of any length carries the limit as a
    hypothesis. *)
Definition is_space (a : ascii) : bool :=
  let n := N_of_ascii a in
  ((n =? 32) || ((9 <=? n) && (n <=? 13)) || (n =? 133) || (n =? 160))%N.

Definition digit_value (a : ascii) : option Z :=
  let n := N_of_ascii a in
  if ((48 <=? n) && (n <=? 57))%N then Some (Z.of_N n - 48) else None.

Definition is_underscore (a : ascii) : bool := Ascii.eqb a "_"%char.

Fixpoint lstrip (s : string) : string :=
  match s with
  | String a s' => if is_space a then lstrip s' else s
  | EmptyString => EmptyString
  end.

Fixpoint all_space (s : string) : bool :=
  match s with
  | String a s' => is_space a && all_space s'
  | EmptyString => true
  end.

(** The digits: [acc] is the value read so far, [prev_us] tells whether the
    previous character was an underscore.  What follows the digits must be
    white space up to the end. *)
Fixpoint int_digits (s : string) (acc : Z) (prev_us : bool) : option Z :=
  match s with
  | EmptyString => if prev_us then None else Some acc
  | String a s' =>
      match digit_value a with
      | Some d => int_digits s' (10 * acc + d) false
      | None =>
          if is_underscore a then
            if prev_us then None else int_digits s' acc true
          else if prev_us then None
          else if all_space s then Some acc else None
      end
  end.

Definition int_unsigned (s : string) : option Z :=
  match s with
  | String a s' =>
      match digit_value a with
      | Some d => int_digits s' d false
      | None => None
      end
  | EmptyString => None
  end.

Definition int (s : string) : option Z :=
  match lstrip s with
  | String a s' =>
      if Ascii.eqb a "+"%char then int_unsigned s'
      else if Ascii.eqb a "-"%char then option_map Z.opp (int_unsigned s')
      else int_unsigned (String a s')
  | EmptyString => None
  end.

End Py.

(** ** [os.path] (the POSIX flavour) *)

Module OsPath.

Definition sep : ascii := "/"%char.
Definition extsep : ascii := "."%char.

(** The [while] loop of [genericpath._splitext]: it runs at most
    [dotIndex - filenameIndex] times, which is [n]. *)
Fixpoint splitext_scan (p : string) (dotIndex : Z) (n : nat) (filenameIndex : Z)
  : string * string :=
  match n with
  | O => (p, EmptyString)
  | S n' =>
      if negb (String.eqb (Py.slice p filenameIndex (filenameIndex + 1))
                          (String extsep EmptyString))
      then (Py.slice_to p dotIndex, Py.slice_from p dotIndex)
      else splitext_scan p dotIndex n' (filenameIndex + 1)
  end.

(** [genericpath._splitext(p, sep, altsep, extsep)]. *)
Definition _splitext (p : string) (sep : ascii) (altsep : option ascii) (extsep : ascii)
  : string * string :=
  let sepIndex := Py.rfind sep p in
  let sepIndex :=
    match altsep with
    | Some a => Z.max sepIndex (Py.rfind a p)
    | None => sepIndex
    end in
  let dotIndex := Py.rfind extsep p in
  if sepIndex <? dotIndex then
    let filenameIndex := sepIndex + 1 in
    splitext_scan p dotIndex (Z.to_nat (dotIndex - filenameIndex)) filenameIndex
  else (p, EmptyString).

Definition splitext (p : string) : string * string := _splitext p sep None extsep.

(** [posixpath.join(a, b)]. *)
Definition endswith_sep (s : string) : bool :=
  match Py.slice_from s (Z.of_nat (String.length s) - 1) with
  | String a EmptyString => Ascii.eqb a sep
  | _ => false
  end.

Definition join (a b : string) : string :=
  if Py.startswith b (String sep EmptyString) then b
  else if negb (Py.truthy a) || endswith_sep a then a +:+ b
  else a +:+ String sep EmptyString +:+ b.

(** [posixpath.basename(p)]. *)
Definition basename (p : string) : string := Py.slice_from p (Py.rfind sep p + 1).

End OsPath.

(** ** The identifier parser *)

(** A token of an order key: [int(part)] when it parses, the part itself
    otherwise. *)
Inductive token : Type :=
| TInt (z : Z)
| TStr (s : string).

(** [extract_family_key(filename)]. *)
Definition extract_family_key (filename : string) : string :=
  let name := fst (OsPath.splitext filename) in
  hd EmptyString (Py.split "."%char name).

(** The body of the [for part in parts[1:]] loop: [try: int(part)], and on
    [ValueError] the part itself. *)
Definition suffix_token (part : string) : token :=
  match Py.int part with
  | Some z => TInt z
  | None => TStr part
  end.

(** [extract_suffix_parts(filename)]. *)
Definition extract_suffix_parts (filename : string) : list token :=
  let name_no_ext := fst (OsPath.splitext filename) in
  let parts := Py.split "."%char name_no_ext in
  if (length parts <=? 1)%nat then []
  else map suffix_token (tl parts).

(** ** The order of a family's members

    [valid_files_in_family.sort(key=lambda fname: (len(parts), parts))]:
    the keys are pairs of an integer and a list of tokens, compared as Python
    compares tuples and lists.  [None] stands for the [TypeError] that [<]
    raises between an integer and a string. *)

(** [a == b] on tokens: an integer never equals a string. *)
Definition token_eqb (a b : token) : bool :=
  match a, b with
  | TInt x, TInt y => Z.eqb x y
  | TStr x, TStr y => String.eqb x y
  | _, _ => false
  end.

(** [a < b] on tokens. *)
Definition token_lt (a b : token) : option bool :=
  match a, b with
  | TInt x, TInt y => Some (Z.ltb x y)
  | TStr x, TStr y => Some (String.ltb x y)
  | _, _ => None
  end.

(** [l1 == l2] on lists: equal lengths and equal items. *)
Fixpoint list_eqb (l1 l2 : list token) : bool :=
  match l1, l2 with
  | [], [] => true
  | a :: l1', b :: l2' => token_eqb a b && list_eqb l1' l2'
  | _, _ => false
  end.

(** [l1 < l2] on lists: the first pair of items that are not equal decides;
    without one, the shorter list is the smaller. *)
Fixpoint list_lt (l1 l2 : list token) : option bool :=
  match l1, l2 with
  | a :: l1', b :: l2' => if token_eqb a b then list_lt l1' l2' else token_lt a b
  | [], _ :: _ => Some true
  | _, [] => Some false
  end.

Definition sort_key_t : Type := nat * list token.

(** [k1 < k2] on the key tuples. *)
Definition key_lt (k1 k2 : sort_key_t) : option bool :=
  if negb (fst k1 =? fst k2)%nat then Some (fst k1 <? fst k2)%nat
  else if list_eqb (snd k1) (snd k2) then Some false
  else list_lt (snd k1) (snd k2).

(** The key function of the sort. *)
Definition sort_key (fname : string) : sort_key_t :=
  (length (extract_suffix_parts fname), extract_suffix_parts fname).

(** [list.sort] is stable and uses only [<] on the keys.  It is modelled as
    the insertion of each item, from left to right, behind the items of the
    sorted prefix that it is not smaller than; a comparison that raises ends
    the sort.  CPython inserts by bisection and merges runs on long lists:
    where no comparison raises the result is the same, since a sorted and
    stable rearrangement is unique ([stable_sorted_unique] below). *)
Section Sort.
Context {A K : Type} (key : A -> K) (lt : K -> K -> option bool).

Fixpoint insert_sorted (x : A) (l : list A) : option (list A) :=
  match l with
  | [] => Some [x]
  | y :: l' =>
      match lt (key x) (key y) with
      | None => None
      | Some true => Some (x :: y :: l')
      | Some false =>
          match insert_sorted x l' with
          | Some r => Some (y :: r)
          | None => None
          end
      end
  end.

Fixpoint sort_loop (sorted rest : list A) : option (list A) :=
  match rest with
  | [] => Some sorted
  | x :: rest' =>
      match insert_sorted x sorted with
      | Some s => sort_loop s rest'
      | None => None
      end
  end.

Definition py_sort (l : list A) : option (list A) := sort_loop [] l.
End Sort.

(** The sort of lines 189-192. *)
Definition sort_family (valid_files_in_family : list string) : option (list string) :=
  py_sort sort_key key_lt valid_files_in_family.

(** ** What an operation answers *)

(** An operation that may raise, under [except Exception]: it returns, or
    it raises; [e] is the text of the exception. *)
Inductive outcome (A : Type) : Type :=
| Done (a : A)
| Failed (e : string).
Arguments Done {A} a.
Arguments Failed {A} e.

Definition is_done {A : Type} (o : outcome A) : bool :=
  match o with Done _ => true | Failed _ => false end.

(** The truth value of an optional path, as in [if placeholder_path:]:
    [None] and the empty string are false. *)
Definition truthy_path (path : option string) : option string :=
  match path with
  | Some p => if Py.truthy p then Some p else None
  | None => None
  end.

(** An operation that the worker calls under [except OSError] (of which
    [IOError] is another name): it returns, it raises an [OSError], which
    the handler catches, or it raises an exception of another class, which
    passes the handler and ends the worker; [exn] is the name of the
    class. *)
Inductive guarded (A : Type) : Type :=
| Returns (a : A)
| RaisesOSError (e : string)
| RaisesOther (exn : string).
Arguments Returns {A} a.
Arguments RaisesOSError {A} e.
Arguments RaisesOther {A} exn.

(** A page of a PDF document. *)
Definition Page : Type := nat.

(** [with pikepdf.Pdf.open(path) as source_pdf: ... pages.extend(...)]: the
    block raises [pikepdf.PdfError], raises another exception, or hands over
    the pages of the document. *)
Inductive OpenOutcome : Type :=
| OpenPdfError (e : string)
| OpenException (e : string)
| OpenPages (pages : list Page).

(** ** The placeholder provider

    [create_placeholder_pdf] (lines 35-82), step by step.  A [Provider]
    fixes what [tempfile], ReportLab, pikepdf and the file system answer to
    one call.  The steps of the [try] are under [except Exception]: each
    returns or raises what the handler catches; the deletion in the handlers
    is under [except OSError], which is all that [os.unlink] raises on the
    path that [mkstemp] made.  What the function prints and what it deletes
    are its events. *)

Record Provider : Type := {
  (** [tempfile.mkstemp(suffix=..., prefix=...)]: the path of the new file *)
  pv_mkstemp : string -> string -> outcome string;
  (** [os.close(fd_rl)] *)
  pv_close : outcome unit;
  (** the canvas, from [canvas.Canvas(path_rl, ...)] to [c.save()], for a
      path and a footer text *)
  pv_draw : string -> string -> outcome unit;
  (** [pikepdf.Pdf.open(path_rl)], for the check *)
  pv_check : string -> OpenOutcome;
  (** [os.path.exists(path_rl)] *)
  pv_exists : string -> bool;
  (** [os.unlink(path_rl)] *)
  pv_unlink : string -> outcome unit
}.

Inductive PEvent : Type :=
| PvPrint (message : string)                  (* print(...) *)
| PvUnlink (path : string) (removed : bool).  (* os.unlink(path); an OSError is passed over *)

(** [if os.path.exists(path_rl): try: os.unlink(path_rl) except OSError: pass]. *)
Definition remove_quietly (pv : Provider) (path_rl : string) : list PEvent :=
  if pv_exists pv path_rl then [PvUnlink path_rl (is_done (pv_unlink pv path_rl))] else [].

(** The outer [except Exception as e], with the value of [path_rl] at the
    time of the exception. *)
Definition placeholder_failed (pv : Provider) (control_number_with_suffix e : string)
    (path_rl : option string) : option string * list PEvent :=
  (None,
   PvPrint ("ERROR: Failed to create placeholder for " +:+ control_number_with_suffix
            +:+ " with ReportLab: " +:+ e)
   :: match truthy_path path_rl with
      | Some p => remove_quietly pv p
      | None => []
      end).

(** The inner [except Exception as e_check]. *)
Definition placeholder_invalid (pv : Provider) (control_number_with_suffix e_check : string)
    (path_rl : string) : option string * list PEvent :=
  (None,
   PvPrint ("ERROR: Placeholder " +:+ control_number_with_suffix
            +:+ " created by ReportLab is invalid or unreadable by pikepdf: " +:+ e_check)
   :: remove_quietly pv path_rl).

(** The body of [create_placeholder_pdf(control_number_with_suffix)]. *)
Definition create_placeholder_pdf_steps (pv : Provider) (control_number_with_suffix : string)
    : option string * list PEvent :=
  match pv_mkstemp pv ("_rl_placeholder_" +:+ control_number_with_suffix +:+ ".pdf")
          "tmp_merger_" with
  | Failed e => placeholder_failed pv control_number_with_suffix e None
  | Done path_rl_temp =>
      match pv_close pv with
      | Failed e => placeholder_failed pv control_number_with_suffix e None
      | Done _ =>
          let path_rl := path_rl_temp in
          match pv_draw pv path_rl control_number_with_suffix with
          | Failed e => placeholder_failed pv control_number_with_suffix e (Some path_rl)
          | Done _ =>
              match pv_check pv path_rl with
              | OpenPages [] =>
                  placeholder_invalid pv control_number_with_suffix
                    ("ReportLab PDF for " +:+ control_number_with_suffix
                     +:+ " has no pages after creation.") path_rl
              | OpenPages (_ :: _) => (Some path_rl, [])
              | OpenPdfError e_check =>
                  placeholder_invalid pv control_number_with_suffix e_check path_rl
              | OpenException e_check =>
                  placeholder_invalid pv control_number_with_suffix e_check path_rl
              end
          end
      end
  end.

(** The deletions among the events of the provider. *)
Definition provider_unlinks (evs : list PEvent) : list PEvent :=
  List.filter (fun e => match e with PvUnlink _ _ => true | PvPrint _ => false end) evs.

(** ** The world of a run

    The worker talks to the file system, to ReportLab and to pikepdf.  What
    they answer is not decided by the program: a [World] fixes the answers.
    An operation under [except Exception] answers an [outcome], an operation
    under [except OSError] or [except IOError] a [guarded] answer. *)

Record World : Type := {
  (** [os.makedirs(path, exist_ok=True)] *)
  os_makedirs : string -> guarded unit;
  (** [os.listdir(path)] *)
  os_listdir : string -> guarded (list string);
  (** [os.path.isdir(path)] *)
  os_path_isdir : string -> bool;
  (** what [tempfile], ReportLab, pikepdf and the file system answer to the
      [n]-th call of [create_placeholder_pdf] *)
  provider : nat -> Provider;
  (** [os.path.exists(path)] during Pass 2, during the QC selection and
      during the cleanup *)
  exists_pass2 : string -> bool;
  exists_qc : string -> bool;
  exists_cleanup : string -> bool;
  (** opening a member and appending its pages *)
  pdf_open : string -> OpenOutcome;
  (** [final_merged_pdf.save(path)] *)
  pdf_save : string -> list Page -> outcome unit;
  (** [shutil.copy2(src, dst)] *)
  shutil_copy2 : string -> string -> outcome unit;
  (** [open(log_csv_path, 'w', newline='', encoding='utf-8')], which makes
      the file or empties it *)
  csv_open : string -> guarded unit;
  (** the body of the [with] block and its end: [writerow], [writerows],
      and the close of the file *)
  csv_writerows : string -> list (list string) -> guarded unit;
  (** [os.unlink(path)], in the cleanup, under [except OSError]: on a path
      that [mkstemp] made it raises nothing else *)
  os_unlink : string -> outcome unit;
  (** the order in which Python iterates the set of placeholders: by the
      rank that the world gives to each element *)
  set_rank : string -> nat
}.

(** What a run does to the outside, in the order in which it does it. *)
Inductive Event : Type :=
| EvLog (message : string)                     (* log_callback_gui(message) *)
| EvProgress (processed total : nat)           (* progress_callback(...) *)
| EvCompletion (success : bool)                (* completion_callback(...) *)
| EvProvider (e : PEvent)                      (* inside create_placeholder_pdf *)
| EvSave (path : string) (pages : list Page)   (* a merged document saved *)
| EvCopy (src dst : string)                    (* a file copied *)
| EvCsvOpen (path : string)                    (* the CSV file made or emptied *)
| EvCsv (path : string) (rows : list (list string))  (* the CSV log written *)
| EvUnlink (path : string).                    (* a placeholder deleted by the cleanup *)

(** The log of the worker and the trace of its effects. *)
Record Run : Type := {
  local_log_entries : list (list string);
  trace : list Event
}.

Definition run0 : Run := {| local_log_entries := []; trace := [] |}.

(** [log_message(message)]. *)
Definition log_message (message : string) (r : Run) : Run :=
  {| local_log_entries := local_log_entries r ++ [[message]];
     trace := trace r ++ [EvLog message] |}.

Definition emit (e : Event) (r : Run) : Run :=
  {| local_log_entries := local_log_entries r; trace := trace r ++ [e] |}.

(** The result of a part of the worker that an uncaught exception may
    leave: the [TypeError] of a sort, or what [os.makedirs], [os.listdir]
    and the writing of the CSV file raise beside [OSError]. *)
Inductive Result (A : Type) : Type :=
| Returned (a : A)
| Raised (exn : string).
Arguments Returned {A} a.
Arguments Raised {A} exn.

(** [create_placeholder_pdf(control_number_with_suffix)] in a run: what it
    returns, the path of the placeholder or [None], and what it prints and
    deletes on the way; [call] counts the earlier calls of the run. *)
Definition create_placeholder_pdf (w : World) (call : nat)
    (control_number_with_suffix : string) : option string :=
  fst (create_placeholder_pdf_steps (provider w call) control_number_with_suffix).

Definition placeholder_effects (w : World) (call : nat)
    (control_number_with_suffix : string) (r : Run) : Run :=
  {| local_log_entries := local_log_entries r;
     trace := trace r
              ++ map EvProvider
                   (snd (create_placeholder_pdf_steps (provider w call)
                           control_number_with_suffix)) |}.

Definition placeholder_ok (placeholder_path : option string) : bool :=
  match truthy_path placeholder_path with Some _ => true | None => false end.

(** ** Pass 1: the families *)

(** [families]: a dictionary iterated in Pass 2, so the order of insertion
    of its keys is kept. *)
Definition Families : Type := list (string * list string).

Fixpoint families_get (k : string) (fs : Families) : option (list string) :=
  match fs with
  | [] => None
  | (k', l) :: fs' => if String.eqb k' k then Some l else families_get k fs'
  end.

(** [families.setdefault(family_key, []).append(filename)]. *)
Fixpoint setdefault_append (k filename : string) (fs : Families) : Families :=
  match fs with
  | [] => [(k, [filename])]
  | (k', l) :: fs' =>
      if String.eqb k' k then (k', l ++ [filename]) :: fs'
      else (k', l) :: setdefault_append k filename fs'
  end.

(** [l.remove(x)]: the first occurrence goes. *)
Fixpoint list_remove (x : string) (l : list string) : list string :=
  match l with
  | [] => []
  | y :: l' => if String.eqb y x then l' else y :: list_remove x l'
  end.

(** [if family_key in families and filename in families[family_key]:
      families[family_key].remove(filename)]. *)
Fixpoint families_remove (k filename : string) (fs : Families) : Families :=
  match fs with
  | [] => []
  | (k', l) :: fs' =>
      if String.eqb k' k then (k', list_remove filename l) :: fs'
      else (k', l) :: families_remove k filename fs'
  end.

(** The local variables that Pass 1 fills. *)
Record Pass1 : Type := {
  families : Families;
  file_path_map : gmap string string;
  placeholder_files_to_delete : gset string;
  family_had_native_placeholder : gmap string bool;
  placeholder_calls : nat
}.

Definition pass1_init : Pass1 :=
  {| families := []; file_path_map := ∅; placeholder_files_to_delete := ∅;
     family_had_native_placeholder := ∅; placeholder_calls := 0%nat |}.

(** The two [continue] guards of the loop. *)
Definition skipped (w : World) (folder_path filename_from_dir : string) : bool :=
  os_path_isdir w (OsPath.join folder_path filename_from_dir)
  || Py.startswith (Py.lower filename_from_dir) "tmp_merger_".

Definition is_pdf (filename_from_dir : string) : bool :=
  String.eqb (Py.lower (snd (OsPath.splitext filename_from_dir))) ".pdf".

(** The body of the loop of Pass 1. *)
Definition pass1_step (w : World) (folder_path : string)
    (st : Pass1 * Run) (filename_from_dir : string) : Pass1 * Run :=
  let '(s, r) := st in
  let full_path := OsPath.join folder_path filename_from_dir in
  if os_path_isdir w full_path then (s, r)
  else if Py.startswith (Py.lower filename_from_dir) "tmp_merger_" then (s, r)
  else
    let '(base_name_no_ext, ext) := OsPath.splitext filename_from_dir in
    let family_key := extract_family_key filename_from_dir in
    let fams := setdefault_append family_key filename_from_dir (families s) in
    if String.eqb (Py.lower ext) ".pdf" then
      ({| families := fams;
          file_path_map := <[filename_from_dir := full_path]> (file_path_map s);
          placeholder_files_to_delete := placeholder_files_to_delete s;
          family_had_native_placeholder := family_had_native_placeholder s;
          placeholder_calls := placeholder_calls s |}, r)
    else
      let r := log_message ("Creating placeholder for native file: " +:+ filename_from_dir) r in
      let placeholder_path :=
        create_placeholder_pdf w (placeholder_calls s) base_name_no_ext in
      let r := placeholder_effects w (placeholder_calls s) base_name_no_ext r in
      match truthy_path placeholder_path with
      | Some p =>
          ({| families := fams;
              file_path_map := <[filename_from_dir := p]> (file_path_map s);
              placeholder_files_to_delete := {[p]} ∪ placeholder_files_to_delete s;
              family_had_native_placeholder :=
                <[family_key := true]> (family_had_native_placeholder s);
              placeholder_calls := S (placeholder_calls s) |}, r)
      | None =>
          ({| families := families_remove family_key filename_from_dir fams;
              file_path_map := file_path_map s;
              placeholder_files_to_delete := placeholder_files_to_delete s;
              family_had_native_placeholder := family_had_native_placeholder s;
              placeholder_calls := S (placeholder_calls s) |},
           log_message ("ERROR: Failed to create placeholder for " +:+ filename_from_dir
                        +:+ ". It will be skipped.") r)
      end.

(** [for filename_from_dir in all_files_in_folder: ...]. *)
Definition pass1_loop (w : World) (folder_path : string)
    (all_files_in_folder : list string) (st : Pass1 * Run) : Pass1 * Run :=
  fold_left (pass1_step w folder_path) all_files_in_folder st.

(** The locals after Pass 1 over a listing. *)
Definition pass1_state (w : World) (folder_path : string) (listing : list string) : Pass1 :=
  fst (pass1_loop w folder_path listing (pass1_init, run0)).

(** [families[family_key]], and [[]] for a key that is absent. *)
Definition members_of (p1 : Pass1) (family_key : string) : list string :=
  default [] (families_get family_key (families p1)).

(** [family_had_native_placeholder.get(family_key, False)]. *)
Definition native_flag (p1 : Pass1) (family_key : string) : bool :=
  default false (family_had_native_placeholder p1 !! family_key).

(** [fname in file_path_map]. *)
Definition resolved (p1 : Pass1) (fname : string) : bool :=
  bool_decide (is_Some (file_path_map p1 !! fname)).

(** An entry that Pass 1 hands to the placeholder provider: not skipped and
    not a PDF. *)
Definition is_native (w : World) (folder_path filename_from_dir : string) : bool :=
  negb (skipped w folder_path filename_from_dir) && negb (is_pdf filename_from_dir).

(** The synthesis for the entry [f], which comes after the entries [pre],
    succeeds. *)
Definition synth_ok (w : World) (folder_path : string) (pre : list string) (f : string) : bool :=
  placeholder_ok
    (create_placeholder_pdf w (placeholder_calls (pass1_state w folder_path pre))
       (fst (OsPath.splitext f))).

(** ** Pass 2: the merges *)

(** The document under construction and the count of appended members. *)
Record Merger : Type := {
  final_merged_pdf : list Page;
  files_successfully_added_to_merger : nat
}.

(** The body of [for filename_to_add in sorted_filenames_for_merge]. *)
Definition add_member (w : World) (fpm : gmap string string)
    (acc : Merger * Run) (filename_to_add : string) : Merger * Run :=
  let '(m, r) := acc in
  match truthy_path (fpm !! filename_to_add) with
  | None =>
      (m, log_message ("WARNING: File path for " +:+ filename_to_add
                       +:+ " not found or file does not exist. Skipping.") r)
  | Some path_to_add =>
      if negb (exists_pass2 w path_to_add) then
        (m, log_message ("WARNING: File path for " +:+ filename_to_add
                         +:+ " not found or file does not exist. Skipping.") r)
      else
        match pdf_open w path_to_add with
        | OpenPages [] =>
            (m, log_message ("WARNING: File " +:+ filename_to_add +:+ " (Path: "
                             +:+ path_to_add
                             +:+ ") is a PDF with no pages (pikepdf). Skipping.") r)
        | OpenPages pages =>
            ({| final_merged_pdf := final_merged_pdf m ++ pages;
                files_successfully_added_to_merger :=
                  S (files_successfully_added_to_merger m) |}, r)
        | OpenPdfError e_pike =>
            (m, log_message ("ERROR: pikepdf could not read/process " +:+ filename_to_add
                             +:+ " (Path: " +:+ path_to_add +:+ "): " +:+ e_pike
                             +:+ ". Skipping this file.") r)
        | OpenException e =>
            (m, log_message ("ERROR: Could not append " +:+ filename_to_add
                             +:+ " (Path: " +:+ path_to_add +:+ ") using pikepdf: " +:+ e
                             +:+ ". Skipping this file.") r)
        end
  end.

(** [for filename_to_add in sorted_filenames_for_merge: ...], from an empty
    document. *)
Definition merge_members (w : World) (fpm : gmap string string)
    (sorted_filenames_for_merge : list string) (r : Run) : Merger * Run :=
  fold_left (add_member w fpm) sorted_filenames_for_merge
    ({| final_merged_pdf := []; files_successfully_added_to_merger := 0%nat |}, r).

(** The path under which a family is saved: the base name of the first
    sorted member, with the PDF extension. *)
Definition final_output_filename (sorted_filenames_for_merge : list string) : string :=
  let output_filename_original := hd EmptyString sorted_filenames_for_merge in
  let base_output_name := fst (OsPath.splitext output_filename_original) in
  base_output_name +:+ ".pdf".

(** The aggregates of the QC selection and the progress counter. *)
Record Pass2 : Type := {
  max_files_in_family_count : nat;
  largest_family_merged_pdf_src_path : option string;
  first_family_with_native_src_path : option string;
  processed_families_count : nat
}.

Definition pass2_init : Pass2 :=
  {| max_files_in_family_count := 0%nat;
     largest_family_merged_pdf_src_path := None;
     first_family_with_native_src_path := None;
     processed_families_count := 0%nat |}.

Definition is_none {A : Type} (o : option A) : bool :=
  match o with None => true | Some _ => false end.

(** [valid_files_in_family]. *)
Definition valid_files (fpm : gmap string string) (original_filenames_in_family : list string)
    : list string :=
  List.filter (fun fname => bool_decide (is_Some (fpm !! fname))) original_filenames_in_family.

(** The end of the body: [processed_families_count += 1] and the progress
    callback. *)
Definition family_done (total : nat) (st : Pass2) (r : Run) : Pass2 * Run :=
  let n := S (processed_families_count st) in
  ({| max_files_in_family_count := max_files_in_family_count st;
      largest_family_merged_pdf_src_path := largest_family_merged_pdf_src_path st;
      first_family_with_native_src_path := first_family_with_native_src_path st;
      processed_families_count := n |},
   emit (EvProgress n total) r).

(** The body of the loop of Pass 2, for one family.  [Raised] is the
    [TypeError] of the sort, which nothing catches. *)
Definition merge_family (w : World) (merged_pdfs_output_path : string) (p1 : Pass1)
    (total : nat) (family_key : string) (original_filenames_in_family : list string)
    (st : Pass2) (r : Run) : Result Pass2 * Run :=
  let valid_files_in_family := valid_files (file_path_map p1) original_filenames_in_family in
  match valid_files_in_family with
  | [] =>
      let r := log_message ("No valid files to merge for family " +:+ family_key
                            +:+ ". Skipping.") r in
      let '(st, r) := family_done total st r in
      (Returned st, r)
  | _ :: _ =>
      match sort_family valid_files_in_family with
      | None => (Raised "TypeError", r)
      | Some sorted_filenames_for_merge =>
          let current_family_contained_native := native_flag p1 family_key in
          let r := log_message ("Processing family: " +:+ family_key
                                +:+ ". Files to merge (in order): "
                                +:+ Py.join ", " sorted_filenames_for_merge) r in
          let '(m, r) := merge_members w (file_path_map p1) sorted_filenames_for_merge r in
          let n := files_successfully_added_to_merger m in
          let '(st, r) :=
            if (0 <? n)%nat then
              let final_output_filename := final_output_filename sorted_filenames_for_merge in
              let current_merged_pdf_final_path :=
                OsPath.join merged_pdfs_output_path final_output_filename in
              match pdf_save w current_merged_pdf_final_path (final_merged_pdf m) with
              | Done _ =>
                  let r := emit (EvSave current_merged_pdf_final_path (final_merged_pdf m)) r in
                  let r := log_message ("Successfully merged " +:+ Py.str_of_nat n
                                        +:+ " file(s) into: "
                                        +:+ OsPath.join "Merged PDFs" final_output_filename) r in
                  let larger := (max_files_in_family_count st <? n)%nat in
                  let first_native :=
                    current_family_contained_native
                    && is_none (first_family_with_native_src_path st) in
                  ({| max_files_in_family_count :=
                        if larger then n else max_files_in_family_count st;
                      largest_family_merged_pdf_src_path :=
                        if larger then Some current_merged_pdf_final_path
                        else largest_family_merged_pdf_src_path st;
                      first_family_with_native_src_path :=
                        if first_native then Some current_merged_pdf_final_path
                        else first_family_with_native_src_path st;
                      processed_families_count := processed_families_count st |}, r)
              | Failed e =>
                  (st, log_message ("ERROR: Could not write merged PDF "
                                    +:+ final_output_filename +:+ " using pikepdf: " +:+ e) r)
              end
            else
              (st, log_message ("No files were successfully added to the merger for family "
                                +:+ family_key +:+ ". No output generated.") r) in
          let '(st, r) := family_done total st r in
          (Returned st, r)
      end
  end.

(** [for family_key, original_filenames_in_family in families.items()]. *)
Fixpoint pass2_loop (w : World) (merged_pdfs_output_path : string) (p1 : Pass1)
    (total : nat) (fs : Families) (st : Pass2) (r : Run) : Result Pass2 * Run :=
  match fs with
  | [] => (Returned st, r)
  | (family_key, original_filenames_in_family) :: fs' =>
      match merge_family w merged_pdfs_output_path p1 total family_key
              original_filenames_in_family st r with
      | (Returned st', r') => pass2_loop w merged_pdfs_output_path p1 total fs' st' r'
      | (Raised exn, r') => (Raised exn, r')
      end
  end.

(** ** The QC selection, the CSV log, the cleanup *)

(** [any(family_had_native_placeholder.values())]. *)
Definition any_values (m : gmap string bool) : bool :=
  existsb (fun kv => snd kv) (map_to_list m).

(** [first != largest] on optional paths. *)
Definition path_eqb (a : string) (b : option string) : bool :=
  match b with
  | Some b => String.eqb a b
  | None => false
  end.

(** Lines 250-258: the copy of the largest family.  The result is
    [qc_files_copied_for_log]. *)
Definition qc_largest (w : World) (qc_docs_output_path : string) (st : Pass2) (r : Run)
    : gset string * Run :=
  match truthy_path (largest_family_merged_pdf_src_path st) with
  | Some largest =>
      if exists_qc w largest then
        let dest_filename := OsPath.basename largest in
        let dest_path := OsPath.join qc_docs_output_path dest_filename in
        match shutil_copy2 w largest dest_path with
        | Done _ =>
            let r := emit (EvCopy largest dest_path) r in
            ({[largest]},
             log_message ("Copied largest family PDF to QC Docs: " +:+ dest_filename) r)
        | Failed e =>
            (∅, log_message ("ERROR copying largest family PDF to QC Docs: " +:+ e) r)
        end
      else (∅, r)
  | None => (∅, r)
  end.

(** Lines 260-273: the copy of the first family with a native. *)
Definition qc_native (w : World) (qc_docs_output_path : string) (p1 : Pass1) (st : Pass2)
    (qc_files_copied_for_log : gset string) (r : Run) : Run :=
  let no_native r :=
    if negb (any_values (family_had_native_placeholder p1)) then
      log_message
        "No families contained native placeholders; no specific QC doc for this criterion." r
    else r in
  match truthy_path (first_family_with_native_src_path st) with
  | Some first =>
      if exists_qc w first then
        if negb (path_eqb first (largest_family_merged_pdf_src_path st)) then
          let dest_filename := OsPath.basename first in
          let dest_path := OsPath.join qc_docs_output_path dest_filename in
          match shutil_copy2 w first dest_path with
          | Done _ =>
              let r := emit (EvCopy first dest_path) r in
              log_message ("Copied first PDF with native placeholder to QC Docs: "
                           +:+ dest_filename) r
          | Failed e => log_message ("ERROR copying PDF with native to QC Docs: " +:+ e) r
          end
        else if negb (bool_decide (first ∈ qc_files_copied_for_log)) then
          log_message ("Largest family PDF ("
                       +:+ OsPath.basename
                             (default EmptyString (largest_family_merged_pdf_src_path st))
                       +:+ ") also contained a native; already copied for QC.") r
        else r
      else no_native r
  | None => no_native r
  end.

(** Lines 275-283: the CSV log, written from the entries logged so far.
    The file is opened, which empties it, and then written; [except IOError]
    catches the [OSError]s of both steps and no other exception. *)
Definition write_log (w : World) (base_output_folder : string) (r : Run)
    : Result unit * Run :=
  let log_csv_path := OsPath.join base_output_folder "Merge Log.csv" in
  let rows := ["Message"] :: local_log_entries r in
  match csv_open w log_csv_path with
  | Returns _ =>
      let r := emit (EvCsvOpen log_csv_path) r in
      match csv_writerows w log_csv_path rows with
      | Returns _ =>
          let r := emit (EvCsv log_csv_path rows) r in
          (Returned tt,
           log_message ("Merge log saved to: "
                        +:+ OsPath.join "Merged Output" "Merge Log.csv") r)
      | RaisesOSError e =>
          (Returned tt, log_message ("ERROR: Could not write CSV log file: " +:+ e) r)
      | RaisesOther exn => (Raised exn, r)
      end
  | RaisesOSError e =>
      (Returned tt, log_message ("ERROR: Could not write CSV log file: " +:+ e) r)
  | RaisesOther exn => (Raised exn, r)
  end.

(** The body of [for temp_path in placeholder_files_to_delete]. *)
Definition cleanup_step (w : World) (r : Run) (temp_path : string) : Run :=
  if exists_cleanup w temp_path then
    match os_unlink w temp_path with
    | Done _ => emit (EvUnlink temp_path) r
    | Failed e =>
        log_message ("WARNING: Could not delete temporary placeholder " +:+ temp_path
                     +:+ ": " +:+ e) r
    end
  else r.

(** [for temp_path in placeholder_files_to_delete]: a Python set is iterated
    in an order of its own, each element once.  The order is the world's:
    the elements go by their rank. *)
Fixpoint insert_by_rank (rank : string -> nat) (x : string) (l : list string)
    : list string :=
  match l with
  | [] => [x]
  | y :: l' =>
      if (rank x <=? rank y)%nat then x :: l else y :: insert_by_rank rank x l'
  end.

Definition set_iteration (w : World) (s : gset string) : list string :=
  fold_right (insert_by_rank (set_rank w)) [] (elements s).

(** Lines 285-291. *)
Definition cleanup (w : World) (placeholders : gset string) (r : Run) : Run :=
  let r := log_message "Cleaning up temporary files..." r in
  let r := fold_left (cleanup_step w) (set_iteration w placeholders) r in
  log_message "Temporary file cleanup completed." r.

(** ** The worker *)

(** Lines 117-125: the three directories, in one [try]. *)
Definition make_output_dirs (w : World) (base merged qc : string) : guarded unit :=
  match os_makedirs w base with
  | RaisesOSError e => RaisesOSError e
  | RaisesOther exn => RaisesOther exn
  | Returns _ =>
      match os_makedirs w merged with
      | RaisesOSError e => RaisesOSError e
      | RaisesOther exn => RaisesOther exn
      | Returns _ => os_makedirs w qc
      end
  end.

(** What follows Pass 1, from line 174 on. *)
Definition after_pass1 (w : World) (base_output_folder merged_pdfs_output_path
    qc_docs_output_path : string) (p1 : Pass1) (r : Run) : Result unit * Run :=
  let total_families_to_process := length (families p1) in
  let r := log_message "Starting Pass 2: Merging PDF families using pikepdf..." r in
  match pass2_loop w merged_pdfs_output_path p1 total_families_to_process
          (families p1) pass2_init r with
  | (Raised exn, r) => (Raised exn, r)
  | (Returned st, r) =>
      let r := log_message "Pass 2 completed." r in
      let r := log_message "Processing QC documents..." r in
      let '(qc_files_copied_for_log, r) := qc_largest w qc_docs_output_path st r in
      let r := qc_native w qc_docs_output_path p1 st qc_files_copied_for_log r in
      match write_log w base_output_folder r with
      | (Raised exn, r) => (Raised exn, r)
      | (Returned _, r) =>
          let r := cleanup w (placeholder_files_to_delete p1) r in
          (Returned tt, emit (EvCompletion true) r)
      end
  end.

(** Lines 113-115. *)
Definition base_output_folder (folder_path : string) : string :=
  OsPath.join folder_path "Merged Output".
Definition merged_pdfs_output_path (folder_path : string) : string :=
  OsPath.join (base_output_folder folder_path) "Merged PDFs".
Definition qc_docs_output_path (folder_path : string) : string :=
  OsPath.join (base_output_folder folder_path) "QC Docs".

(** [merge_pdfs_worker(folder_path, progress_callback, completion_callback,
    log_callback_gui)]: the callbacks are the events of the trace. *)
Definition merge_pdfs_worker (w : World) (folder_path : string) : Result unit * Run :=
  let r := run0 in
  let base_output_folder := base_output_folder folder_path in
  let merged_pdfs_output_path := merged_pdfs_output_path folder_path in
  let qc_docs_output_path := qc_docs_output_path folder_path in
  match make_output_dirs w base_output_folder merged_pdfs_output_path qc_docs_output_path with
  | RaisesOSError e =>
      let r := log_message ("CRITICAL ERROR: Could not create output directories: " +:+ e) r in
      (Returned tt, emit (EvCompletion false) r)
  | RaisesOther exn => (Raised exn, r)
  | Returns _ =>
      let r := log_message ("Output folders created/ensured: " +:+ base_output_folder) r in
      match os_listdir w folder_path with
      | RaisesOSError e =>
          let r := log_message ("ERROR: Could not read source directory: " +:+ folder_path
                                +:+ ". " +:+ e) r in
          (Returned tt, emit (EvCompletion false) r)
      | RaisesOther exn => (Raised exn, r)
      | Returns all_files_in_folder =>
          let r := log_message
                     "Starting Pass 1: Identifying families and creating placeholders..." r in
          let '(p1, r) := pass1_loop w folder_path all_files_in_folder (pass1_init, r) in
          let r := log_message "Pass 1 completed." r in
          after_pass1 w base_output_folder merged_pdfs_output_path qc_docs_output_path p1 r
      end
  end.

(** ** Worlds for examples *)

(** The placeholder provider at its best: each call makes a file of its
    own, named as [mkstemp] names it, with one page. *)
Definition fresh_provider (n : nat) : Provider :=
  {| pv_mkstemp := fun suffix prefix =>
       Done ("/tmp/" +:+ prefix +:+ Py.str_of_nat n +:+ suffix);
     pv_close := Done tt;
     pv_draw := fun _ _ => Done tt;
     pv_check := fun _ => OpenPages [0%nat];
     pv_exists := fun _ => true;
     pv_unlink := fun _ => Done tt |}.

(** A provider that cannot make its temporary file. *)
Definition failing_provider (n : nat) : Provider :=
  {| pv_mkstemp := fun _ _ => Failed "No usable temporary directory found";
     pv_close := Done tt;
     pv_draw := fun _ _ => Done tt;
     pv_check := fun _ => OpenPages [0%nat];
     pv_exists := fun _ => true;
     pv_unlink := fun _ => Done tt |}.

(** A world given by a listing, the placeholder providers, and what saving
    and copying answer; no entry is a directory, every file exists and has
    one page, the CSV file and the deletions work, and the set of
    placeholders is iterated by the length of the paths. *)
Definition make_world (listing : list string)
    (providers : nat -> Provider)
    (save : string -> list Page -> outcome unit)
    (copy : string -> string -> outcome unit) : World :=
  {| os_makedirs := fun _ => Returns tt;
     os_listdir := fun _ => Returns listing;
     os_path_isdir := fun _ => false;
     provider := providers;
     exists_pass2 := fun _ => true;
     exists_qc := fun _ => true;
     exists_cleanup := fun _ => true;
     pdf_open := fun _ => OpenPages [0%nat];
     pdf_save := save;
     shutil_copy2 := copy;
     csv_open := fun _ => Returns tt;
     csv_writerows := fun _ _ => Returns tt;
     os_unlink := fun _ => Done tt;
     set_rank := String.length |}.

(** A world in which everything works. *)
Definition fair_world (listing : list string) : World :=
  make_world listing fresh_provider (fun _ _ => Done tt) (fun _ _ => Done tt).

(** A world in which no placeholder can be made. *)
Definition no_placeholder_world (listing : list string) : World :=
  make_world listing failing_provider (fun _ _ => Done tt) (fun _ _ => Done tt).

(** A world in which saving [path] fails and all else works. *)
Definition save_fails_world (listing : list string) (path : string) : World :=
  make_world listing fresh_provider
    (fun p _ => if String.eqb p path then Failed "disk full" else Done tt)
    (fun _ _ => Done tt).

(** ** The specification's reading of the parser and of the order *)

Module Spec.

(** The text before the first ['.'] (all of it when there is none). *)
Fixpoint before_first_dot (s : string) : string :=
  match s with
  | EmptyString => EmptyString
  | String a s' =>
      if Ascii.eqb a "."%char then EmptyString else String a (before_first_dot s')
  end.

(** The text after the first ['.'], when there is one. *)
Fixpoint after_first_dot (s : string) : option string :=
  match s with
  | EmptyString => None
  | String a s' => if Ascii.eqb a "."%char then Some s' else after_first_dot s'
  end.

(** The string holds the character [c]. *)
Fixpoint has (c : ascii) (s : string) : bool :=
  match s with
  | EmptyString => false
  | String a s' => Ascii.eqb a c || has c s'
  end.

(** The text before the last ['.'] (all of it when there is none). *)
Fixpoint before_last_dot (s : string) : string :=
  match s with
  | EmptyString => EmptyString
  | String a s' =>
      if Ascii.eqb a "."%char && negb (has "."%char s') then EmptyString
      else String a (before_last_dot s')
  end.

(** A name without its extension.  The extension is the last ['.'] of the
    name and what follows it; the ['.']s that a name starts with belong to
    the name and start no extension. *)
Fixpoint strip_name (name : string) : string :=
  match name with
  | EmptyString => EmptyString
  | String a name' =>
      if Ascii.eqb a "."%char then String a (strip_name name') else before_last_dot name
  end.

(** "Strips extension": the directories of a path stay, and its last
    component loses its extension. *)
Fixpoint strip_extension (filename : string) : string :=
  match filename with
  | EmptyString => EmptyString
  | String a filename' =>
      if has "/"%char filename then String a (strip_extension filename')
      else strip_name filename
  end.

(** "Returns text before the first remaining [.]". *)
Definition FamilyKey (filename : string) : string :=
  before_first_dot (strip_extension filename).

(** A token "parses as an integer" when it writes one in base 10: decimal
    digits, between which single underscores may stand, with or without a
    sign before them, the whole with or without white space around it. *)

(** White space, by code point. *)
Definition white (a : ascii) : bool :=
  existsb (Nat.eqb (nat_of_ascii a)) [9; 10; 11; 12; 13; 32; 133; 160]%nat.

(** The value of a decimal digit: its place in [0123456789]. *)
Definition digit (a : ascii) : option nat :=
  String.index 0 (String a EmptyString) "0123456789".

Fixpoint all_digits (s : string) : bool :=
  match s with
  | EmptyString => true
  | String a s' => negb (is_none (digit a)) && all_digits s'
  end.

(** The number that a string of digits writes: each digit counts for its
    value times the power of ten of its place. *)
Fixpoint numeral_value (s : string) : Z :=
  match s with
  | EmptyString => 0
  | String a s' =>
      Z.of_nat (default 0%nat (digit a)) * 10 ^ Z.of_nat (String.length s')
      + numeral_value s'
  end.

Fixpoint blank (s : string) : bool :=
  match s with
  | EmptyString => true
  | String a s' => white a && blank s'
  end.

(** The string without the white space at its ends. *)
Fixpoint trim_left (s : string) : string :=
  match s with
  | EmptyString => EmptyString
  | String a s' => if white a then trim_left s' else s
  end.

Fixpoint trim_right (s : string) : string :=
  match s with
  | EmptyString => EmptyString
  | String a s' => if blank s then EmptyString else String a (trim_right s')
  end.

Definition trim (s : string) : string := trim_right (trim_left s).

(** Digits in groups that single underscores separate: no group is empty. *)
Definition digit_group (g : string) : bool := Py.truthy g && all_digits g.

Definition numeral (s : string) : option Z :=
  let groups := Py.split "_"%char s in
  if forallb digit_group groups then Some (numeral_value (String.concat EmptyString groups))
  else None.

(** The integer that a token writes, when it writes one. *)
Definition integer (part : string) : option Z :=
  match trim part with
  | String a s =>
      if Ascii.eqb a "+"%char then numeral s
      else if Ascii.eqb a "-"%char then option_map Z.opp (numeral s)
      else numeral (String a s)
  | EmptyString => None
  end.

(** "Converts each token to an integer if it parses as one, otherwise
    keeps it as a string token". *)
Definition token_of (part : string) : token :=
  match integer part with
  | Some z => TInt z
  | None => TStr part
  end.

(** "If no [.] remains, returns an empty sequence; otherwise splits on [.]
    after the family key". *)
Definition OrderKey (filename : string) : list token :=
  match after_first_dot (strip_extension filename) with
  | None => []
  | Some rest => map token_of (Py.split "."%char rest)
  end.

(** Tokens that may be compared: two integers or two strings. *)
Definition same_kind (a b : token) : bool :=
  match a, b with
  | TInt _, TInt _ => true
  | TStr _, TStr _ => true
  | _, _ => false
  end.

(** "Pairwise comparable tokens at each shared position". *)
Fixpoint comparable (l1 l2 : list token) : bool :=
  match l1, l2 with
  | a :: l1', b :: l2' => same_kind a b && comparable l1' l2'
  | _, _ => true
  end.




End Spec.

(** [k1 == k2] on the key tuples. *)
Definition key_eqb (k1 k2 : sort_key_t) : bool :=
  (fst k1 =? fst k2)%nat && list_eqb (snd k1) (snd k2).

(** A total comparison of keys, for the proofs: on tokens of the same kind
    it is Python's, and an integer is put before a string. *)
Definition token_cmp (a b : token) : comparison :=
  match a, b with
  | TInt x, TInt y => Z.compare x y
  | TStr x, TStr y => String.compare x y
  | TInt _, TStr _ => Lt
  | TStr _, TInt _ => Gt
  end.

Fixpoint tokens_cmp (l1 l2 : list token) : comparison :=
  match l1, l2 with
  | [], [] => Eq
  | [], _ :: _ => Lt
  | _ :: _, [] => Gt
  | a :: l1', b :: l2' =>
      match token_cmp a b with
      | Eq => tokens_cmp l1' l2'
      | c => c
      end
  end.

Definition key_cmp (k1 k2 : sort_key_t) : comparison :=
  match Nat.compare (fst k1) (fst k2) with
  | Eq => tokens_cmp (snd k1) (snd k2)
  | c => c
  end.

Definition key_ltb (k1 k2 : sort_key_t) : bool :=
  match key_cmp k1 k2 with Lt => true | _ => false end.

(** The rows that the log lines of a trace make in the CSV file. *)
Definition log_rows (evs : list Event) : list (list string) :=
  flat_map (fun e => match e with EvLog m => [[m]] | _ => [] end) evs.

(** A run that continues another: the trace and the log grow together, by
    events that all satisfy [P]. *)
Definition extends_with (P : Event -> bool) (r r' : Run) : Prop :=
  exists evs, trace r' = trace r ++ evs
              /\ local_log_entries r' = local_log_entries r ++ log_rows evs
              /\ forallb P evs = true.

Definition extends (r r' : Run) : Prop := extends_with (fun _ => true) r r'.

Definition is_log (e : Event) : bool :=
  match e with EvLog _ => true | _ => false end.

Definition is_progress (e : Event) : bool :=
  match e with EvProgress _ _ => true | _ => false end.

Definition is_save (e : Event) : bool :=
  match e with EvSave _ _ => true | _ => false end.

Definition is_copy (e : Event) : bool :=
  match e with EvCopy _ _ => true | _ => false end.

Definition is_csv (e : Event) : bool :=
  match e with EvCsv _ _ => true | _ => false end.

Definition is_csv_open (e : Event) : bool :=
  match e with EvCsvOpen _ => true | _ => false end.

Definition is_provider (e : Event) : bool :=
  match e with EvProvider _ => true | _ => false end.

Definition is_unlink (e : Event) : bool :=
  match e with EvUnlink _ => true | _ => false end.

Definition is_completion (e : Event) : bool :=
  match e with EvCompletion _ => true | _ => false end.

(** The events of Pass 1, of Pass 2, of the QC selection, of the cleanup. *)
Definition pass1_event (e : Event) : bool := is_log e || is_provider e.
Definition pass2_event (e : Event) : bool := is_log e || is_progress e || is_save e.
Definition qc_event (e : Event) : bool := is_log e || is_copy e.
Definition cleanup_event (e : Event) : bool := is_log e || is_unlink e.
Definition log_csv_event (e : Event) : bool := is_log e || is_csv_open e || is_csv e.

(** Some entry of a listing, with the entries before it, satisfies [P]. *)
Definition occurs (P : list string -> string -> Prop) (listing : list string) : Prop :=
  exists pre f post, listing = pre ++ f :: post /\ P pre f.

(** An entry that belongs to the family [k] and is resolved. *)
Definition member_pred (w : World) (folder_path : string) (s : Pass1) (k g : string) : bool :=
  negb (skipped w folder_path g) && String.eqb (extract_family_key g) k && resolved s g.

(** ** The results of Pass 2, family by family *)

(** The documents saved in a trace. *)
Definition saves (evs : list Event) : list Event := List.filter is_save evs.

(** The document and the count that the members of a family, in merge
    order, give. *)
Definition appended (w : World) (fpm : gmap string string)
    (sorted_filenames_for_merge : list string) : Merger :=
  fst (merge_members w fpm sorted_filenames_for_merge run0).

(** The specification's MergeResult: the output path of a family, the count
    of merged members and the native flag; a family has one when Pass 2
    saved its document. *)
Record MergeResult : Type := {
  mr_path : string;
  mr_count : nat;
  mr_native : bool
}.

Definition merge_result (w : World) (merged_pdfs_output_path : string) (p1 : Pass1)
    (family : string * list string) : option MergeResult :=
  match sort_family (valid_files (file_path_map p1) (snd family)) with
  | Some sorted =>
      let m := appended w (file_path_map p1) sorted in
      let path := OsPath.join merged_pdfs_output_path (final_output_filename sorted) in
      if (0 <? files_successfully_added_to_merger m)%nat
         && is_done (pdf_save w path (final_merged_pdf m))
      then Some {| mr_path := path;
                   mr_count := files_successfully_added_to_merger m;
                   mr_native := native_flag p1 (fst family) |}
      else None
  | None => None
  end.

Definition merge_results (w : World) (merged_pdfs_output_path : string) (p1 : Pass1)
    (fs : Families) : list MergeResult :=
  omap (merge_result w merged_pdfs_output_path p1) fs.

(** "The largest family, by merged-member count; ties broken by
    first-encountered", among the results. *)
Definition largest_spec (rs : list MergeResult) (remembered : option string) : Prop :=
  match remembered with
  | None => rs = []
  | Some p =>
      exists before m after,
        rs = before ++ m :: after /\ mr_path m = p
        /\ (forall m', In m' before -> (mr_count m' < mr_count m)%nat)
        /\ (forall m', In m' after -> (mr_count m' <= mr_count m)%nat)
  end.

(** "The first native-containing result in iteration order". *)
Definition first_native_spec (rs : list MergeResult) (remembered : option string) : Prop :=
  match remembered with
  | None => forall m, In m rs -> mr_native m = false
  | Some p =>
      exists before m after,
        rs = before ++ m :: after /\ mr_path m = p /\ mr_native m = true
        /\ (forall m', In m' before -> mr_native m' = false)
  end.

(** What lines 231-236 do to the aggregates. *)
Definition update_aggregates (st : Pass2) (res : option MergeResult) : Pass2 :=
  match res with
  | None => st
  | Some m =>
      let larger := (max_files_in_family_count st <? mr_count m)%nat in
      let first_native := mr_native m && is_none (first_family_with_native_src_path st) in
      {| max_files_in_family_count :=
           if larger then mr_count m else max_files_in_family_count st;
         largest_family_merged_pdf_src_path :=
           if larger then Some (mr_path m) else largest_family_merged_pdf_src_path st;
         first_family_with_native_src_path :=
           if first_native then Some (mr_path m) else first_family_with_native_src_path st;
         processed_families_count := processed_families_count st |}
  end.

(** The aggregates are right for the results seen so far. *)
Definition aggregates_ok (rs : list MergeResult) (st : Pass2) : Prop :=
  (forall m, In m rs -> (0 < mr_count m <= max_files_in_family_count st)%nat)
  /\ match largest_family_merged_pdf_src_path st with
     | None => rs = [] /\ max_files_in_family_count st = 0%nat
     | Some p =>
         exists before m after,
           rs = before ++ m :: after /\ mr_path m = p
           /\ mr_count m = max_files_in_family_count st
           /\ (forall m', In m' before -> (mr_count m' < mr_count m)%nat)
     end
  /\ first_native_spec rs (first_family_with_native_src_path st).

(** The events that come before the CSV file is written. *)
Definition pre_csv_event (e : Event) : bool :=
  is_log e || is_provider e || is_progress e || is_save e || is_copy e.

(** The run when the CSV file is about to be written: after the QC
    selection that follows a Pass 2 that ended in [st], with the trace [r2]. *)
Definition run_before_log (w : World) (folder_path : string) (p1 : Pass1) (st : Pass2)
    (r2 : Run) : Run :=
  let r := log_message "Pass 2 completed." r2 in
  let r := log_message "Processing QC documents..." r in
  let '(qc_files_copied_for_log, r) := qc_largest w (qc_docs_output_path folder_path) st r in
  qc_native w (qc_docs_output_path folder_path) p1 st qc_files_copied_for_log r.

(** The run when Pass 1 starts and the one when Pass 2 starts. *)
Definition run_at_pass1 (folder_path : string) : Run :=
  log_message "Starting Pass 1: Identifying families and creating placeholders..."
    (log_message ("Output folders created/ensured: " +:+ base_output_folder folder_path) run0).

Definition run_at_pass2 (w : World) (folder_path : string) (listing : list string) : Run :=
  log_message "Starting Pass 2: Merging PDF families using pikepdf..."
    (log_message "Pass 1 completed."
       (snd (pass1_loop w folder_path listing (pass1_init, run_at_pass1 folder_path)))).

(** Pass 2 of the run over a listing. *)
Definition pass2_of (w : World) (folder_path : string) (listing : list string)
    : Result Pass2 * Run :=
  let p1 := pass1_state w folder_path listing in
  pass2_loop w (merged_pdfs_output_path folder_path) p1 (length (families p1)) (families p1)
    pass2_init (run_at_pass2 w folder_path listing).

(** The fatal errors: an [OSError] of the output directories, or of the
    listing. *)
Definition fatal (w : World) (folder_path : string) : bool :=
  match make_output_dirs w (base_output_folder folder_path)
          (merged_pdfs_output_path folder_path) (qc_docs_output_path folder_path) with
  | RaisesOSError _ => true
  | RaisesOther _ => false
  | Returns _ =>
      match os_listdir w folder_path with
      | RaisesOSError _ => true
      | _ => false
      end
  end.

(** Where an exception that ends the worker comes from: [os.makedirs],
    [os.listdir] or the writing of the CSV file raised it, and it is no
    [OSError]; or it is the [TypeError] of the sort of a family. *)
Definition raised_by (w : World) (folder_path exn : string) : Prop :=
  let dirs := make_output_dirs w (base_output_folder folder_path)
                (merged_pdfs_output_path folder_path) (qc_docs_output_path folder_path) in
  let path := OsPath.join (base_output_folder folder_path) "Merge Log.csv" in
  dirs = RaisesOther exn
  \/ (exists u, dirs = Returns u)
     /\ (os_listdir w folder_path = RaisesOther exn
         \/ exists listing,
              os_listdir w folder_path = Returns listing
              /\ ((exn = "TypeError"
                   /\ exists k members,
                        In (k, members) (families (pass1_state w folder_path listing))
                        /\ sort_family
                             (valid_files (file_path_map (pass1_state w folder_path listing))
                                members) = None)
                  \/ csv_open w path = RaisesOther exn
                  \/ exists rows, csv_writerows w path rows = RaisesOther exn)).

(** The events of a run before the completion callback. *)
Definition body_event (e : Event) : bool := negb (is_completion e).

(** For the facts about the sort: [lt] does not raise on the items of [l]
    and is [ltb] there; [x] is not after [y] in the order of [ltb]; [x] has
    the key [k]. *)
Definition agrees {A K : Type} (key : A -> K) (lt : K -> K -> option bool)
    (ltb : K -> K -> bool) (l : list A) : Prop :=
  forall x y, In x l -> In y l -> lt (key x) (key y) = Some (ltb (key x) (key y)).

Definition not_after {A K : Type} (key : A -> K) (ltb : K -> K -> bool) (x y : A) : Prop :=
  ltb (key y) (key x) = false.

Definition same {A K : Type} (key : A -> K) (eqb : K -> K -> bool) (k : K) (x : A) : bool :=
  eqb (key x) k.

(** Strings of decimal digits and their value, to check [Py.int]. *)
Definition digit_char (d : nat) : ascii := ascii_of_nat (48 + d).

Fixpoint digits_string (ds : list nat) : string :=
  match ds with
  | [] => EmptyString
  | d :: ds' => String (digit_char d) (digits_string ds')
  end.

Fixpoint decimal_value (ds : list nat) (acc : Z) : Z :=
  match ds with
  | [] => acc
  | d :: ds' => decimal_value ds' (10 * acc + Z.of_nat d)
  end.

(** ** Notions for further properties of the code *)

(** The number of occurrences of a character in a string. *)
Fixpoint count_char (c : ascii) (s : string) : nat :=
  match s with
  | EmptyString => 0%nat
  | String a s' => ((if Ascii.eqb a c then 1 else 0) + count_char c s')%nat
  end.

(** The characters that a string read by [int] may hold: white space,
    decimal digits, the underscore and the two signs. *)
Definition int_char (a : ascii) : bool :=
  Py.is_space a || negb (is_none (Py.digit_value a)) || Py.is_underscore a
  || Ascii.eqb a "+"%char || Ascii.eqb a "-"%char.

Fixpoint all_chars (P : ascii -> bool) (s : string) : bool :=
  match s with
  | EmptyString => true
  | String a s' => P a && all_chars P s'
  end.

(** The keys of a list in the order in which they are first seen. *)
Definition first_seen (keys : list string) : list string :=
  fold_left (fun acc k => if existsb (String.eqb k) acc then acc else acc ++ [k]) keys [].

(** The pages that a member gives to the document of its family: those of
    its file, when it has a resolved path, the file exists and opens. *)
Definition member_pages (w : World) (fpm : gmap string string) (fname : string) : list Page :=
  match truthy_path (fpm !! fname) with
  | None => []
  | Some path =>
      if exists_pass2 w path then
        match pdf_open w path with
        | OpenPages pages => pages
        | _ => []
        end
      else []
  end.

Definition gives_pages (w : World) (fpm : gmap string string) (fname : string) : bool :=
  match member_pages w fpm fname with [] => false | _ :: _ => true end.

(** The paths of the documents saved in a trace. *)
Definition save_paths (evs : list Event) : list string :=
  flat_map (fun e => match e with EvSave p _ => [p] | _ => [] end) evs.

(** The sources of the copies made in a trace. *)
Definition copy_sources (evs : list Event) : list string :=
  flat_map (fun e => match e with EvCopy s _ => [s] | _ => [] end) evs.

(** The world [w] with the providers [pvs]: the [n]-th call of
    [create_placeholder_pdf] runs on [pvs n]. *)
Definition world_with_providers (pvs : nat -> Provider) (w : World) : World :=
  {| os_makedirs := os_makedirs w;
     os_listdir := os_listdir w;
     os_path_isdir := os_path_isdir w;
     provider := pvs;
     exists_pass2 := exists_pass2 w;
     exists_qc := exists_qc w;
     exists_cleanup := exists_cleanup w;
     pdf_open := pdf_open w;
     pdf_save := pdf_save w;
     shutil_copy2 := shutil_copy2 w;
     csv_open := csv_open w;
     csv_writerows := csv_writerows w;
     os_unlink := os_unlink w;
     set_rank := set_rank w |}.

(** A provider for examples: the file is made under [path], and the check
    finds the pages [pages]. *)
Definition simple_provider (path : string) (pages : list Page) : Provider :=
  {| pv_mkstemp := fun _ _ => Done path;
     pv_close := Done tt;
     pv_draw := fun _ _ => Done tt;
     pv_check := fun _ => OpenPages pages;
     pv_exists := fun _ => true;
     pv_unlink := fun _ => Done tt |}.

(** * Properties *)

(** ** The identifier parser *)

Example family_key_ex :
  extract_family_key "CTRL001.0001.0002.pdf" = "CTRL001".
Proof. reflexivity. Qed.

Example suffix_parts_ex :
  extract_suffix_parts "CTRL001.0001.0002.pdf" = [TInt 1; TInt 2].
Proof. reflexivity. Qed.

Example suffix_parts_mixed_ex :
  extract_suffix_parts "CTRL001.1_0.v2. 7.+3.-4.x.pdf"
  = [TInt 10; TStr "v2"; TInt 7; TInt 3; TInt (-4); TStr "x"].
Proof. reflexivity. Qed.

Example suffix_parts_hidden_ex :
  extract_family_key ".profile" = "" /\ extract_suffix_parts ".profile" = [TStr "profile"].
Proof. split; reflexivity. Qed.

Example spec_reading_ex :
  Spec.strip_extension "case.d/.hidden.tar.gz" = "case.d/.hidden.tar"
  /\ Spec.strip_extension "..pdf" = "..pdf"
  /\ Spec.integer " -1_0 " = Some (-10)
  /\ Spec.integer "0007" = Some 7
  /\ Spec.integer "1__0" = None
  /\ Spec.integer "7a" = None.
Proof. repeat split; reflexivity. Qed.

Lemma split_nonempty sep s : Py.split sep s <> [].
Proof. destruct s as [|a s]; simpl; [discriminate|]. destruct (Ascii.eqb a sep); [discriminate|].
  destruct (Py.split sep s); discriminate. Qed.

Lemma hd_split_dot s :
  hd EmptyString (Py.split "."%char s) = Spec.before_first_dot s.
Proof.
  induction s as [|a s IH]; simpl; [reflexivity|].
  destruct (Ascii.eqb a "."%char); [reflexivity|].
  destruct (Py.split "."%char s) as [|h t] eqn:E.
  - exfalso. exact (split_nonempty _ _ E).
  - simpl in *. now rewrite IH.
Qed.

Lemma tl_split_dot s :
  tl (Py.split "."%char s)
  = match Spec.after_first_dot s with
    | None => []
    | Some rest => Py.split "."%char rest
    end.
Proof.
  induction s as [|a s IH]; simpl; [reflexivity|].
  destruct (Ascii.eqb a "."%char); [reflexivity|].
  destruct (Py.split "."%char s) as [|h t] eqn:E.
  - exfalso. exact (split_nonempty _ _ E).
  - simpl in *. exact IH.
Qed.

(** The two halves put the name together again. *)
Lemma first_dot_decompose s :
  s = match Spec.after_first_dot s with
      | None => Spec.before_first_dot s
      | Some rest => Spec.before_first_dot s +:+ "." +:+ rest
      end.
Proof.
  induction s as [|a s IH]; simpl; [reflexivity|].
  destruct (Ascii.eqb_spec a "."%char) as [->|Hne]; [reflexivity|].
  destruct (Spec.after_first_dot s); rewrite IH at 1; reflexivity.
Qed.

(** *** [os.path.splitext] strips the extension *)

Lemma rfind_from_has c s : forall i acc,
  Py.rfind_from c s i acc
  = if Spec.has c s then i + Py.rfind c s else acc.
Proof.
  unfold Py.rfind.
  induction s as [|a s IH]; intros i acc; [reflexivity|].
  cbn [Py.rfind_from Spec.has]. rewrite (IH (i + 1)), (IH (0 + 1)).
  destruct (Spec.has c s); [rewrite orb_true_r; lia|].
  rewrite orb_false_r. destruct (Ascii.eqb a c); lia.
Qed.

Lemma rfind_cons c a s :
  Py.rfind c (String a s)
  = if Spec.has c s then 1 + Py.rfind c s else if Ascii.eqb a c then 0 else -1.
Proof.
  unfold Py.rfind at 1. cbn [Py.rfind_from]. rewrite rfind_from_has.
  destruct (Spec.has c s); [lia | reflexivity].
Qed.

Lemma rfind_range c s :
  if Spec.has c s then 0 <= Py.rfind c s else Py.rfind c s = -1.
Proof.
  induction s as [|a s IH]; [reflexivity|].
  rewrite rfind_cons. cbn [Spec.has].
  destruct (Spec.has c s); [rewrite orb_true_r; lia|].
  rewrite orb_false_r. destruct (Ascii.eqb a c); lia.
Qed.

Lemma rfind_has c s : Spec.has c s = true -> 0 <= Py.rfind c s.
Proof. intros H. pose proof (rfind_range c s) as R. now rewrite H in R. Qed.

Lemma rfind_has_not c s : Spec.has c s = false -> Py.rfind c s = -1.
Proof. intros H. pose proof (rfind_range c s) as R. now rewrite H in R. Qed.

Lemma before_last_dot_none s : Spec.has "."%char s = false -> Spec.before_last_dot s = s.
Proof.
  induction s as [|a s IH]; [reflexivity|]. cbn [Spec.has Spec.before_last_dot].
  intros H. apply orb_false_elim in H as [-> H]. cbn [andb]. now rewrite IH.
Qed.

(** Up to the last ['.']: the slice that [_splitext] returns. *)
Lemma slice_to_rfind_dot s :
  Spec.has "."%char s = true ->
  Py.slice_to s (Py.rfind "."%char s) = Spec.before_last_dot s.
Proof.
  unfold Py.slice_to.
  induction s as [|a s IH]; [discriminate|]. intros H.
  rewrite rfind_cons. cbn [Spec.before_last_dot].
  destruct (Spec.has "."%char s) eqn:Hs.
  - rewrite andb_false_r. pose proof (rfind_has _ _ Hs) as R.
    replace (Z.to_nat (1 + Py.rfind "."%char s)) with (S (Z.to_nat (Py.rfind "."%char s)))
      by lia.
    cbn [Py.take]. now rewrite IH.
  - cbn [Spec.has] in H. rewrite Hs, orb_false_r in H. rewrite H. reflexivity.
Qed.

Lemma slice_cons a s i j :
  0 <= i -> i <= j ->
  Py.slice (String a s) (1 + i) (1 + j) = Py.slice s i j.
Proof.
  intros Hi Hj. unfold Py.slice.
  replace (1 + j - (1 + i)) with (j - i) by lia.
  replace (Z.to_nat (1 + i)) with (S (Z.to_nat i)) by lia. reflexivity.
Qed.

(** The loop of [_splitext] on a path with one more character in front. *)
Lemma splitext_scan_cons a p d : forall n f,
  0 <= f -> 0 <= d ->
  OsPath.splitext_scan (String a p) (1 + d) n (1 + f)
  = (String a (fst (OsPath.splitext_scan p d n f)), snd (OsPath.splitext_scan p d n f)).
Proof.
  induction n as [|n IH]; intros f Hf Hd; [reflexivity|].
  cbn [OsPath.splitext_scan].
  replace (1 + f + 1) with (1 + (f + 1)) by lia.
  rewrite slice_cons by lia.
  destruct (negb (String.eqb (Py.slice p f (f + 1)) (String OsPath.extsep EmptyString))).
  - unfold Py.slice_to, Py.slice_from.
    replace (Z.to_nat (1 + d)) with (S (Z.to_nat d)) by lia. reflexivity.
  - apply IH; lia.
Qed.

(** A path with a separator: the first character stays, and the rest is
    split as it would be alone. *)
Lemma splitext_dir a p :
  Spec.has "/"%char (String a p) = true ->
  fst (OsPath.splitext (String a p)) = String a (fst (OsPath.splitext p)).
Proof.
  intros Hsep. unfold OsPath.splitext, OsPath._splitext, OsPath.sep, OsPath.extsep.
  assert (Es : Py.rfind "/"%char (String a p) = 1 + Py.rfind "/"%char p).
  { rewrite rfind_cons. cbn [Spec.has] in Hsep.
    destruct (Spec.has "/"%char p) eqn:Hp; [reflexivity|].
    rewrite orb_false_r in Hsep. rewrite Hsep. now rewrite (rfind_has_not _ _ Hp). }
  assert (Rs : -1 <= Py.rfind "/"%char p).
  { pose proof (rfind_range "/"%char p) as R. destruct (Spec.has "/"%char p); lia. }
  rewrite Es, (rfind_cons "."%char a p).
  destruct (Spec.has "."%char p) eqn:Hd.
  - pose proof (rfind_has _ _ Hd) as Rd.
    replace (1 + Py.rfind "/"%char p <? 1 + Py.rfind "."%char p)
      with (Py.rfind "/"%char p <? Py.rfind "."%char p)
      by (destruct (Z.ltb_spec (Py.rfind "/"%char p) (Py.rfind "."%char p));
          destruct (Z.ltb_spec (1 + Py.rfind "/"%char p) (1 + Py.rfind "."%char p)); lia).
    destruct (Py.rfind "/"%char p <? Py.rfind "."%char p); [|reflexivity].
    replace (1 + Py.rfind "/"%char p + 1) with (1 + (Py.rfind "/"%char p + 1)) by lia.
    replace (1 + Py.rfind "."%char p - (1 + (Py.rfind "/"%char p + 1)))
      with (Py.rfind "."%char p - (Py.rfind "/"%char p + 1)) by lia.
    rewrite splitext_scan_cons by lia. reflexivity.
  - rewrite (rfind_has_not _ _ Hd).
    replace (Py.rfind "/"%char p <? -1) with false
      by (symmetry; apply Z.ltb_ge; lia).
    replace (1 + Py.rfind "/"%char p <? (if Ascii.eqb a "."%char then 0 else -1)) with false
      by (symmetry; apply Z.ltb_ge; destruct (Ascii.eqb a "."%char); lia).
    reflexivity.
Qed.

(** A name, without separator. *)
Lemma splitext_name name :
  Spec.has "/"%char name = false ->
  fst (OsPath.splitext name) = Spec.strip_name name.
Proof.
  induction name as [|a s IH]; [reflexivity|]. intros Hsep.
  cbn [Spec.has] in Hsep. apply orb_false_elim in Hsep as [Ha Hs]. specialize (IH Hs).
  assert (Hsep' : Spec.has "/"%char (String a s) = false)
    by (cbn [Spec.has]; now rewrite Ha, Hs).
  revert IH.
  unfold OsPath.splitext, OsPath._splitext, OsPath.sep, OsPath.extsep.
  rewrite (rfind_has_not _ _ Hsep'), (rfind_has_not _ _ Hs), (rfind_cons "."%char a s).
  cbn [Spec.strip_name].
  destruct (Spec.has "."%char s) eqn:Hd.
  - pose proof (rfind_has _ _ Hd) as Rd.
    replace (-1 <? 1 + Py.rfind "."%char s) with true by (symmetry; apply Z.ltb_lt; lia).
    replace (-1 <? Py.rfind "."%char s) with true by (symmetry; apply Z.ltb_lt; lia).
    replace (-1 + 1) with 0 by lia.
    replace (Z.to_nat (1 + Py.rfind "."%char s - 0))
      with (S (Z.to_nat (Py.rfind "."%char s - 0))) by lia.
    cbn [OsPath.splitext_scan]. unfold OsPath.extsep.
    change (Py.slice (String a s) 0 (0 + 1)) with (String a EmptyString).
    destruct (Ascii.eqb_spec a "."%char) as [->|Hne].
    + cbn [String.eqb Ascii.eqb Bool.eqb negb andb]. intros IH.
      change (0 + 1) with (1 + 0).
      rewrite splitext_scan_cons by lia. cbn [fst]. now rewrite IH.
    + intros _.
      assert (E : String.eqb (String a EmptyString) (String "."%char EmptyString) = false).
      { apply String.eqb_neq. congruence. }
      rewrite E. cbn [negb fst].
      assert (Hd' : Spec.has "."%char (String a s) = true)
        by (cbn [Spec.has]; now rewrite Hd, orb_true_r).
      replace (1 + Py.rfind "."%char s) with (Py.rfind "."%char (String a s))
        by (rewrite rfind_cons, Hd; reflexivity).
      apply (slice_to_rfind_dot _ Hd').
  - rewrite (rfind_has_not _ _ Hd). intros IH. cbn [fst] in IH.
    destruct (Ascii.eqb_spec a "."%char) as [->|Hne].
    + change (-1 <? 0) with true. change (-1 + 1) with 0. cbn [Z.sub Z.to_nat].
      cbn [OsPath.splitext_scan fst]. now rewrite <- IH.
    + change (-1 <? -1) with false. cbn [fst].
      symmetry. apply before_last_dot_none. cbn [Spec.has].
      rewrite Hd, orb_false_r. now apply Ascii.eqb_neq.
Qed.

(** [os.path.splitext(filename)[0]] is the name without its extension. *)
Lemma splitext_strip_extension filename :
  fst (OsPath.splitext filename) = Spec.strip_extension filename.
Proof.
  induction filename as [|a s IH]; [reflexivity|].
  cbn [Spec.strip_extension].
  destruct (Spec.has "/"%char (String a s)) eqn:Hsep.
  - rewrite (splitext_dir _ _ Hsep). now rewrite IH.
  - now apply splitext_name.
Qed.

(** *** [int] reads the integers *)

Lemma white_is_space a : Spec.white a = Py.is_space a.
Proof. destruct a as [[] [] [] [] [] [] [] []]; reflexivity. Qed.

Lemma digit_digit_value a : option_map Z.of_nat (Spec.digit a) = Py.digit_value a.
Proof. destruct a as [[] [] [] [] [] [] [] []]; reflexivity. Qed.

Lemma blank_all_space s : Spec.blank s = Py.all_space s.
Proof. induction s as [|a s IH]; [reflexivity|]. simpl. now rewrite white_is_space, IH. Qed.

Lemma trim_left_lstrip s : Spec.trim_left s = Py.lstrip s.
Proof. induction s as [|a s IH]; [reflexivity|]. simpl. now rewrite white_is_space, IH. Qed.

Lemma split_cons_other c a s :
  Ascii.eqb a c = false ->
  Py.split c (String a s)
  = String a (hd EmptyString (Py.split c s)) :: tl (Py.split c s).
Proof.
  intros H. cbn [Py.split]. rewrite H.
  destruct (Py.split c s) as [|h t] eqn:E; [|reflexivity].
  exfalso. exact (split_nonempty _ _ E).
Qed.

Lemma string_length_concat_cons a g gs :
  String.concat EmptyString (String a g :: gs) = String a (String.concat EmptyString (g :: gs)).
Proof. cbn [String.concat]. destruct gs; reflexivity. Qed.

(** The scan of [int] over what follows a digit ([prev_us] false) or an
    underscore ([prev_us] true), against the groups of the trimmed text. *)
Lemma int_digits_groups s : forall acc prev_us,
  Py.int_digits s acc prev_us
  = let groups := Py.split "_"%char (Spec.trim_right s) in
    let g0 := hd EmptyString groups in
    if Spec.all_digits g0 && (negb prev_us || Py.truthy g0)
       && forallb Spec.digit_group (tl groups)
    then Some (acc * 10 ^ Z.of_nat (String.length (String.concat EmptyString groups))
               + Spec.numeral_value (String.concat EmptyString groups))
    else None.
Proof.
  induction s as [|a s IH]; intros acc prev_us.
  - cbn. destruct prev_us; [reflexivity|]. f_equal. lia.
  - cbn [Py.int_digits Spec.trim_right].
    destruct (Py.digit_value a) as [d|] eqn:Ed.
    + (* a digit *)
      assert (Hw : Spec.white a = false).
      { revert Ed. destruct a as [[] [] [] [] [] [] [] []]; try discriminate; reflexivity. }
      assert (Hu : Ascii.eqb a "_"%char = false).
      { revert Ed. destruct a as [[] [] [] [] [] [] [] []]; try discriminate; reflexivity. }
      cbn [Spec.blank]. rewrite Hw. cbn [andb].
      rewrite (split_cons_other _ _ _ Hu), IH. cbv zeta.
      pose proof (split_nonempty "_"%char (Spec.trim_right s)) as Hne.
      destruct (Py.split "_"%char (Spec.trim_right s)) as [|g0 gs]; [congruence|].
      cbn [hd tl Spec.all_digits Py.truthy negb].
      pose proof (digit_digit_value a) as Hd. rewrite Ed in Hd.
      destruct (Spec.digit a) as [n|] eqn:En; [|discriminate]. injection Hd as Hd.
      cbn [is_none negb andb]. rewrite orb_true_r, !andb_true_r.
      destruct (Spec.all_digits g0 && forallb Spec.digit_group gs); [|reflexivity].
      rewrite string_length_concat_cons. cbn [Spec.numeral_value String.length].
      rewrite En. cbn [default]. f_equal.
      rewrite Nat2Z.inj_succ, Z.pow_succ_r by lia. unfold id. rewrite <- Hd. ring.
    + unfold Py.is_underscore. destruct (Ascii.eqb_spec a "_"%char) as [->|Hne].
      * (* an underscore *)
        cbn [Spec.blank Spec.white]. change (Spec.white "_"%char) with false. cbn [andb].
        cbn [Py.split]. change (Ascii.eqb "_"%char "_"%char) with true. cbv iota.
        cbn [hd tl Spec.all_digits Py.truthy]. cbv zeta.
        destruct prev_us; [reflexivity|]. cbn [negb orb andb].
        rewrite IH. cbv zeta.
        pose proof (split_nonempty "_"%char (Spec.trim_right s)) as Hne.
        destruct (Py.split "_"%char (Spec.trim_right s)) as [|g0 gs]; [congruence|].
        cbn [hd tl forallb negb orb]. unfold Spec.digit_group at 2.
        rewrite (andb_comm (Py.truthy g0)).
        destruct (Spec.all_digits g0 && Py.truthy g0 && forallb Spec.digit_group gs);
          reflexivity.
      * (* another character *)
        rewrite <- blank_all_space.
        destruct (Spec.blank (String a s)) eqn:Eb.
        -- cbn. destruct prev_us; [reflexivity|]. f_equal. lia.
        -- assert (Hu : Ascii.eqb a "_"%char = false) by now apply Ascii.eqb_neq.
           rewrite (split_cons_other _ _ _ Hu). cbv zeta. cbn [hd Spec.all_digits].
           pose proof (digit_digit_value a) as Hd. rewrite Ed in Hd.
           destruct (Spec.digit a); [discriminate|]. cbn [is_none negb andb].
           now destruct prev_us.
Qed.

Lemma int_unsigned_numeral s : Py.int_unsigned s = Spec.numeral (Spec.trim_right s).
Proof.
  assert (E : Py.int_unsigned s = Py.int_digits s 0 true).
  { destruct s as [|a s]; [reflexivity|]. cbn [Py.int_unsigned Py.int_digits].
    destruct (Py.digit_value a) as [d|] eqn:Ed; [f_equal; lia|].
    unfold Py.is_underscore. now destruct (Ascii.eqb a "_"%char). }
  rewrite E, int_digits_groups. cbv zeta. unfold Spec.numeral.
  pose proof (split_nonempty "_"%char (Spec.trim_right s)) as Hne.
  destruct (Py.split "_"%char (Spec.trim_right s)) as [|g0 gs]; [congruence|].
  cbn [hd tl forallb negb orb]. unfold Spec.digit_group at 2.
  rewrite (andb_comm (Py.truthy g0)).
  destruct (Spec.all_digits g0 && Py.truthy g0 && forallb Spec.digit_group gs);
    [f_equal; lia | reflexivity].
Qed.

Lemma trim_left_head a s t : Spec.trim_left t = String a s -> Spec.white a = false.
Proof.
  induction t as [|b t IH]; [discriminate|]. cbn [Spec.trim_left].
  destruct (Spec.white b) eqn:Eb; [exact IH|]. now intros [= <- _].
Qed.

(** [int(part)] is the integer that the token writes, and raises
    [ValueError] when it writes none. *)
Lemma int_integer part : Py.int part = Spec.integer part.
Proof.
  unfold Py.int, Spec.integer, Spec.trim. rewrite <- trim_left_lstrip.
  destruct (Spec.trim_left part) as [|a s] eqn:Et; [reflexivity|].
  pose proof (trim_left_head _ _ _ Et) as Hw.
  cbn [Spec.trim_right Spec.blank]. rewrite Hw. cbn [andb].
  rewrite !int_unsigned_numeral.
  cbn [Spec.trim_right Spec.blank]. rewrite Hw. reflexivity.
Qed.

Lemma suffix_token_of part : suffix_token part = Spec.token_of part.
Proof. unfold suffix_token, Spec.token_of. now rewrite int_integer. Qed.

(** C1: [extract_family_key] is the text of the name without its extension,
    up to its first ['.'], and [extract_suffix_parts] is empty when the name
    without its extension has no ['.'] and otherwise the ['.']-separated
    tokens after the family key, each the integer that it writes, when it
    writes one, and the string itself otherwise; the family key, a ['.'] and
    the text of the tokens make up the name without its extension. *)
Theorem identifier_parser_spec (f : string) :
  extract_family_key f = Spec.FamilyKey f
  /\ extract_suffix_parts f = Spec.OrderKey f
  /\ Spec.strip_extension f
     = match Spec.after_first_dot (Spec.strip_extension f) with
       | None => extract_family_key f
       | Some rest => extract_family_key f +:+ "." +:+ rest
       end.
Proof.
  unfold extract_family_key, extract_suffix_parts, Spec.FamilyKey, Spec.OrderKey.
  rewrite <- !(splitext_strip_extension f).
  set (name := fst (OsPath.splitext f)).
  split; [apply hd_split_dot|]. split.
  - pose proof (tl_split_dot name) as Htl.
    pose proof (split_nonempty "."%char name) as Hne.
    destruct (Py.split "."%char name) as [|h [|h' t]] eqn:E; [congruence| |].
    + simpl in *. destruct (Spec.after_first_dot name) as [rest|]; [|reflexivity].
      exfalso. symmetry in Htl. exact (split_nonempty _ _ Htl).
    + simpl in *. destruct (Spec.after_first_dot name) as [rest|]; [|discriminate].
      rewrite <- Htl. apply (List.map_ext _ _ suffix_token_of (h' :: t)).
  - rewrite hd_split_dot. apply first_dot_decompose.
Qed.

(** ** The order of the members *)

Example sort_family_ex :
  sort_family ["A.10.pdf"; "A.2.1.pdf"; "A.2.pdf"; "A.pdf"; "A.02.pdf"]
  = Some ["A.pdf"; "A.2.pdf"; "A.02.pdf"; "A.10.pdf"; "A.2.1.pdf"].
Proof. reflexivity. Qed.

Example sort_family_mixed_ex : sort_family ["A.1.pdf"; "A.x.pdf"] = None.
Proof. reflexivity. Qed.

Lemma ascii_compare_trans a b c :
  Ascii.compare a b = Lt -> Ascii.compare b c = Lt -> Ascii.compare a c = Lt.
Proof.
  unfold Ascii.compare. rewrite !N.compare_lt_iff. lia.
Qed.

Lemma ascii_compare_refl a : Ascii.compare a a = Eq.
Proof. unfold Ascii.compare. apply N.compare_refl. Qed.

Lemma string_compare_refl s : String.compare s s = Eq.
Proof. induction s as [|a s IH]; simpl; [reflexivity|]. now rewrite ascii_compare_refl. Qed.

Lemma string_compare_trans a : forall b c,
  String.compare a b = Lt -> String.compare b c = Lt -> String.compare a c = Lt.
Proof.
  induction a as [|x a IH]; intros [|y b] [|z c]; simpl; try congruence.
  destruct (Ascii.compare x y) eqn:Exy; try discriminate;
    destruct (Ascii.compare y z) eqn:Eyz; try discriminate; intros H1 H2.
  - apply Ascii.compare_eq_iff in Exy, Eyz. subst. rewrite ascii_compare_refl. eauto.
  - apply Ascii.compare_eq_iff in Exy. subst. now rewrite Eyz.
  - apply Ascii.compare_eq_iff in Eyz. subst. now rewrite Exy.
  - now rewrite (ascii_compare_trans _ _ _ Exy Eyz).
Qed.

Lemma token_cmp_eq a b : token_cmp a b = Eq <-> a = b.
Proof.
  destruct a as [x|x], b as [y|y]; simpl; split; try congruence.
  - intros H. apply Z.compare_eq in H. congruence.
  - intros [= ->]. apply Z.compare_refl.
  - intros H. apply String.compare_eq_iff in H. congruence.
  - intros [= ->]. apply string_compare_refl.
Qed.

Lemma token_cmp_antisym a b : token_cmp b a = CompOpp (token_cmp a b).
Proof.
  destruct a as [x|x], b as [y|y]; simpl; try reflexivity.
  - apply Z.compare_antisym.
  - apply String.compare_antisym.
Qed.

Lemma token_cmp_trans a b c :
  token_cmp a b = Lt -> token_cmp b c = Lt -> token_cmp a c = Lt.
Proof.
  destruct a as [x|x], b as [y|y], c as [z|z]; simpl; try congruence.
  - rewrite !Z.compare_lt_iff. lia.
  - apply string_compare_trans.
Qed.

Lemma tokens_cmp_eq l1 : forall l2, tokens_cmp l1 l2 = Eq <-> l1 = l2.
Proof.
  induction l1 as [|a l1 IH]; intros [|b l2]; simpl; split; try congruence.
  - destruct (token_cmp a b) eqn:E; try discriminate.
    apply token_cmp_eq in E. intros H. apply IH in H. congruence.
  - intros [= -> ->]. rewrite (proj2 (token_cmp_eq b b) eq_refl). now apply IH.
Qed.

Lemma tokens_cmp_antisym l1 : forall l2, tokens_cmp l2 l1 = CompOpp (tokens_cmp l1 l2).
Proof.
  induction l1 as [|a l1 IH]; intros [|b l2]; simpl; try reflexivity.
  rewrite (token_cmp_antisym a b). destruct (token_cmp a b); simpl; auto.
Qed.

Lemma tokens_cmp_trans l1 : forall l2 l3,
  tokens_cmp l1 l2 = Lt -> tokens_cmp l2 l3 = Lt -> tokens_cmp l1 l3 = Lt.
Proof.
  induction l1 as [|a l1 IH]; intros [|b l2] [|c l3]; simpl; try congruence.
  destruct (token_cmp a b) eqn:Eab; try discriminate;
    destruct (token_cmp b c) eqn:Ebc; try discriminate; intros H1 H2.
  - apply token_cmp_eq in Eab, Ebc. subst.
    rewrite (proj2 (token_cmp_eq c c) eq_refl). eauto.
  - apply token_cmp_eq in Eab. subst. now rewrite Ebc.
  - apply token_cmp_eq in Ebc. subst. now rewrite Eab.
  - now rewrite (token_cmp_trans _ _ _ Eab Ebc).
Qed.

Lemma key_ltb_irrefl k : key_ltb k k = false.
Proof.
  unfold key_ltb, key_cmp. rewrite Nat.compare_refl.
  now rewrite (proj2 (tokens_cmp_eq (snd k) (snd k)) eq_refl).
Qed.

Lemma key_ltb_asym k1 k2 : key_ltb k1 k2 = true -> key_ltb k2 k1 = false.
Proof.
  unfold key_ltb, key_cmp. rewrite (Nat.compare_antisym (fst k1) (fst k2)).
  rewrite (tokens_cmp_antisym (snd k1) (snd k2)).
  destruct (fst k1 ?= fst k2)%nat; simpl; try congruence.
  destruct (tokens_cmp (snd k1) (snd k2)); simpl; congruence.
Qed.

Lemma key_ltb_trans k1 k2 k3 :
  key_ltb k1 k2 = true -> key_ltb k2 k3 = true -> key_ltb k1 k3 = true.
Proof.
  unfold key_ltb, key_cmp.
  destruct (fst k1 ?= fst k2)%nat eqn:E12; try discriminate;
    destruct (fst k2 ?= fst k3)%nat eqn:E23; try discriminate; intros H1 H2.
  - apply Nat.compare_eq in E12, E23. rewrite E12, E23, Nat.compare_refl.
    destruct (tokens_cmp (snd k1) (snd k2)) eqn:T12; try discriminate.
    destruct (tokens_cmp (snd k2) (snd k3)) eqn:T23; try discriminate.
    now rewrite (tokens_cmp_trans _ _ _ T12 T23).
  - apply Nat.compare_eq in E12. now rewrite E12, E23.
  - apply Nat.compare_eq in E23. now rewrite <- E23, E12.
  - apply Nat.compare_lt_iff in E12, E23.
    assert (E : (fst k1 ?= fst k3)%nat = Lt) by (apply Nat.compare_lt_iff; lia).
    now rewrite E.
Qed.

Lemma token_eqb_eq a b : token_eqb a b = true <-> a = b.
Proof.
  destruct a as [x|x], b as [y|y]; simpl; split; try congruence.
  - intros H. apply Z.eqb_eq in H. congruence.
  - intros [= ->]. apply Z.eqb_refl.
  - intros H. apply String.eqb_eq in H. congruence.
  - intros [= ->]. apply String.eqb_refl.
Qed.

Lemma list_eqb_eq l1 : forall l2, list_eqb l1 l2 = true <-> l1 = l2.
Proof.
  induction l1 as [|a l1 IH]; intros [|b l2]; simpl; split; try congruence.
  - intros H. apply andb_prop in H as [H1 H2].
    apply token_eqb_eq in H1. apply IH in H2. congruence.
  - intros [= -> ->]. apply andb_true_intro. split; [now apply token_eqb_eq | now apply IH].
Qed.

Lemma key_eqb_eq k1 k2 : key_eqb k1 k2 = true <-> k1 = k2.
Proof.
  destruct k1 as [n1 l1], k2 as [n2 l2]. unfold key_eqb. simpl. split.
  - intros H. apply andb_prop in H as [H1 H2].
    apply Nat.eqb_eq in H1. apply list_eqb_eq in H2. congruence.
  - intros [= -> ->]. apply andb_true_intro. split; [apply Nat.eqb_refl | now apply list_eqb_eq].
Qed.

(** On comparable lists Python's [<] does not raise and is the total
    comparison. *)
Lemma list_lt_comparable l1 : forall l2,
  Spec.comparable l1 l2 = true ->
  list_lt l1 l2 = Some (match tokens_cmp l1 l2 with Lt => true | _ => false end).
Proof.
  induction l1 as [|a l1 IH]; intros [|b l2] Hc; simpl in *; try reflexivity.
  apply andb_prop in Hc as [Hk Hc].
  destruct (token_eqb a b) eqn:E.
  - apply token_eqb_eq in E. subst b.
    rewrite (proj2 (token_cmp_eq a a) eq_refl). now apply IH.
  - assert (Hne : token_cmp a b <> Eq).
    { intros H. apply token_cmp_eq in H. subst b.
      rewrite (proj2 (token_eqb_eq a a) eq_refl) in E. discriminate. }
    destruct a as [x|x], b as [y|y]; simpl in *; try discriminate.
    + unfold Z.ltb. destruct (x ?= y)%Z; congruence.
    + unfold String.ltb. destruct (String.compare x y); congruence.
Qed.

Lemma key_lt_comparable k1 k2 :
  Spec.comparable (snd k1) (snd k2) = true ->
  key_lt k1 k2 = Some (key_ltb k1 k2).
Proof.
  intros Hc. unfold key_lt, key_ltb, key_cmp.
  destruct (Nat.eqb_spec (fst k1) (fst k2)) as [E|E]; simpl.
  - rewrite E, Nat.compare_refl.
    destruct (list_eqb (snd k1) (snd k2)) eqn:El.
    + apply list_eqb_eq in El. rewrite El.
      now rewrite (proj2 (tokens_cmp_eq (snd k2) (snd k2)) eq_refl).
    + now apply list_lt_comparable.
  - destruct (Nat.ltb_spec (fst k1) (fst k2)) as [L|L].
    + apply Nat.compare_lt_iff in L. now rewrite L.
    + assert (G : (fst k1 ?= fst k2)%nat = Gt) by (apply Nat.compare_gt_iff; lia).
      now rewrite G.
Qed.

(** The insertion sort, for a comparison that does not raise on the items at
    hand and is there a strict total order of the keys. *)
Section SortFacts.
Context {A K : Type} (key : A -> K) (lt : K -> K -> option bool).
Variables (ltb eqb : K -> K -> bool).
Hypothesis ltb_irrefl : forall a, ltb a a = false.
Hypothesis ltb_asym : forall a b, ltb a b = true -> ltb b a = false.
Hypothesis ltb_trans : forall a b c, ltb a b = true -> ltb b c = true -> ltb a c = true.
Hypothesis eqb_eq : forall a b, eqb a b = true -> a = b.

Local Abbreviation agrees := (agrees key lt ltb).
Local Abbreviation not_after := (not_after key ltb).
Local Abbreviation same := (same key eqb).

Lemma insert_sorted_spec x l :
  agrees (x :: l) -> StronglySorted not_after l ->
  exists r, insert_sorted key lt x l = Some r
    /\ Permutation r (l ++ [x])
    /\ StronglySorted not_after r
    /\ forall k, List.filter (same k) r = List.filter (same k) l ++ List.filter (same k) [x].
Proof.
  induction l as [|y l IH]; intros Hag Hs.
  - exists [x]. simpl. repeat split; auto. repeat constructor.
  - cbn [insert_sorted]. rewrite (Hag x y) by (simpl; auto).
    apply StronglySorted_inv in Hs as [Hs Hy].
    destruct (ltb (key x) (key y)) eqn:Exy.
    + exists (x :: y :: l). split; [reflexivity|]. split.
      { change (x :: y :: l) with ([x] ++ (y :: l)). apply Permutation_app_comm. }
      split.
      { constructor; [constructor; auto|]. constructor; [now apply ltb_asym|].
        rewrite List.Forall_forall in *. intros z Hz. specialize (Hy z Hz).
        unfold not_after in *. destruct (ltb (key z) (key x)) eqn:Ezx; [|reflexivity].
        rewrite (ltb_trans _ _ _ Ezx Exy) in Hy. discriminate. }
      intros k. change (x :: y :: l) with ([x] ++ (y :: l)). rewrite List.filter_app.
      assert (Hx : List.filter (same k) [x] = if same k x then [x] else [])
        by (simpl; destruct (same k x); reflexivity).
      rewrite Hx. destruct (same k x) eqn:Ex; [|now rewrite app_nil_r].
      assert (Hnone : List.filter (same k) (y :: l) = []).
      { assert (Hall : forall z, In z (y :: l) -> same k z = false).
        { intros z Hz. destruct (same k z) eqn:Ez; [|reflexivity]. exfalso.
          unfold same in *. apply eqb_eq in Ex, Ez.
          assert (Ekey : key z = key x) by congruence.
          destruct Hz as [<-|Hz].
          - rewrite Ekey, ltb_irrefl in Exy. discriminate.
          - rewrite List.Forall_forall in Hy. specialize (Hy z Hz). unfold not_after in Hy.
            rewrite Ekey, Exy in Hy. discriminate. }
        clear -Hall. induction (y :: l) as [|z t IHt]; [reflexivity|].
        simpl. rewrite (Hall z) by (simpl; auto). apply IHt.
        intros z' Hz'. apply Hall. simpl; auto. }
      rewrite Hnone. reflexivity.
    + destruct IH as (r & Hr & Hp & Hsr & Hf); [|exact Hs|].
      { intros a b Ha Hb. apply Hag; simpl in *; tauto. }
      rewrite Hr. exists (y :: r). split; [reflexivity|]. split.
      { simpl. now constructor. }
      split.
      { constructor; [exact Hsr|]. rewrite List.Forall_forall in *. intros z Hz.
        apply (Permutation_in _ Hp) in Hz. apply in_app_or in Hz as [Hz|[<-|[]]].
        - now apply Hy.
        - exact Exy. }
      intros k. simpl. destruct (same k y); simpl; now rewrite Hf.
Qed.

Lemma sort_loop_spec rest : forall acc,
  agrees (acc ++ rest) -> StronglySorted not_after acc ->
  exists r, sort_loop key lt acc rest = Some r
    /\ Permutation r (acc ++ rest)
    /\ StronglySorted not_after r
    /\ forall k, List.filter (same k) r = List.filter (same k) (acc ++ rest).
Proof.
  induction rest as [|x rest IH]; intros acc Hag Hs.
  - exists acc. rewrite app_nil_r. simpl. auto.
  - simpl. destruct (insert_sorted_spec x acc) as (s & Hi & Hp & Hss & Hf); [|exact Hs|].
    { intros a b Ha Hb. apply Hag; apply in_or_app; simpl in *; tauto. }
    rewrite Hi. destruct (IH s) as (r & Hr & Hpr & Hsr & Hfr); [|exact Hss|].
    { intros a b Ha Hb. apply Hag.
      - apply in_app_or in Ha as [Ha|Ha]; [|apply in_or_app; simpl; auto].
        apply (Permutation_in _ Hp) in Ha. apply in_app_or in Ha as [Ha|[<-|[]]];
          apply in_or_app; simpl; auto.
      - apply in_app_or in Hb as [Hb|Hb]; [|apply in_or_app; simpl; auto].
        apply (Permutation_in _ Hp) in Hb. apply in_app_or in Hb as [Hb|[<-|[]]];
          apply in_or_app; simpl; auto. }
    exists r. split; [exact Hr|]. split.
    { rewrite Hpr. change (x :: rest) with ([x] ++ rest). rewrite app_assoc.
      now apply Permutation_app_tail. }
    split; [exact Hsr|].
    intros k. rewrite Hfr, !List.filter_app, Hf. simpl (List.filter (same k) (x :: rest)).
    simpl (List.filter (same k) [x]). destruct (same k x); simpl; now rewrite <- ?app_assoc.
Qed.

Lemma py_sort_spec l :
  agrees l ->
  exists r, py_sort key lt l = Some r
    /\ Permutation r l
    /\ StronglySorted not_after r
    /\ forall k, List.filter (same k) r = List.filter (same k) l.
Proof. intros Hag. apply (sort_loop_spec l []); [exact Hag | constructor]. Qed.
End SortFacts.






(** ** The trace only grows *)

Lemma log_rows_app evs1 evs2 : log_rows (evs1 ++ evs2) = log_rows evs1 ++ log_rows evs2.
Proof. unfold log_rows. apply flat_map_app. Qed.

Lemma extends_with_refl P r : extends_with P r r.
Proof. exists []. now rewrite !app_nil_r. Qed.

Lemma extends_with_trans P r1 r2 r3 :
  extends_with P r1 r2 -> extends_with P r2 r3 -> extends_with P r1 r3.
Proof.
  intros (e1 & Ht1 & Hl1 & Hp1) (e2 & Ht2 & Hl2 & Hp2). exists (e1 ++ e2).
  rewrite Ht2, Ht1, Hl2, Hl1, log_rows_app, <- !app_assoc, forallb_app, Hp1, Hp2. auto.
Qed.

Lemma extends_with_log P m r : P (EvLog m) = true -> extends_with P r (log_message m r).
Proof. intros HP. exists [EvLog m]. simpl. now rewrite HP. Qed.

Lemma extends_with_emit P e r :
  P e = true -> is_log e = false -> extends_with P r (emit e r).
Proof.
  intros HP He. exists [e]. split; [reflexivity|]. simpl. rewrite HP. split; [|reflexivity].
  destruct e; try discriminate; simpl; now rewrite app_nil_r.
Qed.

Lemma extends_with_weaken (P Q : Event -> bool) r r' :
  (forall e, P e = true -> Q e = true) -> extends_with P r r' -> extends_with Q r r'.
Proof.
  intros HPQ (evs & Ht & Hl & Hp). exists evs. repeat split; auto.
  rewrite forallb_forall in *. auto.
Qed.

Lemma extends_of_with P r r' : extends_with P r r' -> extends r r'.
Proof. apply extends_with_weaken. auto. Qed.

Lemma extends_refl r : extends r r.
Proof. apply extends_with_refl. Qed.

Lemma extends_trans r1 r2 r3 : extends r1 r2 -> extends r2 r3 -> extends r1 r3.
Proof. apply extends_with_trans. Qed.

Lemma extends_with_fold_left {A : Type} P (f : Run -> A -> Run) (l : list A) :
  (forall r x, extends_with P r (f r x)) -> forall r, extends_with P r (fold_left f l r).
Proof.
  intros Hf. induction l as [|x l IH]; intros r; simpl; [apply extends_with_refl|].
  eapply extends_with_trans; [apply Hf | apply IH].
Qed.

Lemma extends_with_fold_left_snd {A S : Type} P (f : S * Run -> A -> S * Run) (l : list A) :
  (forall st x, extends_with P (snd st) (snd (f st x))) ->
  forall st, extends_with P (snd st) (snd (fold_left f l st)).
Proof.
  intros Hf. induction l as [|x l IH]; intros st; simpl; [apply extends_with_refl|].
  eapply extends_with_trans; [apply Hf | apply IH].
Qed.

Lemma extends_In e r r' : extends r r' -> In e (trace r) -> In e (trace r').
Proof. intros (evs & Ht & _) H. rewrite Ht. apply in_or_app. now left. Qed.

(** Events of a kind that the continuation does not emit are the same
    before and after. *)
Lemma extends_with_filter (P Q : Event -> bool) r r' :
  (forall e, P e = true -> Q e = false) -> extends_with P r r' ->
  List.filter Q (trace r') = List.filter Q (trace r).
Proof.
  intros HPQ (evs & Ht & _ & Hp). rewrite Ht, List.filter_app.
  assert (E : List.filter Q evs = []).
  { clear Ht. induction evs as [|e evs IH]; [reflexivity|]. simpl in *.
    apply andb_prop in Hp as [He Hp]. rewrite (HPQ e He). auto. }
  rewrite E. apply app_nil_r.
Qed.

Ltac ext :=
  repeat first
    [ apply extends_with_refl
    | match goal with
      | |- extends_with _ _ (log_message _ _) =>
          eapply extends_with_trans; [|apply extends_with_log; reflexivity]
      | |- extends_with _ _ (emit _ _) =>
          eapply extends_with_trans; [|apply extends_with_emit; reflexivity]
      end ].

(** ** Pass 1 *)

Section Pass1Facts.
Variables (w : World) (folder_path : string).

Lemma pass1_step_skipped s r f :
  skipped w folder_path f = true -> pass1_step w folder_path (s, r) f = (s, r).
Proof.
  unfold skipped, pass1_step. intros H.
  destruct (os_path_isdir w (OsPath.join folder_path f)); [reflexivity|].
  simpl in H. now rewrite H.
Qed.

Lemma pass1_step_pdf s r f :
  skipped w folder_path f = false -> is_pdf f = true ->
  pass1_step w folder_path (s, r) f
  = ({| families := setdefault_append (extract_family_key f) f (families s);
        file_path_map := <[f := OsPath.join folder_path f]> (file_path_map s);
        placeholder_files_to_delete := placeholder_files_to_delete s;
        family_had_native_placeholder := family_had_native_placeholder s;
        placeholder_calls := placeholder_calls s |}, r).
Proof.
  unfold skipped, is_pdf, pass1_step. intros H Hp.
  apply orb_false_elim in H as [-> ->].
  destruct (OsPath.splitext f) as [base ext]. simpl in Hp. now rewrite Hp.
Qed.

Lemma pass1_step_native_ok s r f p :
  skipped w folder_path f = false -> is_pdf f = false ->
  truthy_path (create_placeholder_pdf w (placeholder_calls s) (fst (OsPath.splitext f)))
  = Some p ->
  pass1_step w folder_path (s, r) f
  = ({| families := setdefault_append (extract_family_key f) f (families s);
        file_path_map := <[f := p]> (file_path_map s);
        placeholder_files_to_delete := {[p]} ∪ placeholder_files_to_delete s;
        family_had_native_placeholder :=
          <[extract_family_key f := true]> (family_had_native_placeholder s);
        placeholder_calls := S (placeholder_calls s) |},
     placeholder_effects w (placeholder_calls s) (fst (OsPath.splitext f))
       (log_message ("Creating placeholder for native file: " +:+ f) r)).
Proof.
  unfold skipped, is_pdf, pass1_step. intros H Hp Hc.
  apply orb_false_elim in H as [-> ->].
  destruct (OsPath.splitext f) as [base ext]. simpl in Hp, Hc. now rewrite Hp, Hc.
Qed.

Lemma pass1_step_native_fail s r f :
  skipped w folder_path f = false -> is_pdf f = false ->
  truthy_path (create_placeholder_pdf w (placeholder_calls s) (fst (OsPath.splitext f)))
  = None ->
  pass1_step w folder_path (s, r) f
  = ({| families := families_remove (extract_family_key f) f
                      (setdefault_append (extract_family_key f) f (families s));
        file_path_map := file_path_map s;
        placeholder_files_to_delete := placeholder_files_to_delete s;
        family_had_native_placeholder := family_had_native_placeholder s;
        placeholder_calls := S (placeholder_calls s) |},
     log_message ("ERROR: Failed to create placeholder for " +:+ f
                  +:+ ". It will be skipped.")
       (placeholder_effects w (placeholder_calls s) (fst (OsPath.splitext f))
          (log_message ("Creating placeholder for native file: " +:+ f) r))).
Proof.
  unfold skipped, is_pdf, pass1_step. intros H Hp Hc.
  apply orb_false_elim in H as [-> ->].
  destruct (OsPath.splitext f) as [base ext]. simpl in Hp, Hc. now rewrite Hp, Hc.
Qed.

(** The four cases of the body of the loop. *)
Ltac step_cases s r f :=
  let Hs := fresh "Hskip" in
  let Hp := fresh "Hpdf" in
  let Hc := fresh "Hsynth" in
  let p := fresh "p" in
  destruct (skipped w folder_path f) eqn:Hs;
  [ rewrite (pass1_step_skipped s r f Hs)
  | destruct (is_pdf f) eqn:Hp;
    [ rewrite (pass1_step_pdf s r f Hs Hp)
    | destruct (truthy_path (create_placeholder_pdf w (placeholder_calls s)
                               (fst (OsPath.splitext f)))) as [p|] eqn:Hc;
      [ rewrite (pass1_step_native_ok s r f p Hs Hp Hc)
      | rewrite (pass1_step_native_fail s r f Hs Hp Hc) ] ] ].

Lemma placeholder_effects_extends call label r :
  extends_with pass1_event r (placeholder_effects w call label r).
Proof.
  unfold placeholder_effects.
  generalize (snd (create_placeholder_pdf_steps (provider w call) label)). intros pes.
  exists (map EvProvider pes). cbn [trace local_log_entries]. split; [reflexivity|]. split.
  - induction pes as [|pe pes IH]; simpl; [now rewrite app_nil_r | exact IH].
  - induction pes as [|pe pes IH]; [reflexivity | exact IH].
Qed.

(** Pass 1 logs, and [create_placeholder_pdf] prints and deletes. *)
Lemma pass1_step_extends st f :
  extends_with pass1_event (snd st) (snd (pass1_step w folder_path st f)).
Proof.
  destruct st as [s r]. step_cases s r f; cbn [snd]; ext;
    (eapply extends_with_trans; [|apply placeholder_effects_extends]); ext.
Qed.

Lemma pass1_loop_extends l st :
  extends_with pass1_event (snd st) (snd (pass1_loop w folder_path l st)).
Proof. apply extends_with_fold_left_snd. apply pass1_step_extends. Qed.

(** The locals do not depend on the log. *)
Lemma pass1_step_fst s r r' f :
  fst (pass1_step w folder_path (s, r) f) = fst (pass1_step w folder_path (s, r') f).
Proof.
  destruct (skipped w folder_path f) eqn:Hs;
    [rewrite !pass1_step_skipped by exact Hs; reflexivity|].
  destruct (is_pdf f) eqn:Hp; [rewrite !pass1_step_pdf by assumption; reflexivity|].
  destruct (truthy_path (create_placeholder_pdf w (placeholder_calls s)
                           (fst (OsPath.splitext f)))) as [p|] eqn:Hc.
  - rewrite !(pass1_step_native_ok _ _ _ p Hs Hp Hc). reflexivity.
  - rewrite !(pass1_step_native_fail _ _ _ Hs Hp Hc). reflexivity.
Qed.

Lemma pass1_loop_fst l : forall s r r',
  fst (pass1_loop w folder_path l (s, r)) = fst (pass1_loop w folder_path l (s, r')).
Proof.
  induction l as [|f l IH]; intros s r r'; [reflexivity|].
  unfold pass1_loop in *. cbn [fold_left].
  pose proof (pass1_step_fst s r r' f) as H.
  destruct (pass1_step w folder_path (s, r) f) as [s1 r1].
  destruct (pass1_step w folder_path (s, r') f) as [s2 r2]. simpl in H. subst s2.
  apply IH.
Qed.

Lemma pass1_loop_snoc l f st :
  pass1_loop w folder_path (l ++ [f]) st
  = pass1_step w folder_path (pass1_loop w folder_path l st) f.
Proof. unfold pass1_loop. now rewrite fold_left_app. Qed.

Lemma pass1_loop_app l1 l2 st :
  pass1_loop w folder_path (l1 ++ l2) st
  = pass1_loop w folder_path l2 (pass1_loop w folder_path l1 st).
Proof. unfold pass1_loop. now rewrite fold_left_app. Qed.

Lemma pass1_loop_state l r :
  fst (pass1_loop w folder_path l (pass1_init, r)) = pass1_state w folder_path l.
Proof. apply pass1_loop_fst. Qed.

(** The locals after one more entry. *)
Lemma pass1_state_snoc l f :
  pass1_state w folder_path (l ++ [f])
  = fst (pass1_step w folder_path (pass1_state w folder_path l, run0) f).
Proof.
  unfold pass1_state. rewrite pass1_loop_snoc.
  destruct (pass1_loop w folder_path l (pass1_init, run0)) as [s r]. simpl.
  apply pass1_step_fst.
Qed.
End Pass1Facts.

Lemma occurs_nil P : ~ occurs P [].
Proof. intros (pre & f & post & H & _). destruct pre; discriminate. Qed.

Lemma occurs_snoc P l f : occurs P (l ++ [f]) <-> occurs P l \/ P l f.
Proof.
  split.
  - intros (pre & g & post & H & HP).
    destruct post as [|x post _] using rev_ind.
    + apply app_inj_tail in H as [-> ->]. now right.
    + change (g :: post ++ [x]) with ((g :: post) ++ [x]) in H.
      rewrite app_assoc in H. apply app_inj_tail in H as [-> ->].
      left. now exists pre, g, post.
  - intros [(pre & g & post & -> & HP)|HP].
    + exists pre, g, (post ++ [f]). split; [|exact HP]. now rewrite <- app_assoc.
    + now exists l, f, [].
Qed.

Lemma families_get_setdefault_append k k' f fs :
  families_get k' (setdefault_append k f fs)
  = if String.eqb k k' then Some (default [] (families_get k fs) ++ [f])
    else families_get k' fs.
Proof.
  induction fs as [|[k0 l0] fs IH]; simpl.
  - now destruct (String.eqb k k').
  - destruct (String.eqb_spec k0 k) as [->|Hne]; simpl.
    + now destruct (String.eqb k k').
    + rewrite IH. destruct (String.eqb_spec k0 k') as [->|Hne']; [|reflexivity].
      destruct (String.eqb_spec k k'); [congruence | reflexivity].
Qed.

Lemma families_get_remove k k' f fs :
  families_get k' (families_remove k f fs)
  = if String.eqb k k' then option_map (list_remove f) (families_get k fs)
    else families_get k' fs.
Proof.
  induction fs as [|[k0 l0] fs IH]; simpl.
  - now destruct (String.eqb k k').
  - destruct (String.eqb_spec k0 k) as [->|Hne]; simpl.
    + now destruct (String.eqb k k').
    + rewrite IH. destruct (String.eqb_spec k0 k') as [->|Hne']; [|reflexivity].
      destruct (String.eqb_spec k k'); [congruence | reflexivity].
Qed.

Lemma list_remove_snoc f m : ~ In f m -> list_remove f (m ++ [f]) = m.
Proof.
  induction m as [|y m IH]; simpl; intros H.
  - now rewrite String.eqb_refl.
  - destruct (String.eqb_spec y f) as [->|Hne]; [tauto|]. rewrite IH; tauto.
Qed.

Section Pass1Invariants.
Variables (w : World) (folder_path : string).

Local Abbreviation S1 := (pass1_state w folder_path).

Lemma pass1_state_nil : S1 [] = pass1_init.
Proof. reflexivity. Qed.

Lemma is_native_skipped f : skipped w folder_path f = true -> is_native w folder_path f = false.
Proof. unfold is_native. now intros ->. Qed.

Lemma is_native_pdf f : is_pdf f = true -> is_native w folder_path f = false.
Proof. unfold is_native. intros ->. apply andb_false_r. Qed.

Lemma is_native_true f :
  skipped w folder_path f = false -> is_pdf f = false -> is_native w folder_path f = true.
Proof. unfold is_native. now intros -> ->. Qed.

Lemma synth_ok_some l f p :
  truthy_path (create_placeholder_pdf w (placeholder_calls (S1 l)) (fst (OsPath.splitext f)))
  = Some p -> synth_ok w folder_path l f = true.
Proof. unfold synth_ok, placeholder_ok. now intros ->. Qed.

Lemma synth_ok_none l f :
  truthy_path (create_placeholder_pdf w (placeholder_calls (S1 l)) (fst (OsPath.splitext f)))
  = None -> synth_ok w folder_path l f = false.
Proof. unfold synth_ok, placeholder_ok. now intros ->. Qed.

(** The state after one more entry, in the four cases. *)
Lemma pass1_snoc_cases l f :
  (skipped w folder_path f = true /\ S1 (l ++ [f]) = S1 l)
  \/ (skipped w folder_path f = false /\ is_pdf f = true
      /\ S1 (l ++ [f])
         = {| families := setdefault_append (extract_family_key f) f (families (S1 l));
              file_path_map := <[f := OsPath.join folder_path f]> (file_path_map (S1 l));
              placeholder_files_to_delete := placeholder_files_to_delete (S1 l);
              family_had_native_placeholder := family_had_native_placeholder (S1 l);
              placeholder_calls := placeholder_calls (S1 l) |})
  \/ (exists p, is_native w folder_path f = true /\ skipped w folder_path f = false
      /\ truthy_path (create_placeholder_pdf w (placeholder_calls (S1 l))
                        (fst (OsPath.splitext f))) = Some p
      /\ synth_ok w folder_path l f = true
      /\ S1 (l ++ [f])
         = {| families := setdefault_append (extract_family_key f) f (families (S1 l));
              file_path_map := <[f := p]> (file_path_map (S1 l));
              placeholder_files_to_delete := {[p]} ∪ placeholder_files_to_delete (S1 l);
              family_had_native_placeholder :=
                <[extract_family_key f := true]> (family_had_native_placeholder (S1 l));
              placeholder_calls := S (placeholder_calls (S1 l)) |})
  \/ (is_native w folder_path f = true /\ skipped w folder_path f = false
      /\ synth_ok w folder_path l f = false
      /\ S1 (l ++ [f])
         = {| families := families_remove (extract_family_key f) f
                            (setdefault_append (extract_family_key f) f (families (S1 l)));
              file_path_map := file_path_map (S1 l);
              placeholder_files_to_delete := placeholder_files_to_delete (S1 l);
              family_had_native_placeholder := family_had_native_placeholder (S1 l);
              placeholder_calls := S (placeholder_calls (S1 l)) |}).
Proof.
  rewrite pass1_state_snoc.
  destruct (skipped w folder_path f) eqn:Hs.
  { left. now rewrite pass1_step_skipped. }
  destruct (is_pdf f) eqn:Hp.
  { right; left. now rewrite pass1_step_pdf. }
  destruct (truthy_path (create_placeholder_pdf w (placeholder_calls (S1 l))
                           (fst (OsPath.splitext f)))) as [p|] eqn:Hc.
  - right; right; left. exists p. rewrite (pass1_step_native_ok _ _ _ _ _ p Hs Hp Hc).
    repeat split; eauto using is_native_true, synth_ok_some.
  - right; right; right. rewrite (pass1_step_native_fail _ _ _ _ _ Hs Hp Hc).
    repeat split; eauto using is_native_true, synth_ok_none.
Qed.

(** One call of the placeholder provider for each native entry. *)
Lemma pass1_calls l :
  placeholder_calls (S1 l) = length (List.filter (is_native w folder_path) l).
Proof.
  induction l as [|f l IH] using rev_ind; [reflexivity|].
  rewrite List.filter_app, List.length_app. simpl.
  destruct (pass1_snoc_cases l f)
    as [(Hs & ->)|[(Hs & Hp & ->)|[(p & Hn & _ & _ & _ & ->)|(Hn & _ & _ & ->)]]]; simpl.
  - rewrite (is_native_skipped _ Hs). simpl. lia.
  - rewrite (is_native_pdf _ Hp). simpl. lia.
  - rewrite Hn. simpl. lia.
  - rewrite Hn. simpl. lia.
Qed.

(** The flag of a family is set exactly by a successful synthesis for one
    of its native entries. *)
Lemma pass1_native_flag l k :
  native_flag (S1 l) k = true
  <-> occurs (fun pre f => is_native w folder_path f = true
                           /\ extract_family_key f = k
                           /\ synth_ok w folder_path pre f = true) l.
Proof.
  induction l as [|f l IH] using rev_ind.
  - split; [discriminate|]. intros H. now apply occurs_nil in H.
  - rewrite occurs_snoc, <- IH. unfold native_flag.
    destruct (pass1_snoc_cases l f)
      as [(Hs & ->)|[(Hs & Hp & ->)|[(p & Hn & _ & _ & Hok & ->)|(Hn & _ & Hok & ->)]]]; simpl.
    + rewrite (is_native_skipped _ Hs). intuition discriminate.
    + rewrite (is_native_pdf _ Hp). intuition discriminate.
    + rewrite lookup_insert. destruct (decide (extract_family_key f = k)); simpl.
      * intuition.
      * intuition.
    + rewrite Hok. intuition discriminate.
Qed.

(** A name is resolved exactly when one of its entries is a PDF or got
    its placeholder. *)
Lemma pass1_resolved l g :
  resolved (S1 l) g = true
  <-> occurs (fun pre f => f = g /\ skipped w folder_path f = false
                           /\ (is_pdf f = true \/ synth_ok w folder_path pre f = true)) l.
Proof.
  unfold resolved. rewrite bool_decide_eq_true.
  induction l as [|f l IH] using rev_ind.
  - split; [|intros H; now apply occurs_nil in H].
    rewrite pass1_state_nil. simpl. rewrite lookup_empty. intros [x Hx]. discriminate.
  - rewrite occurs_snoc, <- IH.
    destruct (pass1_snoc_cases l f)
      as [(Hs & ->)|[(Hs & Hp & ->)|[(p & Hn & Hs & _ & Hok & ->)|(Hn & Hs & Hok & ->)]]]; simpl.
    + rewrite Hs. intuition discriminate.
    + rewrite lookup_insert. destruct (decide (f = g)) as [->|Hne]; simpl.
      * split; [intros _; right; auto | eauto].
      * intuition.
    + rewrite lookup_insert. destruct (decide (f = g)) as [->|Hne]; simpl.
      * split; [intros _; right; auto | eauto].
      * intuition.
    + rewrite Hok. unfold is_native in Hn. rewrite Hs in Hn. simpl in Hn.
      apply negb_true_iff in Hn. rewrite Hn. intuition discriminate.
Qed.

Lemma pass1_resolved_In l g : resolved (S1 l) g = true -> In g l.
Proof.
  intros H. apply pass1_resolved in H as (pre & f & post & -> & -> & _).
  apply in_or_app. right. now left.
Qed.
End Pass1Invariants.

Section Pass1Members.
Variables (w : World) (folder_path : string).

Local Abbreviation S1 := (pass1_state w folder_path).

Local Abbreviation mpred := (member_pred w folder_path).

Lemma is_native_inv f :
  is_native w folder_path f = true -> skipped w folder_path f = false /\ is_pdf f = false.
Proof.
  unfold is_native. intros H. apply andb_prop in H as [H1 H2].
  now apply negb_true_iff in H1, H2.
Qed.

Lemma synth_ok_false l f :
  synth_ok w folder_path l f = false ->
  truthy_path (create_placeholder_pdf w (placeholder_calls (S1 l)) (fst (OsPath.splitext f)))
  = None.
Proof.
  unfold synth_ok, placeholder_ok.
  destruct (truthy_path _); [discriminate | reflexivity].
Qed.

(** In a listing without repeated names, the member list of a family is
    made of its resolved entries, in the order of the listing. *)
Lemma pass1_members l k :
  List.NoDup l -> members_of (S1 l) k = List.filter (mpred (S1 l) k) l.
Proof.
  induction l as [|f l IH] using rev_ind; intros Hnd; [reflexivity|].
  pose proof (List.NoDup_remove_1 _ _ _ Hnd) as Hnd'. rewrite app_nil_r in Hnd'.
  pose proof (List.NoDup_remove_2 _ _ _ Hnd) as Hnotin. rewrite app_nil_r in Hnotin.
  specialize (IH Hnd'). rewrite List.filter_app.
  assert (Hsub : forall g, In g (members_of (S1 l) k) -> In g l).
  { intros g Hg. rewrite IH in Hg. now apply List.filter_In in Hg as [Hg _]. }
  assert (Hunres : resolved (S1 l) f = false).
  { destruct (resolved (S1 l) f) eqn:E; [|reflexivity].
    apply pass1_resolved_In in E. tauto. }
  assert (Hext : forall s', (forall g, g <> f -> resolved s' g = resolved (S1 l) g) ->
            List.filter (mpred s' k) l = List.filter (mpred (S1 l) k) l).
  { intros s' Hs'. apply List.filter_ext_in. intros g Hg. unfold member_pred.
    rewrite Hs'; [reflexivity|]. intros ->. tauto. }
  unfold members_of in *.
  destruct (pass1_snoc_cases w folder_path l f)
    as [(Hs & ->)|[(Hs & Hp & ->)|[(p & Hn & Hs & _ & Hok & ->)|(Hn & Hs & Hok & ->)]]].
  - rewrite <- IH. simpl. unfold member_pred at 1. rewrite Hs. simpl. now rewrite app_nil_r.
  - cbn [families]. rewrite families_get_setdefault_append, Hext.
    2:{ intros g Hg. unfold resolved. simpl. now rewrite lookup_insert_ne. }
    rewrite <- IH. simpl. unfold member_pred, resolved. simpl.
    rewrite Hs, lookup_insert_eq. simpl.
    destruct (String.eqb_spec (extract_family_key f) k) as [->|Hne]; simpl.
    + reflexivity.
    + now rewrite app_nil_r.
  - cbn [families]. rewrite families_get_setdefault_append, Hext.
    2:{ intros g Hg. unfold resolved. simpl. now rewrite lookup_insert_ne. }
    rewrite <- IH. simpl. unfold member_pred, resolved. simpl.
    rewrite Hs, lookup_insert_eq. simpl.
    destruct (String.eqb_spec (extract_family_key f) k) as [->|Hne]; simpl.
    + reflexivity.
    + now rewrite app_nil_r.
  - cbn [families]. rewrite families_get_remove, !families_get_setdefault_append, Hext.
    2:{ intros g Hg. reflexivity. }
    rewrite String.eqb_refl. rewrite <- IH. simpl.
    assert (Hf : mpred
                   {| families := families_remove (extract_family_key f) f
                        (setdefault_append (extract_family_key f) f (families (S1 l)));
                      file_path_map := file_path_map (S1 l);
                      placeholder_files_to_delete := placeholder_files_to_delete (S1 l);
                      family_had_native_placeholder := family_had_native_placeholder (S1 l);
                      placeholder_calls := S (placeholder_calls (S1 l)) |} k f = false).
    { unfold member_pred. change (resolved _ f) with (resolved (S1 l) f).
      rewrite Hunres. apply andb_false_r. }
    rewrite Hf, app_nil_r.
    destruct (String.eqb_spec (extract_family_key f) k) as [->|Hne]; simpl; [|reflexivity].
    rewrite list_remove_snoc; [reflexivity|]. intros Hin. apply Hnotin, Hsub, Hin.
Qed.

(** Every member of a family is resolved: the filter of Pass 2 keeps all of
    them. *)
Lemma pass1_valid_files l k :
  List.NoDup l ->
  valid_files (file_path_map (S1 l)) (members_of (S1 l) k)
  = List.filter (mpred (S1 l) k) l.
Proof.
  intros Hnd. rewrite (pass1_members l k Hnd). unfold valid_files.
  generalize (S1 l). intros s.
  induction l as [|x t IHt]; [reflexivity|].
  simpl. destruct (mpred s k x) eqn:E; simpl; [|apply IHt; now inversion Hnd].
  unfold member_pred in E. apply andb_prop in E as [_ E]. unfold resolved in E.
  rewrite E. rewrite IHt; [reflexivity | now inversion Hnd].
Qed.
End Pass1Members.

Lemma any_values_true (m : gmap string bool) :
  any_values m = true <-> exists k, m !! k = Some true.
Proof.
  unfold any_values. rewrite existsb_exists. split.
  - intros ([k v] & Hin & Hv). simpl in Hv. subst v. exists k.
    apply elem_of_map_to_list. now apply list_elem_of_In.
  - intros (k & Hk). exists (k, true). split; [|reflexivity].
    apply list_elem_of_In. now apply elem_of_map_to_list.
Qed.

(** C10: the native flag of a family, as Pass 2 reads it for the family and
    as the QC selection reads it over all families, is true exactly when the
    placeholder synthesis succeeded for at least one non-PDF entry of that
    family during Pass 1 (whatever was logged before). *)
Theorem native_flag_iff_synthesis (w : World) (folder_path : string)
    (listing : list string) (r : Run) (k : string) :
  let p1 := fst (pass1_loop w folder_path listing (pass1_init, r)) in
  (native_flag p1 k = true
   <-> exists pre f post,
         listing = pre ++ f :: post
         /\ is_native w folder_path f = true
         /\ extract_family_key f = k
         /\ synth_ok w folder_path pre f = true)
  /\ (any_values (family_had_native_placeholder p1) = true
      <-> exists pre f post,
            listing = pre ++ f :: post
            /\ is_native w folder_path f = true
            /\ synth_ok w folder_path pre f = true).
Proof.
  intros p1. unfold p1. rewrite pass1_loop_state. split; [apply pass1_native_flag|].
  rewrite any_values_true. split.
  - intros (k' & Hk).
    destruct (proj1 (pass1_native_flag w folder_path listing k'))
      as (pre & f & post & Heq & Hn & _ & Hok).
    { unfold native_flag. now rewrite Hk. }
    exists pre, f, post. auto.
  - intros (pre & f & post & Heq & Hn & Hok).
    exists (extract_family_key f).
    assert (H : native_flag (pass1_state w folder_path listing) (extract_family_key f) = true).
    { apply pass1_native_flag. exists pre, f, post. auto. }
    unfold native_flag in H.
    destruct (family_had_native_placeholder (pass1_state w folder_path listing)
                !! extract_family_key f) as [[|]|]; simpl in H; congruence.
Qed.

(** Pass 1 when the synthesis fails for the non-PDF entry [f] of a listing
    without repeated names: the failure is logged; [f] is in no member list
    and has no resolved path; the provider was called once per native entry;
    and every other entry of the listing that is a PDF or got its
    placeholder is in the list that Pass 2 takes for its family, in the
    order of the listing. *)
Lemma failed_placeholder_pass1 (w : World) (folder_path : string)
    (pre : list string) (f : string) (post : list string) (r : Run) :
  List.NoDup (pre ++ f :: post) ->
  is_native w folder_path f = true ->
  synth_ok w folder_path pre f = false ->
  let listing := pre ++ f :: post in
  let p1 := fst (pass1_loop w folder_path listing (pass1_init, r)) in
  let r1 := snd (pass1_loop w folder_path listing (pass1_init, r)) in
  In (EvLog ("ERROR: Failed to create placeholder for " +:+ f +:+ ". It will be skipped."))
     (trace r1)
  /\ (forall k, ~ In f (members_of p1 k))
  /\ file_path_map p1 !! f = None
  /\ (forall k, ~ In f (valid_files (file_path_map p1) (members_of p1 k)))
  /\ placeholder_calls p1 = length (List.filter (is_native w folder_path) listing)
  /\ (forall k, valid_files (file_path_map p1) (members_of p1 k)
               = List.filter (member_pred w folder_path p1 k) listing)
  /\ (forall pre' g post', listing = pre' ++ g :: post' ->
        skipped w folder_path g = false ->
        is_pdf g = true \/ synth_ok w folder_path pre' g = true ->
        In g (valid_files (file_path_map p1) (members_of p1 (extract_family_key g)))).
Proof.
  intros Hnd Hn Hfail listing p1 r1.
  assert (Hp1 : p1 = pass1_state w folder_path listing) by apply pass1_loop_state.
  assert (Hunres : resolved p1 f = false).
  { destruct (resolved p1 f) eqn:E; [|reflexivity]. exfalso.
    rewrite Hp1 in E. apply pass1_resolved in E as (pre' & g & post' & Heq & -> & Hs & Hok).
    assert (pre' = pre).
    { clear -Hnd Heq. unfold listing in Heq. revert pre' Heq Hnd.
      induction pre as [|x pre IH]; intros [|y pre'] Heq Hnd; simpl in *.
      - reflexivity.
      - injection Heq as -> Heq. inversion Hnd as [|? ? Hnotin _]. subst.
        exfalso. apply Hnotin. apply in_or_app. right. now left.
      - injection Heq as -> Heq. inversion Hnd as [|? ? Hnotin _]. subst.
        exfalso. apply Hnotin. apply in_or_app. right. now left.
      - injection Heq as -> Heq. f_equal. apply IH; [exact Heq | now inversion Hnd]. }
    subst pre'. apply is_native_inv in Hn as [_ Hpdf]. rewrite Hpdf, Hfail in Hok.
    destruct Hok; discriminate. }
  assert (Hvalid : forall k, valid_files (file_path_map p1) (members_of p1 k)
                             = List.filter (member_pred w folder_path p1 k) listing).
  { intros k. rewrite Hp1. now apply pass1_valid_files. }
  assert (Hmem : forall k, members_of p1 k = List.filter (member_pred w folder_path p1 k) listing).
  { intros k. rewrite Hp1. now apply pass1_members. }
  assert (Hpred : forall k, member_pred w folder_path p1 k f = false).
  { intros k. unfold member_pred. rewrite Hunres. apply andb_false_r. }
  split.
  { unfold r1, listing. rewrite pass1_loop_app.
    change (f :: post) with ([f] ++ post). rewrite pass1_loop_app.
    eapply extends_In; [eapply extends_of_with, pass1_loop_extends|].
    unfold pass1_loop at 1. cbn [fold_left].
    pose proof (pass1_loop_state w folder_path pre r) as Hpre.
    destruct (pass1_loop w folder_path pre (pass1_init, r)) as [s0 r0]. simpl in Hpre. subst s0.
    apply is_native_inv in Hn as [Hs Hpdf].
    rewrite (pass1_step_native_fail _ _ _ _ _ Hs Hpdf (synth_ok_false _ _ _ _ Hfail)).
    simpl. apply in_or_app. right. now left. }
  split.
  { intros k Hin. rewrite Hmem in Hin. apply List.filter_In in Hin as [_ Hin].
    rewrite Hpred in Hin. discriminate. }
  split.
  { unfold resolved in Hunres. apply bool_decide_eq_false in Hunres.
    destruct (file_path_map p1 !! f) eqn:E; [|reflexivity]. exfalso. apply Hunres. eauto. }
  split.
  { intros k Hin. rewrite Hvalid in Hin. apply List.filter_In in Hin as [_ Hin].
    rewrite Hpred in Hin. discriminate. }
  split.
  { rewrite Hp1. apply pass1_calls. }
  split; [exact Hvalid|].
  intros pre' g post' Heq Hs Hok. rewrite Hvalid. apply List.filter_In. split.
  { rewrite Heq. apply in_or_app. right. now left. }
  unfold member_pred. rewrite Hs, String.eqb_refl. simpl.
  rewrite Hp1. apply pass1_resolved. exists pre', g, post'. auto.
Qed.

(** ** Pass 2 *)

Arguments pass1_step : simpl never.
Arguments merge_family : simpl never.

Section Pass2Facts.
Variables (w : World) (mp : string) (p1 : Pass1) (total : nat).

Lemma add_member_extends fpm acc f :
  extends_with is_log (snd acc) (snd (add_member w fpm acc f)).
Proof.
  destruct acc as [m r]. unfold add_member.
  destruct (truthy_path (fpm !! f)) as [path|]; [|simpl; ext].
  destruct (exists_pass2 w path); simpl; [|ext].
  destruct (pdf_open w path) as [e|e|[|pg pages]]; simpl; ext.
Qed.

Lemma merge_members_extends fpm l r :
  extends_with is_log r (snd (merge_members w fpm l r)).
Proof.
  unfold merge_members.
  apply (extends_with_fold_left_snd is_log (add_member w fpm) l (add_member_extends fpm)
           ({| final_merged_pdf := []; files_successfully_added_to_merger := 0%nat |}, r)).
Qed.

(** The document does not depend on the log. *)
Lemma add_member_fst fpm m r r' f :
  fst (add_member w fpm (m, r) f) = fst (add_member w fpm (m, r') f).
Proof.
  unfold add_member.
  destruct (truthy_path (fpm !! f)) as [path|]; [|reflexivity].
  destruct (exists_pass2 w path); [|reflexivity].
  destruct (pdf_open w path) as [e|e|[|pg pages]]; reflexivity.
Qed.

Lemma fold_add_member_fst fpm l : forall m r r',
  fst (fold_left (add_member w fpm) l (m, r)) = fst (fold_left (add_member w fpm) l (m, r')).
Proof.
  induction l as [|f l IH]; intros m r r'; [reflexivity|]. cbn [fold_left].
  pose proof (add_member_fst fpm m r r' f) as H.
  destruct (add_member w fpm (m, r) f) as [m1 r1].
  destruct (add_member w fpm (m, r') f) as [m2 r2]. simpl in H. subst m2. apply IH.
Qed.

Lemma merge_members_fst fpm l r : fst (merge_members w fpm l r) = appended w fpm l.
Proof. apply fold_add_member_fst. Qed.

Lemma family_done_extends st r : extends_with pass2_event r (snd (family_done total st r)).
Proof. unfold family_done. simpl. ext. Qed.

(** The three ways through the body of the loop. *)
Lemma merge_family_empty k members st r :
  valid_files (file_path_map p1) members = [] ->
  merge_family w mp p1 total k members st r
  = (Returned (fst (family_done total st r)),
     snd (family_done total st
            (log_message ("No valid files to merge for family " +:+ k +:+ ". Skipping.") r))).
Proof. unfold merge_family. intros ->. reflexivity. Qed.

Lemma merge_family_raised k members st r :
  valid_files (file_path_map p1) members <> [] ->
  sort_family (valid_files (file_path_map p1) members) = None ->
  merge_family w mp p1 total k members st r = (Raised "TypeError", r).
Proof.
  unfold merge_family. intros Hne ->.
  destruct (valid_files (file_path_map p1) members); [congruence | reflexivity].
Qed.

Lemma sort_family_nil : sort_family [] = Some [].
Proof. reflexivity. Qed.

Lemma merge_family_returned k members st r :
  (exists st' r', merge_family w mp p1 total k members st r = (Returned st', r'))
  <-> exists sorted, sort_family (valid_files (file_path_map p1) members) = Some sorted.
Proof.
  destruct (valid_files (file_path_map p1) members) as [|x v] eqn:Ev.
  - rewrite merge_family_empty by exact Ev. split; eauto.
  - destruct (sort_family (x :: v)) as [sorted|] eqn:Es.
    + split; [eauto|]. intros _. unfold merge_family. rewrite Ev, Es.
      destruct (merge_members w (file_path_map p1) sorted _) as [m r1].
      destruct (0 <? files_successfully_added_to_merger m)%nat;
        [destruct (pdf_save w _ _)|]; simpl; eauto.
    + rewrite merge_family_raised by (rewrite Ev; congruence).
      split; [intros (? & ? & [=]) | intros (? & [=])].
Qed.

Lemma merge_family_extends k members st r :
  extends_with pass2_event r (snd (merge_family w mp p1 total k members st r)).
Proof.
  unfold merge_family.
  destruct (valid_files (file_path_map p1) members) as [|x v]; [simpl; ext|].
  destruct (sort_family (x :: v)) as [sorted|]; [|simpl; ext].
  match goal with |- context [merge_members w ?fpm ?l ?r0] =>
    pose proof (merge_members_extends fpm l r0) as Hm;
    destruct (merge_members w fpm l r0) as [m r1] end.
  simpl in Hm. apply (extends_with_weaken is_log pass2_event) in Hm;
    [|intros e He; unfold pass2_event; now rewrite He].
  eapply extends_with_trans; [eapply extends_with_trans; [|exact Hm]; ext|].
  destruct (0 <? files_successfully_added_to_merger m)%nat;
    [destruct (pdf_save w _ _)|]; simpl; ext.
Qed.

Lemma pass2_loop_extends fs : forall st r,
  extends_with pass2_event r (snd (pass2_loop w mp p1 total fs st r)).
Proof.
  induction fs as [|[k members] fs IH]; intros st r; simpl; [ext|].
  pose proof (merge_family_extends k members st r) as H.
  destruct (merge_family w mp p1 total k members st r) as [[st'|exn] r']; simpl in *.
  - eapply extends_with_trans; [exact H | apply IH].
  - exact H.
Qed.
End Pass2Facts.

Lemma saves_log m r : saves (trace (log_message m r)) = saves (trace r).
Proof. unfold saves. simpl. rewrite List.filter_app. simpl. apply app_nil_r. Qed.

Lemma saves_extends_log r r' : extends_with is_log r r' -> saves (trace r') = saves (trace r).
Proof. apply extends_with_filter. now intros []. Qed.

Section MergeFamily.
Variables (w : World) (mp : string) (p1 : Pass1) (total : nat).

(** What the body of the loop of Pass 2 does for a family whose sort
    returns: the aggregates are updated by the family's result, and the
    saved documents grow by the result's document. *)
Lemma merge_family_sorted k members st r sorted :
  sort_family (valid_files (file_path_map p1) members) = Some sorted ->
  let res := merge_result w mp p1 (k, members) in
  let out := merge_family w mp p1 total k members st r in
  fst out = Returned (fst (family_done total (update_aggregates st res) r))
  /\ saves (trace (snd out))
     = saves (trace r)
       ++ match res with
          | Some m => [EvSave (mr_path m)
                         (final_merged_pdf (appended w (file_path_map p1) sorted))]
          | None => []
          end.
Proof.
  intros Hs res out. subst res out. unfold merge_result. simpl. rewrite Hs.
  destruct (valid_files (file_path_map p1) members) as [|x v] eqn:Ev.
  - rewrite merge_family_empty by exact Ev. vm_compute in Hs. injection Hs as <-.
    split; [reflexivity|]. unfold family_done, saves. simpl.
    rewrite !List.filter_app. simpl. now rewrite !app_nil_r.
  - unfold merge_family. rewrite Ev, Hs.
    match goal with |- context [merge_members w ?fpm ?l ?r0] =>
      pose proof (merge_members_extends w fpm l r0) as Hm;
      pose proof (merge_members_fst w fpm l r0) as Hf;
      destruct (merge_members w fpm l r0) as [m r1] end.
    simpl in Hm, Hf. subst m. apply saves_extends_log in Hm. rewrite saves_log in Hm.
    destruct (0 <? files_successfully_added_to_merger (appended w (file_path_map p1) sorted))%nat;
      simpl.
    + destruct (pdf_save w _ _) as [[]|e]; simpl.
      * split; [reflexivity|]. unfold saves in *. simpl.
        rewrite !List.filter_app, Hm. simpl. now rewrite !app_nil_r.
      * split; [reflexivity|]. unfold saves in *. simpl.
        rewrite !List.filter_app, Hm. simpl. now rewrite !app_nil_r.
    + split; [reflexivity|]. unfold saves in *. simpl.
      rewrite !List.filter_app, Hm. simpl. now rewrite !app_nil_r.
Qed.
End MergeFamily.

(** C3, as the code has it: for a family whose sort returns, a document is
    saved exactly when at least one member was appended and the save itself
    succeeds, and then under "Merged PDFs", named after the base name of the
    first sorted member with the PDF extension; when the save raises, the
    error is logged and nothing is written; when no member was appended,
    nothing is written. *)
Theorem family_output_file (w : World) (folder_path : string) (p1 : Pass1) (total : nat)
    (k : string) (members : list string) (st : Pass2) (r : Run) (sorted : list string) :
  sort_family (valid_files (file_path_map p1) members) = Some sorted ->
  let m := appended w (file_path_map p1) sorted in
  let path := OsPath.join (merged_pdfs_output_path folder_path)
                (fst (OsPath.splitext (hd EmptyString sorted)) +:+ ".pdf") in
  let r' := snd (merge_family w (merged_pdfs_output_path folder_path) p1 total k members st r) in
  ((0 < files_successfully_added_to_merger m)%nat ->
   pdf_save w path (final_merged_pdf m) = Done tt ->
   saves (trace r') = saves (trace r) ++ [EvSave path (final_merged_pdf m)])
  /\ (forall e, (0 < files_successfully_added_to_merger m)%nat ->
       pdf_save w path (final_merged_pdf m) = Failed e ->
       saves (trace r') = saves (trace r)
       /\ In (EvLog ("ERROR: Could not write merged PDF "
                     +:+ (fst (OsPath.splitext (hd EmptyString sorted)) +:+ ".pdf")
                     +:+ " using pikepdf: " +:+ e)) (trace r'))
  /\ (files_successfully_added_to_merger m = 0%nat -> saves (trace r') = saves (trace r)).
Proof.
  intros Hs m path r'.
  destruct (merge_family_sorted w (merged_pdfs_output_path folder_path) p1 total k members
              st r sorted Hs) as [_ Hsaves].
  fold r' in Hsaves. unfold merge_result in Hsaves. simpl in Hsaves. rewrite Hs in Hsaves.
  fold m in Hsaves. change (final_output_filename sorted)
    with (fst (OsPath.splitext (hd EmptyString sorted)) +:+ ".pdf") in Hsaves.
  fold path in Hsaves.
  split; [|split].
  - intros Hpos Hsave. rewrite Hsaves, Hsave.
    apply Nat.ltb_lt in Hpos. rewrite Hpos. reflexivity.
  - intros e Hpos Hsave. split.
    + rewrite Hsaves, Hsave, andb_false_r. apply app_nil_r.
    + subst r'. unfold merge_family.
      destruct (valid_files (file_path_map p1) members) as [|x v] eqn:Ev.
      { vm_compute in Hs. injection Hs as <-. vm_compute in Hpos. lia. }
      rewrite Hs.
      match goal with |- context [merge_members w ?fpm ?l ?r0] =>
        pose proof (merge_members_fst w fpm l r0) as Hf;
        destruct (merge_members w fpm l r0) as [m1 r1] end.
      simpl in Hf. subst m1. fold m. apply Nat.ltb_lt in Hpos. rewrite Hpos.
      change (final_output_filename sorted)
        with (fst (OsPath.splitext (hd EmptyString sorted)) +:+ ".pdf").
      fold path. rewrite Hsave. unfold family_done. cbn [snd trace emit log_message].
      apply in_or_app. left. apply in_or_app. right. now left.
  - intros Hz. rewrite Hsaves, Hz. apply app_nil_r.
Qed.

Lemma family_output_file_witness :
  saves (trace (snd (merge_family (fair_world ["A.2.doc"; "A.pdf"])
                       (merged_pdfs_output_path "/src")
                       (pass1_state (fair_world ["A.2.doc"; "A.pdf"]) "/src" ["A.2.doc"; "A.pdf"])
                       1 "A" ["A.2.doc"; "A.pdf"] pass2_init run0)))
  = [EvSave "/src/Merged Output/Merged PDFs/A.pdf" [0%nat; 0%nat]].
Proof.
  pose proof (family_output_file (fair_world ["A.2.doc"; "A.pdf"]) "/src"
                (pass1_state (fair_world ["A.2.doc"; "A.pdf"]) "/src" ["A.2.doc"; "A.pdf"])
                1 "A" ["A.2.doc"; "A.pdf"] pass2_init run0 ["A.pdf"; "A.2.doc"]) as H.
  destruct H as [H _]; [vm_compute; reflexivity|].
  apply H; vm_compute; [lia | reflexivity].
Defined.

(** C3 as stated fails: a member of the family is appended, and the save
    raises, so no document is written. *)
Lemma family_output_file_counterexample :
  let w := save_fails_world ["A.pdf"] "/src/Merged Output/Merged PDFs/A.pdf" in
  let p1 := pass1_state w "/src" ["A.pdf"] in
  files_successfully_added_to_merger (appended w (file_path_map p1) ["A.pdf"]) = 1%nat
  /\ fst (merge_pdfs_worker w "/src") = Returned tt
  /\ saves (trace (snd (merge_pdfs_worker w "/src"))) = []
  /\ In (EvLog "ERROR: Could not write merged PDF A.pdf using pikepdf: disk full")
        (trace (snd (merge_pdfs_worker w "/src"))).
Proof. vm_compute. repeat split; auto 10. Qed.

(** ** The aggregates of the QC selection *)

Lemma aggregates_ok_init : aggregates_ok [] pass2_init.
Proof.
  split; [intros m []|]. split; [now split|]. intros m [].
Qed.

Lemma aggregates_ok_step rs st new :
  (0 < mr_count new)%nat -> aggregates_ok rs st ->
  aggregates_ok (rs ++ [new]) (update_aggregates st (Some new)).
Proof.
  intros Hpos (Hcounts & Hlargest & Hnative). unfold update_aggregates.
  split; [|split]; cbn [max_files_in_family_count largest_family_merged_pdf_src_path
                        first_family_with_native_src_path].
  - intros m' Hm'. apply in_app_or in Hm' as [Hm'|[<-|[]]].
    + specialize (Hcounts m' Hm').
      destruct (Nat.ltb_spec (max_files_in_family_count st) (mr_count new)); lia.
    + destruct (Nat.ltb_spec (max_files_in_family_count st) (mr_count new)); lia.
  - destruct (Nat.ltb_spec (max_files_in_family_count st) (mr_count new)) as [Hlt|Hge].
    + exists rs, new, []. repeat split; auto.
      intros m' Hm'. specialize (Hcounts m' Hm'). lia.
    + destruct (largest_family_merged_pdf_src_path st) as [p|].
      * destruct Hlargest as (before & m0 & after & -> & Hp & Hmax & Hbefore).
        exists before, m0, (after ++ [new]). rewrite <- app_assoc. repeat split; auto.
      * destruct Hlargest as [_ Hz]. lia.
  - unfold first_native_spec in *.
    destruct (first_family_with_native_src_path st) as [p|]; simpl.
    + rewrite andb_false_r.
      destruct Hnative as (before & m0 & after & -> & Hp & Hn & Hbefore).
      exists before, m0, (after ++ [new]). rewrite <- app_assoc. repeat split; auto.
    + rewrite andb_true_r. destruct (mr_native new) eqn:En.
      * exists rs, new, []. repeat split; auto.
      * intros m' Hm'. apply in_app_or in Hm' as [Hm'|[<-|[]]]; auto.
Qed.

Lemma aggregates_ok_done total rs st r :
  aggregates_ok rs st -> aggregates_ok rs (fst (family_done total st r)).
Proof. intros H. exact H. Qed.

Lemma merge_result_pos w mp p1 fam m :
  merge_result w mp p1 fam = Some m -> (0 < mr_count m)%nat.
Proof.
  unfold merge_result. destruct (sort_family _) as [sorted|]; [|discriminate].
  destruct (0 <? _)%nat eqn:E; [|discriminate].
  destruct (is_done _); [|discriminate]. simpl. intros [= <-]. simpl. now apply Nat.ltb_lt.
Qed.

Lemma merge_results_snoc w mp p1 fs fam :
  merge_results w mp p1 (fs ++ [fam])
  = merge_results w mp p1 fs
    ++ match merge_result w mp p1 fam with Some m => [m] | None => [] end.
Proof.
  unfold merge_results. rewrite omap_app. simpl.
  now destruct (merge_result w mp p1 fam).
Qed.

Lemma pass2_loop_aggregates w mp p1 total fs : forall done st r st' r',
  aggregates_ok (merge_results w mp p1 done) st ->
  pass2_loop w mp p1 total fs st r = (Returned st', r') ->
  aggregates_ok (merge_results w mp p1 (done ++ fs)) st'.
Proof.
  induction fs as [|[k members] fs IH]; intros done st r st' r' Hok Hloop.
  - simpl in Hloop. injection Hloop as <- <-. now rewrite app_nil_r.
  - simpl in Hloop.
    destruct (merge_family w mp p1 total k members st r) as [[st1|exn] r1] eqn:Em;
      [|discriminate].
    destruct (proj1 (merge_family_returned w mp p1 total k members st r)) as [sorted Hs];
      [eauto|].
    destruct (merge_family_sorted w mp p1 total k members st r sorted Hs) as [Hst _].
    rewrite Em in Hst. simpl in Hst. injection Hst as ->.
    change (done ++ (k, members) :: fs) with (done ++ [(k, members)] ++ fs).
    rewrite app_assoc. eapply IH; [|exact Hloop].
    rewrite merge_results_snoc. apply (aggregates_ok_done total _ _ r).
    destruct (merge_result w mp p1 (k, members)) as [m|] eqn:Er.
    + apply aggregates_ok_step; [|exact Hok]. eapply merge_result_pos; eauto.
    + now rewrite app_nil_r.
Qed.

(** C6, as the code has it: after Pass 2, the remembered largest family is,
    among the families whose document was saved, the first one with the
    greatest count of appended members (none when nothing was saved), and
    the remembered first-native family is the first family, in the order of
    iteration, whose native flag is true and whose document was saved. *)
Theorem qc_aggregates_after_pass2 (w : World) (mp : string) (p1 : Pass1) (total : nat)
    (fs : Families) (r : Run) (st' : Pass2) (r' : Run) :
  pass2_loop w mp p1 total fs pass2_init r = (Returned st', r') ->
  largest_spec (merge_results w mp p1 fs) (largest_family_merged_pdf_src_path st')
  /\ first_native_spec (merge_results w mp p1 fs) (first_family_with_native_src_path st').
Proof.
  intros Hloop.
  destruct (pass2_loop_aggregates w mp p1 total fs [] pass2_init r st' r'
              aggregates_ok_init Hloop) as (Hcounts & Hlargest & Hnative).
  simpl in *. split; [|exact Hnative].
  unfold largest_spec. destruct (largest_family_merged_pdf_src_path st') as [p|].
  - destruct Hlargest as (before & m & after & Heq & Hp & Hmax & Hbefore).
    exists before, m, after. repeat split; auto.
    intros m' Hm'. rewrite Hmax. apply Hcounts. rewrite Heq.
    apply in_or_app. right. now right.
  - tauto.
Qed.

Lemma qc_aggregates_after_pass2_witness :
  let listing := ["A.pdf"; "A.1.doc"; "B.pdf"; "B.2.pdf"; "B.1.pdf"; "C.pdf"] in
  let w := fair_world listing in
  let p1 := pass1_state w "/src" listing in
  let rs := merge_results w (merged_pdfs_output_path "/src") p1 (families p1) in
  map mr_count rs = [2; 3; 1]%nat
  /\ largest_spec rs (Some "/src/Merged Output/Merged PDFs/B.pdf")
  /\ first_native_spec rs (Some "/src/Merged Output/Merged PDFs/A.pdf").
Proof.
  intros listing w p1 rs. split; [vm_compute; reflexivity|].
  destruct (pass2_loop w (merged_pdfs_output_path "/src") p1 3 (families p1) pass2_init run0)
    as [[st'|exn] r'] eqn:E; [|vm_compute in E; discriminate].
  pose proof (qc_aggregates_after_pass2 w (merged_pdfs_output_path "/src") p1 3
                (families p1) run0 st' r' E) as H.
  vm_compute in E. injection E as <- _. exact H.
Defined.

(** C6 as stated fails: the family [A] has the greatest count of appended
    members, its save raises, and the family [B] is remembered as the
    largest. *)
Lemma qc_aggregates_counterexample :
  let listing := ["A.pdf"; "A.1.pdf"; "B.pdf"] in
  let w := save_fails_world listing "/src/Merged Output/Merged PDFs/A.pdf" in
  let p1 := pass1_state w "/src" listing in
  families p1 = [("A", ["A.pdf"; "A.1.pdf"]); ("B", ["B.pdf"])]
  /\ files_successfully_added_to_merger
       (appended w (file_path_map p1) ["A.pdf"; "A.1.pdf"]) = 2%nat
  /\ files_successfully_added_to_merger (appended w (file_path_map p1) ["B.pdf"]) = 1%nat
  /\ exists st r,
       pass2_loop w (merged_pdfs_output_path "/src") p1 2 (families p1) pass2_init run0
       = (Returned st, r)
       /\ largest_family_merged_pdf_src_path st = Some "/src/Merged Output/Merged PDFs/B.pdf".
Proof.
  intros listing w p1. repeat split; try (vm_compute; reflexivity).
  destruct (pass2_loop w (merged_pdfs_output_path "/src") p1 2 (families p1) pass2_init run0)
    as [[st|exn] r] eqn:E; vm_compute in E; [|discriminate].
  exists st, r. split; [reflexivity|]. injection E as <- _. reflexivity.
Qed.

(** ** The QC selection, the CSV log, the cleanup *)

Lemma qc_largest_extends w qc st r :
  extends_with qc_event r (snd (qc_largest w qc st r)).
Proof.
  unfold qc_largest. destruct (truthy_path _) as [largest|]; [|simpl; ext].
  destruct (exists_qc w largest); [|simpl; ext].
  destruct (shutil_copy2 w largest _); simpl; ext.
Qed.

Lemma qc_native_extends w qc p1 st copied r :
  extends_with qc_event r (qc_native w qc p1 st copied r).
Proof.
  unfold qc_native.
  assert (Hno : forall r0,
    extends_with qc_event r0
      (if negb (any_values (family_had_native_placeholder p1))
       then log_message
              "No families contained native placeholders; no specific QC doc for this criterion."
              r0
       else r0)).
  { intros r0. destruct (negb _); ext. }
  destruct (truthy_path _) as [first|]; [|apply Hno].
  destruct (exists_qc w first); [|apply Hno].
  destruct (negb (path_eqb first _)).
  - destruct (shutil_copy2 w first _); ext.
  - destruct (negb (bool_decide _)); ext.
Qed.

Lemma cleanup_step_extends w r p : extends_with cleanup_event r (cleanup_step w r p).
Proof.
  unfold cleanup_step. destruct (exists_cleanup w p); [|ext].
  destruct (os_unlink w p); ext.
Qed.

Lemma cleanup_extends w placeholders r : extends_with cleanup_event r (cleanup w placeholders r).
Proof.
  unfold cleanup.
  eapply extends_with_trans; [|apply extends_with_log; reflexivity].
  eapply extends_with_trans; [apply extends_with_log; reflexivity|].
  apply extends_with_fold_left. apply cleanup_step_extends.
Qed.

Lemma insert_by_rank_perm rank x l : Permutation (insert_by_rank rank x l) (x :: l).
Proof.
  induction l as [|y l IH]; cbn [insert_by_rank]; [reflexivity|].
  destruct (rank x <=? rank y)%nat; [reflexivity|].
  rewrite IH. apply perm_swap.
Qed.

(** The iteration of a set visits each of its elements once. *)
Lemma set_iteration_perm w (s : gset string) : Permutation (set_iteration w s) (elements s).
Proof.
  unfold set_iteration. induction (elements s) as [|x l IH]; cbn [fold_right]; [reflexivity|].
  rewrite insert_by_rank_perm. now apply perm_skip.
Qed.

Lemma set_iteration_NoDup w (s : gset string) : List.NoDup (set_iteration w s).
Proof.
  eapply Permutation_NoDup; [symmetry; apply set_iteration_perm|].
  apply NoDup_ListNoDup, NoDup_elements.
Qed.

Lemma set_iteration_In w (s : gset string) p : In p (set_iteration w s) <-> p ∈ s.
Proof.
  split; intros H.
  - apply elem_of_elements, list_elem_of_In.
    eapply Permutation_in; [apply set_iteration_perm | exact H].
  - apply elem_of_elements, list_elem_of_In in H.
    eapply Permutation_in; [symmetry; apply set_iteration_perm | exact H].
Qed.

(** The deletions of the cleanup: one for each registered placeholder that
    exists and that [os.unlink] removes, none twice. *)
Lemma cleanup_unlinks w placeholders r :
  List.filter is_unlink (trace (cleanup w placeholders r))
  = List.filter is_unlink (trace r)
    ++ map EvUnlink
         (List.filter (fun p => exists_cleanup w p && is_done (os_unlink w p))
            (set_iteration w placeholders))
  /\ List.NoDup (set_iteration w placeholders).
Proof.
  split; [|apply set_iteration_NoDup].
  unfold cleanup. cbn [trace log_message]. rewrite List.filter_app. simpl. rewrite app_nil_r.
  set (r0 := log_message "Cleaning up temporary files..." r).
  assert (E0 : List.filter is_unlink (trace r0) = List.filter is_unlink (trace r)).
  { unfold r0. simpl. rewrite List.filter_app. simpl. apply app_nil_r. }
  rewrite <- E0. clear E0. generalize r0. clear r0.
  induction (set_iteration w placeholders) as [|p l IH]; intros r0; simpl.
  - now rewrite app_nil_r.
  - rewrite IH. unfold cleanup_step.
    destruct (exists_cleanup w p); simpl; [|reflexivity].
    destruct (os_unlink w p); simpl.
    + rewrite List.filter_app. simpl. now rewrite <- app_assoc.
    + rewrite List.filter_app. simpl. now rewrite app_nil_r.
Qed.

(** ** The worker *)

Arguments pass2_loop : simpl never.
Arguments qc_largest : simpl never.
Arguments qc_native : simpl never.
Arguments cleanup : simpl never.
Arguments write_log : simpl never.

Lemma extends_run0 P r :
  extends_with P run0 r ->
  local_log_entries r = log_rows (trace r) /\ forallb P (trace r) = true.
Proof. intros (evs & Ht & Hl & Hp). simpl in *. now rewrite Ht, Hl. Qed.

Lemma worker_fatal_dirs w folder_path e :
  make_output_dirs w (base_output_folder folder_path) (merged_pdfs_output_path folder_path)
    (qc_docs_output_path folder_path) = RaisesOSError e ->
  merge_pdfs_worker w folder_path
  = (Returned tt,
     emit (EvCompletion false)
       (log_message ("CRITICAL ERROR: Could not create output directories: " +:+ e) run0)).
Proof. unfold merge_pdfs_worker. now intros ->. Qed.

Lemma worker_fatal_listdir w folder_path u e :
  make_output_dirs w (base_output_folder folder_path) (merged_pdfs_output_path folder_path)
    (qc_docs_output_path folder_path) = Returns u ->
  os_listdir w folder_path = RaisesOSError e ->
  merge_pdfs_worker w folder_path
  = (Returned tt,
     emit (EvCompletion false)
       (log_message ("ERROR: Could not read source directory: " +:+ folder_path
                     +:+ ". " +:+ e)
          (log_message ("Output folders created/ensured: " +:+ base_output_folder folder_path)
             run0))).
Proof. unfold merge_pdfs_worker. now intros -> ->. Qed.

(** What [os.makedirs] and [os.listdir] raise beside [OSError] ends the
    worker. *)
Lemma worker_raises_dirs w folder_path exn :
  make_output_dirs w (base_output_folder folder_path) (merged_pdfs_output_path folder_path)
    (qc_docs_output_path folder_path) = RaisesOther exn ->
  merge_pdfs_worker w folder_path = (Raised exn, run0).
Proof. unfold merge_pdfs_worker. now intros ->. Qed.

Lemma worker_raises_listdir w folder_path u exn :
  make_output_dirs w (base_output_folder folder_path) (merged_pdfs_output_path folder_path)
    (qc_docs_output_path folder_path) = Returns u ->
  os_listdir w folder_path = RaisesOther exn ->
  merge_pdfs_worker w folder_path
  = (Raised exn,
     log_message ("Output folders created/ensured: " +:+ base_output_folder folder_path) run0).
Proof. unfold merge_pdfs_worker. now intros -> ->. Qed.

(** A run that passes the fatal checks: it raises when Pass 2 raises, and
    otherwise goes on to the QC selection and to the CSV log; it raises when
    the writing of the CSV file raises past its handler, and otherwise goes
    on to the cleanup and the completion callback. *)
Lemma worker_passes w folder_path u listing :
  make_output_dirs w (base_output_folder folder_path) (merged_pdfs_output_path folder_path)
    (qc_docs_output_path folder_path) = Returns u ->
  os_listdir w folder_path = Returns listing ->
  merge_pdfs_worker w folder_path
  = match pass2_of w folder_path listing with
    | (Raised exn, r) => (Raised exn, r)
    | (Returned st, r2) =>
        match write_log w (base_output_folder folder_path)
                (run_before_log w folder_path (pass1_state w folder_path listing) st r2) with
        | (Raised exn, r) => (Raised exn, r)
        | (Returned _, r3) =>
            (Returned tt,
             emit (EvCompletion true)
               (cleanup w (placeholder_files_to_delete (pass1_state w folder_path listing))
                  r3))
        end
    end.
Proof.
  unfold merge_pdfs_worker, pass2_of, run_at_pass2. intros -> ->.
  fold (run_at_pass1 folder_path).
  pose proof (pass1_loop_state w folder_path listing (run_at_pass1 folder_path)) as Hp1.
  destruct (pass1_loop w folder_path listing (pass1_init, run_at_pass1 folder_path))
    as [p1 r1]. simpl in Hp1. subst p1. unfold after_pass1. cbn [snd].
  destruct (pass2_loop _ _ _ _ _ _ _) as [[st|exn] r2]; [|reflexivity].
  unfold run_before_log. destruct (qc_largest _ _ _ _) as [copied r3]. reflexivity.
Qed.

(** A run that passes the fatal checks and returns went through Pass 2, the
    QC selection, the CSV log and the cleanup. *)
Lemma worker_returned w folder_path u listing r :
  make_output_dirs w (base_output_folder folder_path) (merged_pdfs_output_path folder_path)
    (qc_docs_output_path folder_path) = Returns u ->
  os_listdir w folder_path = Returns listing ->
  merge_pdfs_worker w folder_path = (Returned tt, r) ->
  exists st r2 r3,
    pass2_of w folder_path listing = (Returned st, r2)
    /\ write_log w (base_output_folder folder_path)
         (run_before_log w folder_path (pass1_state w folder_path listing) st r2)
       = (Returned tt, r3)
    /\ r = emit (EvCompletion true)
             (cleanup w (placeholder_files_to_delete (pass1_state w folder_path listing)) r3).
Proof.
  intros Hd Hl. rewrite (worker_passes w folder_path u listing Hd Hl).
  destruct (pass2_of w folder_path listing) as [[st|exn] r2]; [|discriminate].
  destruct (write_log _ _ _) as [[[]|exn] r3] eqn:Ew; [|discriminate].
  intros [= <-]. now exists st, r2, r3.
Qed.

Lemma weaken_log_pre r r' : extends_with is_log r r' -> extends_with pre_csv_event r r'.
Proof. apply extends_with_weaken. intros e He. unfold pre_csv_event. now rewrite He. Qed.

Lemma weaken_pass1_pre r r' : extends_with pass1_event r r' -> extends_with pre_csv_event r r'.
Proof.
  apply extends_with_weaken. intros e He. destruct e; simpl in *; auto.
Qed.

Lemma weaken_pass2_pre r r' : extends_with pass2_event r r' -> extends_with pre_csv_event r r'.
Proof.
  apply extends_with_weaken. intros e He. destruct e; simpl in *; auto.
Qed.

Lemma weaken_qc_pre r r' : extends_with qc_event r r' -> extends_with pre_csv_event r r'.
Proof.
  apply extends_with_weaken. intros e He. destruct e; simpl in *; auto.
Qed.

Lemma run_at_pass2_extends w folder_path listing :
  extends_with pass1_event run0 (run_at_pass2 w folder_path listing).
Proof.
  unfold run_at_pass2.
  eapply extends_with_trans; [|apply extends_with_log; reflexivity].
  eapply extends_with_trans; [|apply extends_with_log; reflexivity].
  eapply extends_with_trans;
    [|apply (pass1_loop_extends w folder_path listing (pass1_init, run_at_pass1 folder_path))].
  unfold run_at_pass1. cbn [snd]. ext.
Qed.

Lemma pass2_of_extends w folder_path listing :
  extends_with pre_csv_event run0 (snd (pass2_of w folder_path listing)).
Proof.
  unfold pass2_of.
  eapply extends_with_trans; [apply weaken_pass1_pre, run_at_pass2_extends|].
  apply weaken_pass2_pre, pass2_loop_extends.
Qed.

Lemma run_before_log_qc w folder_path p1 st r2 :
  extends_with qc_event r2 (run_before_log w folder_path p1 st r2).
Proof.
  unfold run_before_log.
  match goal with |- context [qc_largest w ?qc st ?r] =>
    pose proof (qc_largest_extends w qc st r) as H;
    destruct (qc_largest w qc st r) as [copied r3] end.
  simpl in H.
  eapply extends_with_trans; [|apply qc_native_extends].
  eapply extends_with_trans; [|apply H]. ext.
Qed.

Lemma run_before_log_extends w folder_path p1 st r2 :
  extends_with pre_csv_event r2 (run_before_log w folder_path p1 st r2).
Proof. apply weaken_qc_pre, run_before_log_qc. Qed.


Lemma filter_none {A : Type} (P Q : A -> bool) (l : list A) :
  (forall x, P x = true -> Q x = false) -> forallb P l = true -> List.filter Q l = [].
Proof.
  intros HPQ. induction l as [|x l IH]; simpl; [reflexivity|]. intros H.
  apply andb_prop in H as [Hx H]. rewrite (HPQ x Hx). auto.
Qed.




(** ** Runs that raise, runs that complete *)

Lemma pass2_loop_cons w mp p1 total k members fs st r :
  pass2_loop w mp p1 total ((k, members) :: fs) st r
  = match merge_family w mp p1 total k members st r with
    | (Returned st', r') => pass2_loop w mp p1 total fs st' r'
    | (Raised exn, r') => (Raised exn, r')
    end.
Proof. reflexivity. Qed.

(** Pass 2 raises exactly when the sort of some family does: the
    [TypeError] of a comparison between an integer and a string token. *)
Lemma pass2_loop_raises w mp p1 total fs : forall st r,
  (exists exn r', pass2_loop w mp p1 total fs st r = (Raised exn, r'))
  <-> exists k members,
        In (k, members) fs
        /\ sort_family (valid_files (file_path_map p1) members) = None.
Proof.
  induction fs as [|[k members] fs IH]; intros st r.
  - split; [intros (exn & r' & [=]) | intros (k & ms & [] & _)].
  - rewrite pass2_loop_cons.
    destruct (sort_family (valid_files (file_path_map p1) members)) as [sorted|] eqn:Es.
    + destruct (proj2 (merge_family_returned w mp p1 total k members st r)) as (st' & r' & Em);
        [eauto|].
      rewrite Em, IH. split.
      * intros (k' & ms & Hin & Hs). exists k', ms. split; [now right | exact Hs].
      * intros (k' & ms & [[= -> ->]|Hin] & Hs); [congruence|]. eauto.
    + rewrite merge_family_raised; [|intros E; rewrite E in Es; discriminate | exact Es].
      split; [|eauto]. intros _. exists k, members. split; [now left | exact Es].
Qed.

Lemma pass2_loop_exn w mp p1 total fs : forall st r exn r',
  pass2_loop w mp p1 total fs st r = (Raised exn, r') -> exn = "TypeError".
Proof.
  induction fs as [|[k members] fs IH]; intros st r exn r'; [discriminate|].
  rewrite pass2_loop_cons.
  destruct (sort_family (valid_files (file_path_map p1) members)) as [sorted|] eqn:Es.
  - destruct (proj2 (merge_family_returned w mp p1 total k members st r)) as (st' & r1 & Em);
      [eauto|].
    rewrite Em. apply IH.
  - rewrite merge_family_raised; [|intros E; rewrite E in Es; discriminate | exact Es].
    now intros [= <- _].
Qed.

Lemma write_log_extends w base r :
  extends_with log_csv_event r (snd (write_log w base r)).
Proof.
  unfold write_log. destruct (csv_open w _); cbn [snd]; [|ext..].
  destruct (csv_writerows w _ _); cbn [snd]; ext.
Qed.

(** The writing of the CSV file raises past its handler only what [open] or
    the writes raise beside [OSError]. *)
Lemma write_log_raised w base r exn r' :
  write_log w base r = (Raised exn, r') ->
  csv_open w (OsPath.join base "Merge Log.csv") = RaisesOther exn
  \/ csv_writerows w (OsPath.join base "Merge Log.csv") (["Message"] :: local_log_entries r)
     = RaisesOther exn.
Proof.
  unfold write_log. destruct (csv_open w _) as [u|e|exn0]; [|discriminate|].
  - destruct (csv_writerows w _ _) as [u'|e|exn0]; try discriminate.
    intros [= <- _]. now right.
  - intros [= <- _]. now left.
Qed.

Lemma weaken_body (P : Event -> bool) r r' :
  (forall e, P e = true -> is_completion e = false) ->
  extends_with P r r' -> extends_with body_event r r'.
Proof.
  intros HP. apply extends_with_weaken. intros e He. unfold body_event.
  now rewrite (HP e He).
Qed.

(** The run up to the end of the CSV log, when Pass 2 returns. *)
Lemma run_log_extends (P : Event -> bool) w folder_path listing st r2 :
  (forall e, pre_csv_event e = true -> P e = true) ->
  (forall e, log_csv_event e = true -> P e = true) ->
  pass2_of w folder_path listing = (Returned st, r2) ->
  extends_with P run0
    (snd (write_log w (base_output_folder folder_path)
            (run_before_log w folder_path (pass1_state w folder_path listing) st r2))).
Proof.
  intros H1 H2 E2.
  pose proof (pass2_of_extends w folder_path listing) as Hp. rewrite E2 in Hp. cbn [snd] in Hp.
  eapply extends_with_trans; [|eapply extends_with_weaken; [exact H2 | apply write_log_extends]].
  eapply extends_with_trans;
    [|eapply extends_with_weaken; [exact H1 | apply run_before_log_extends]].
  eapply extends_with_weaken; [exact H1 | exact Hp].
Qed.

(** The run up to the completion callback, when Pass 2 and the CSV log
    return. *)
Lemma run_body_extends (P : Event -> bool) w folder_path listing st r2 u r3 :
  (forall e, pre_csv_event e = true -> P e = true) ->
  (forall e, log_csv_event e = true -> P e = true) ->
  (forall e, cleanup_event e = true -> P e = true) ->
  pass2_of w folder_path listing = (Returned st, r2) ->
  write_log w (base_output_folder folder_path)
    (run_before_log w folder_path (pass1_state w folder_path listing) st r2) = (Returned u, r3) ->
  extends_with P run0
    (cleanup w (placeholder_files_to_delete (pass1_state w folder_path listing)) r3).
Proof.
  intros H1 H2 H3 E2 Ew.
  pose proof (run_log_extends P w folder_path listing st r2 H1 H2 E2) as Hl.
  rewrite Ew in Hl. cbn [snd] in Hl.
  eapply extends_with_trans; [exact Hl|].
  eapply extends_with_weaken; [exact H3 | apply cleanup_extends].
Qed.

(** The verdict of a run: a run that returns calls the completion callback
    once, at its end, with [False] exactly after a fatal error; a run that
    raises never calls it, and what it raises is the [TypeError] of a sort
    in Pass 2 or what [os.makedirs], [os.listdir] or the writing of the CSV
    file raised beside [OSError]. *)
Lemma verdict_of_run w folder_path :
  match merge_pdfs_worker w folder_path with
  | (Returned _, r) =>
      exists body,
        trace r = body ++ [EvCompletion (negb (fatal w folder_path))]
        /\ List.filter is_completion body = []
  | (Raised exn, r) =>
      raised_by w folder_path exn /\ fatal w folder_path = false
      /\ List.filter is_completion (trace r) = []
  end.
Proof.
  unfold fatal, raised_by. cbv zeta.
  destruct (make_output_dirs w _ _ _) as [u|e|exn] eqn:Ed.
  2:{ rewrite (worker_fatal_dirs w folder_path e Ed). simpl. eexists [_]. split; reflexivity. }
  2:{ rewrite (worker_raises_dirs w folder_path exn Ed). auto. }
  destruct (os_listdir w folder_path) as [listing|e|exn] eqn:El.
  2:{ rewrite (worker_fatal_listdir w folder_path u e Ed El). simpl.
      eexists [_; _]. split; reflexivity. }
  2:{ rewrite (worker_raises_listdir w folder_path u exn Ed El).
      split; [right; split; eauto|]. split; reflexivity. }
  rewrite (worker_passes w folder_path u listing Ed El).
  destruct (pass2_of w folder_path listing) as [[st|exn] r2] eqn:E2.
  - destruct (write_log _ _ _) as [[u'|exn] r3] eqn:Ew.
    + eexists. split; [reflexivity|].
      destruct (extends_run0 _ _
                  (run_body_extends body_event w folder_path listing st r2 u' r3
                     ltac:(now intros []) ltac:(now intros []) ltac:(now intros []) E2 Ew))
        as [_ Hall].
      apply (filter_none body_event); [|exact Hall].
      intros e He. unfold body_event in He. now apply negb_true_iff in He.
    + split; [|split; [reflexivity|]].
      * right. split; [eauto|]. right. exists listing. split; [reflexivity|]. right.
        apply write_log_raised in Ew as [Ew|Ew]; [now left | right; eauto].
      * pose proof (run_log_extends body_event w folder_path listing st r2
                      ltac:(now intros []) ltac:(now intros []) E2) as Hl.
        rewrite Ew in Hl. cbn [snd] in Hl.
        destruct (extends_run0 _ _ Hl) as [_ Hall].
        apply (filter_none body_event); [|exact Hall].
        intros e He. unfold body_event in He. now apply negb_true_iff in He.
  - split; [|split; [reflexivity|]].
    + right. split; [eauto|]. right. exists listing. split; [reflexivity|]. left.
      unfold pass2_of in E2. split; [eapply pass2_loop_exn; eauto|].
      eapply pass2_loop_raises; eauto.
    + pose proof (pass2_of_extends w folder_path listing) as Hp. rewrite E2 in Hp.
      destruct (extends_run0 _ _ Hp) as [_ Hall].
      apply (filter_none pre_csv_event); [|exact Hall]. now intros [].
Qed.

(** The deletions of the worker in a run that passes the fatal checks and
    returns: one for each registered placeholder that exists at the cleanup
    and that [os.unlink] removes, in the order of the iteration of the set,
    and no other. *)
Lemma unlinks_of_run w folder_path u listing r :
  make_output_dirs w (base_output_folder folder_path) (merged_pdfs_output_path folder_path)
    (qc_docs_output_path folder_path) = Returns u ->
  os_listdir w folder_path = Returns listing ->
  merge_pdfs_worker w folder_path = (Returned tt, r) ->
  List.filter is_unlink (trace r)
  = map EvUnlink
      (List.filter (fun p => exists_cleanup w p && is_done (os_unlink w p))
         (set_iteration w (placeholder_files_to_delete (pass1_state w folder_path listing))))
  /\ List.NoDup
       (set_iteration w (placeholder_files_to_delete (pass1_state w folder_path listing))).
Proof.
  intros Hd Hl Hrun.
  destruct (worker_returned w folder_path u listing r Hd Hl Hrun)
    as (st & r2 & r3 & E2 & Ew & ->).
  destruct (cleanup_unlinks w
              (placeholder_files_to_delete (pass1_state w folder_path listing)) r3)
    as [Hc Hnd].
  split; [|exact Hnd].
  cbn [trace emit]. rewrite List.filter_app, Hc. simpl. rewrite app_nil_r.
  pose proof (run_log_extends (fun e => pre_csv_event e || log_csv_event e)
                w folder_path listing st r2
                ltac:(intros e He; cbv beta; now rewrite He)
                ltac:(intros e He; cbv beta; rewrite He; apply orb_true_r) E2) as Hq.
  rewrite Ew in Hq. cbn [snd] in Hq.
  destruct (extends_run0 _ _ Hq) as [_ Hall].
  rewrite (filter_none (fun e => pre_csv_event e || log_csv_event e) is_unlink);
    [reflexivity | now intros [] | exact Hall].
Qed.

(** C4: a directory that holds [A.1.pdf] and [A.x.pdf].  Nothing fatal
    happens; the sort of the family [A] compares the token [1] with the
    token ["x"] and raises; the worker ends there, and the completion
    callback is never called. *)
Theorem mixed_suffix_run_raises :
  let w := fair_world ["A.1.pdf"; "A.x.pdf"] in
  fatal w "/src" = false
  /\ extract_suffix_parts "A.1.pdf" = [TInt 1]
  /\ extract_suffix_parts "A.x.pdf" = [TStr "x"]
  /\ fst (merge_pdfs_worker w "/src") = Raised "TypeError"
  /\ List.filter is_completion (trace (snd (merge_pdfs_worker w "/src"))) = []
  /\ List.filter is_csv (trace (snd (merge_pdfs_worker w "/src"))) = [].
Proof. vm_compute. repeat split; reflexivity. Qed.

(** C9: a directory that holds [A.1.pdf] and the native [A.x.doc].  Pass 1
    makes and registers a placeholder; the sort of the family [A] raises in
    Pass 2; the cleanup is never reached and the placeholder is not
    deleted. *)
Theorem placeholder_left_when_sort_raises :
  let listing := ["A.1.pdf"; "A.x.doc"] in
  let w := fair_world listing in
  elements (placeholder_files_to_delete (pass1_state w "/src" listing))
  = ["/tmp/tmp_merger_0_rl_placeholder_A.x.pdf"]
  /\ fst (merge_pdfs_worker w "/src") = Raised "TypeError"
  /\ List.filter is_unlink (trace (snd (merge_pdfs_worker w "/src"))) = [].
Proof. vm_compute. repeat split; reflexivity. Qed.

(** C5: a directory that holds [A.1.pdf], [A.x.pdf] and the native
    [A.2.doc], for which no placeholder can be made.  The failure is logged,
    [A.2.doc] leaves the member list of its family and the provider is
    called once; but the sort of the two remaining members compares the
    token [1] with the token ["x"] and raises, so the remaining members are
    not merged: nothing is saved, and the worker ends there. *)
Theorem failed_placeholder_family_not_merged :
  let listing := ["A.1.pdf"; "A.x.pdf"; "A.2.doc"] in
  let w := no_placeholder_world listing in
  let p1 := pass1_state w "/src" listing in
  is_native w "/src" "A.2.doc" = true
  /\ synth_ok w "/src" ["A.1.pdf"; "A.x.pdf"] "A.2.doc" = false
  /\ In (EvLog "ERROR: Failed to create placeholder for A.2.doc. It will be skipped.")
        (trace (snd (merge_pdfs_worker w "/src")))
  /\ members_of p1 "A" = ["A.1.pdf"; "A.x.pdf"]
  /\ placeholder_calls p1 = 1%nat
  /\ sort_family (valid_files (file_path_map p1) (members_of p1 "A")) = None
  /\ fst (merge_pdfs_worker w "/src") = Raised "TypeError"
  /\ saves (trace (snd (merge_pdfs_worker w "/src"))) = []
  /\ List.filter is_completion (trace (snd (merge_pdfs_worker w "/src"))) = [].
Proof. vm_compute. repeat split; auto 20. Qed.

(** ** The QC selection *)

(** The QC selection when the remembered first-native path is the
    remembered largest path, and the file exists: the file is copied at most
    once, and the line about the coincidence is logged exactly when that
    copy raised. *)
Lemma qc_coincidence w folder_path p1 st r2 p :
  largest_family_merged_pdf_src_path st = Some p ->
  first_family_with_native_src_path st = Some p ->
  Py.truthy p = true ->
  exists_qc w p = true ->
  trace (run_before_log w folder_path p1 st r2)
  = trace r2
    ++ [EvLog "Pass 2 completed."; EvLog "Processing QC documents..."]
    ++ match shutil_copy2 w p (OsPath.join (qc_docs_output_path folder_path)
                                 (OsPath.basename p)) with
       | Done _ =>
           [EvCopy p (OsPath.join (qc_docs_output_path folder_path) (OsPath.basename p));
            EvLog ("Copied largest family PDF to QC Docs: " +:+ OsPath.basename p)]
       | Failed e =>
           [EvLog ("ERROR copying largest family PDF to QC Docs: " +:+ e);
            EvLog ("Largest family PDF (" +:+ OsPath.basename p
                   +:+ ") also contained a native; already copied for QC.")]
       end.
Proof.
  intros Hl Hf Ht He. unfold run_before_log, qc_largest, qc_native.
  rewrite Hl, Hf. unfold truthy_path. rewrite Ht, He.
  destruct (shutil_copy2 w p _) as [u|e]; cbn [path_eqb default];
    rewrite String.eqb_refl; cbn [negb].
  - rewrite bool_decide_eq_true_2 by set_solver. cbn [negb trace log_message emit].
    now rewrite <- !app_assoc.
  - rewrite bool_decide_eq_false_2 by set_solver. cbn [negb trace log_message emit].
    now rewrite <- !app_assoc.
Qed.

(** When no family has the native flag, the QC selection says so. *)
Lemma qc_no_native w folder_path p1 st r2 :
  first_family_with_native_src_path st = None ->
  any_values (family_had_native_placeholder p1) = false ->
  exists evs,
    trace (run_before_log w folder_path p1 st r2)
    = trace r2 ++ evs
      ++ [EvLog "No families contained native placeholders; no specific QC doc for this criterion."].
Proof.
  intros Hf Hany. unfold run_before_log.
  match goal with |- context [qc_largest w ?qc st ?r] =>
    pose proof (qc_largest_extends w qc st r) as H;
    destruct (qc_largest w qc st r) as [copied r3] end.
  destruct H as (evs & Ht & _). cbn [snd trace log_message] in Ht.
  unfold qc_native. rewrite Hf, Hany. cbn [truthy_path negb trace log_message].
  rewrite Ht, <- !app_assoc.
  exists ([EvLog "Pass 2 completed."] ++ [EvLog "Processing QC documents..."] ++ evs).
  now rewrite <- !app_assoc.
Qed.

(** C7: a directory that holds [A.pdf] and the native [A.1.doc].  The only
    family is the largest one and the first one with a native, both
    remembered paths are that of [A.pdf]; the file is copied once, and no
    log line tells that the two coincide. *)
Theorem coincidence_not_logged :
  let listing := ["A.pdf"; "A.1.doc"] in
  let w := fair_world listing in
  fst (pass2_of w "/src" listing)
  = Returned {| max_files_in_family_count := 2;
                largest_family_merged_pdf_src_path :=
                  Some "/src/Merged Output/Merged PDFs/A.pdf";
                first_family_with_native_src_path :=
                  Some "/src/Merged Output/Merged PDFs/A.pdf";
                processed_families_count := 1 |}
  /\ List.filter is_copy (trace (snd (merge_pdfs_worker w "/src")))
     = [EvCopy "/src/Merged Output/Merged PDFs/A.pdf" "/src/Merged Output/QC Docs/A.pdf"]
  /\ local_log_entries (snd (merge_pdfs_worker w "/src"))
     = [["Output folders created/ensured: /src/Merged Output"];
        ["Starting Pass 1: Identifying families and creating placeholders..."];
        ["Creating placeholder for native file: A.1.doc"];
        ["Pass 1 completed."];
        ["Starting Pass 2: Merging PDF families using pikepdf..."];
        ["Processing family: A. Files to merge (in order): A.pdf, A.1.doc"];
        ["Successfully merged 2 file(s) into: Merged PDFs/A.pdf"];
        ["Pass 2 completed."];
        ["Processing QC documents..."];
        ["Copied largest family PDF to QC Docs: A.pdf"];
        ["Merge log saved to: Merged Output/Merge Log.csv"];
        ["Cleaning up temporary files..."];
        ["Temporary file cleanup completed."]].
Proof. vm_compute. repeat split; reflexivity. Qed.

(** ** More on the parser and on the sort *)

(** No ['.'] is left in a family key. *)
Lemma family_key_no_dot (f : string) :
  Spec.after_first_dot (extract_family_key f) = None.
Proof.
  unfold extract_family_key. rewrite hd_split_dot.
  induction (fst (OsPath.splitext f)) as [|a s IH]; simpl; [reflexivity|].
  destruct (Ascii.eqb a "."%char) eqn:E; [reflexivity|]. simpl. now rewrite E.
Qed.

Lemma digit_value_of_digit (d : nat) :
  (d < 10)%nat -> Py.digit_value (digit_char d) = Some (Z.of_nat d).
Proof. intros H. do 10 (destruct d as [|d]; [reflexivity|]). lia. Qed.

Lemma int_digits_decimal (ds : list nat) : forall acc,
  Forall (fun d => (d < 10)%nat) ds ->
  Py.int_digits (digits_string ds) acc false = Some (decimal_value ds acc).
Proof.
  induction ds as [|d ds IH]; intros acc Hds; [reflexivity|].
  inversion Hds as [|? ? Hd Hds']; subst. cbn [digits_string Py.int_digits decimal_value].
  rewrite (digit_value_of_digit d Hd). now apply IH.
Qed.

(** [int] reads a string of decimal digits as its value in base 10, leading
    zeros included. *)
Lemma int_of_decimal (d : nat) (ds : list nat) :
  Forall (fun d => (d < 10)%nat) (d :: ds) ->
  Py.int (digits_string (d :: ds)) = Some (decimal_value (d :: ds) 0).
Proof.
  intros Hds. inversion Hds as [|? ? Hd Hds']; subst.
  assert (Hdv := digit_value_of_digit d Hd).
  unfold Py.int. cbn [digits_string Py.lstrip].
  assert (Hsp : Py.is_space (digit_char d) = false)
    by (do 10 (destruct d as [|d]; [reflexivity|]); lia).
  rewrite Hsp.
  assert (Hplus : Ascii.eqb (digit_char d) "+"%char = false)
    by (do 10 (destruct d as [|d]; [reflexivity|]); lia).
  assert (Hminus : Ascii.eqb (digit_char d) "-"%char = false)
    by (do 10 (destruct d as [|d]; [reflexivity|]); lia).
  rewrite Hplus, Hminus. unfold Py.int_unsigned. rewrite Hdv.
  rewrite (int_digits_decimal ds _ Hds'). reflexivity.
Qed.

Example int_examples :
  Py.int "0001" = Some 1 /\ Py.int "-12" = Some (-12) /\ Py.int " 1_000 " = Some 1000
  /\ Py.int "1__0" = None /\ Py.int "_1" = None /\ Py.int "1_" = None
  /\ Py.int "" = None /\ Py.int "+ 1" = None /\ Py.int "0x10" = None /\ Py.int "v2" = None.
Proof. repeat split; reflexivity. Qed.

Lemma key_ltb_total k1 k2 : key_ltb k1 k2 = false -> key_ltb k2 k1 = false -> k1 = k2.
Proof.
  unfold key_ltb, key_cmp. rewrite (Nat.compare_antisym (fst k1) (fst k2)).
  rewrite (tokens_cmp_antisym (snd k1) (snd k2)).
  destruct (fst k1 ?= fst k2)%nat eqn:En; simpl; try discriminate.
  destruct (tokens_cmp (snd k1) (snd k2)) eqn:Et; simpl; try discriminate.
  intros _ _. apply Nat.compare_eq in En. apply tokens_cmp_eq in Et.
  destruct k1, k2; simpl in *; congruence.
Qed.

(** A sorted and stable rearrangement is unique: whatever stable sort
    Python runs, its result is the one of the model. *)
Section StableUnique.
Context {A K : Type} (key : A -> K).
Variables (ltb eqb : K -> K -> bool).
Hypothesis ltb_total : forall a b, ltb a b = false -> ltb b a = false -> a = b.
Hypothesis eqb_refl : forall a, eqb a a = true.

Local Abbreviation not_after := (not_after key ltb).
Local Abbreviation same := (same key eqb).

Lemma stable_sorted_unique (r1 : list A) : forall r2,
  StronglySorted not_after r1 -> StronglySorted not_after r2 ->
  (forall k, List.filter (same k) r1 = List.filter (same k) r2) ->
  r1 = r2.
Proof.
  induction r1 as [|x r1 IH]; intros [|y r2] Hs1 Hs2 Hf.
  - reflexivity.
  - specialize (Hf (key y)). simpl in Hf. unfold same in Hf. rewrite eqb_refl in Hf.
    discriminate.
  - specialize (Hf (key x)). simpl in Hf. unfold same in Hf. rewrite eqb_refl in Hf.
    discriminate.
  - apply StronglySorted_inv in Hs1 as [Hs1 Hx]. apply StronglySorted_inv in Hs2 as [Hs2 Hy].
    rewrite List.Forall_forall in Hx, Hy.
    assert (Hyin : In y (x :: r1)).
    { assert (H : In y (List.filter (same (key y)) (x :: r1))).
      { rewrite (Hf (key y)). simpl. unfold same at 1. rewrite eqb_refl. now left. }
      now apply List.filter_In in H as [H _]. }
    assert (Hxin : In x (y :: r2)).
    { assert (H : In x (List.filter (same (key x)) (y :: r2))).
      { rewrite <- (Hf (key x)). simpl. unfold same at 1. rewrite eqb_refl. now left. }
      now apply List.filter_In in H as [H _]. }
    assert (Hkey : key x = key y).
    { destruct Hyin as [->|Hyin]; [reflexivity|].
      destruct Hxin as [->|Hxin]; [reflexivity|].
      apply ltb_total; [apply (Hy x Hxin) | apply (Hx y Hyin)]. }
    assert (Hxy : x = y).
    { assert (E1 : same (key x) x = true) by (unfold same; apply eqb_refl).
      assert (E2 : same (key x) y = true) by (unfold same; rewrite <- Hkey; apply eqb_refl).
      specialize (Hf (key x)). simpl in Hf. rewrite E1, E2 in Hf. now injection Hf. }
    subst y. f_equal. apply IH; auto.
    intros k. specialize (Hf k). simpl in Hf. destruct (same k x); [now injection Hf | exact Hf].
Qed.
End StableUnique.

(** Any list that ascends by the keys and keeps the order of the members
    with equal keys is the result of the sort of the model. *)
Lemma sort_family_unique (members sorted other : list string) :
  sort_family members = Some sorted ->
  (forall x y, In x members -> In y members ->
     Spec.comparable (extract_suffix_parts x) (extract_suffix_parts y) = true) ->
  StronglySorted (not_after sort_key key_ltb) other ->
  (forall k, List.filter (same sort_key key_eqb k) other
             = List.filter (same sort_key key_eqb k) members) ->
  other = sorted.
Proof.
  intros Hsort Hc Hso Hfo.
  destruct (py_sort_spec sort_key key_lt key_ltb key_eqb key_ltb_irrefl key_ltb_asym
              key_ltb_trans (fun a b => proj1 (key_eqb_eq a b)) members)
    as (sorted' & Hsort' & _ & Hss & Hstable).
  { intros x y Hx Hy. apply key_lt_comparable. simpl. now apply Hc. }
  unfold sort_family in Hsort. rewrite Hsort in Hsort'. injection Hsort' as <-.
  apply (stable_sorted_unique sort_key key_ltb key_eqb key_ltb_total
           (fun a => proj2 (key_eqb_eq a a) eq_refl)); auto.
  intros k. now rewrite Hfo, Hstable.
Qed.

(** ** Members that are skipped in Pass 2 *)

(** A member without a resolved path, whose file is missing or unreadable,
    or whose document has no page: a line is logged, the document under
    construction and the count are as before. *)
Lemma add_member_skips w fpm m r f :
  match truthy_path (fpm !! f) with
  | None => True
  | Some path =>
      exists_pass2 w path = false
      \/ match pdf_open w path with
         | OpenPages (_ :: _) => False
         | _ => True
         end
  end ->
  exists message, add_member w fpm (m, r) f = (m, log_message message r).
Proof.
  unfold add_member. destruct (truthy_path (fpm !! f)) as [path|]; [|eauto].
  destruct (exists_pass2 w path); simpl; [|eauto].
  destruct (pdf_open w path) as [e|e|[|pg pages]]; eauto.
  intros [H|[]]. discriminate.
Qed.

(** And the merge goes on with the other members: the document is the one
    that the family gives without the skipped member. *)
Lemma skipped_member_merge_continues w fpm l1 f l2 :
  match truthy_path (fpm !! f) with
  | None => True
  | Some path =>
      exists_pass2 w path = false
      \/ match pdf_open w path with
         | OpenPages (_ :: _) => False
         | _ => True
         end
  end ->
  appended w fpm (l1 ++ f :: l2) = appended w fpm (l1 ++ l2).
Proof.
  intros Hskip. unfold appended, merge_members. rewrite !fold_left_app. cbn [fold_left].
  destruct (fold_left (add_member w fpm) l1 _) as [m r].
  destruct (add_member_skips w fpm m r f Hskip) as [message ->].
  apply fold_add_member_fst.
Qed.

(** ** Every family with resolved members is processed *)

Lemma insert_sorted_perm {A K : Type} (key : A -> K) (lt : K -> K -> option bool) x l :
  forall r, insert_sorted key lt x l = Some r -> Permutation r (x :: l).
Proof.
  induction l as [|y l IH]; simpl; intros r.
  - now intros [= <-].
  - destruct (lt (key x) (key y)) as [[|]|]; try discriminate.
    + now intros [= <-].
    + destruct (insert_sorted key lt x l) as [r'|]; [|discriminate].
      intros [= <-]. rewrite (IH r' eq_refl). apply perm_swap.
Qed.

Lemma sort_loop_perm {A K : Type} (key : A -> K) (lt : K -> K -> option bool) rest :
  forall acc r, sort_loop key lt acc rest = Some r -> Permutation r (acc ++ rest).
Proof.
  induction rest as [|x rest IH]; simpl; intros acc r.
  - intros [= <-]. now rewrite app_nil_r.
  - destruct (insert_sorted key lt x acc) as [s|] eqn:Ei; [|discriminate].
    intros Hr. rewrite (IH s r Hr), (insert_sorted_perm key lt x acc s Ei).
    simpl. apply Permutation_middle.
Qed.

Lemma sort_family_perm l sorted : sort_family l = Some sorted -> Permutation sorted l.
Proof. apply (sort_loop_perm sort_key key_lt l []). Qed.

Lemma families_get_Some_In k fs ms : families_get k fs = Some ms -> In (k, ms) fs.
Proof.
  induction fs as [|[k0 l0] fs IH]; simpl; [discriminate|].
  destruct (String.eqb_spec k0 k) as [->|Hne].
  - intros [= ->]. now left.
  - intros H. right. now apply IH.
Qed.

Lemma merge_family_processing w mp p1 total k members st r sorted :
  valid_files (file_path_map p1) members <> [] ->
  sort_family (valid_files (file_path_map p1) members) = Some sorted ->
  In (EvLog ("Processing family: " +:+ k +:+ ". Files to merge (in order): "
             +:+ Py.join ", " sorted))
     (trace (snd (merge_family w mp p1 total k members st r))).
Proof.
  intros Hne Hs. unfold merge_family.
  destruct (valid_files (file_path_map p1) members) as [|x v] eqn:Ev; [congruence|].
  rewrite Hs.
  match goal with |- context [merge_members w ?fpm ?l ?r0] =>
    pose proof (merge_members_extends w fpm l r0) as Hm;
    destruct (merge_members w fpm l r0) as [m r1] end.
  cbn [snd] in Hm. apply extends_of_with in Hm.
  assert (Hin : In (EvLog ("Processing family: " +:+ k +:+ ". Files to merge (in order): "
                           +:+ Py.join ", " sorted)) (trace r1)).
  { eapply extends_In; [exact Hm|]. cbn [trace log_message]. apply in_or_app. right. now left. }
  destruct (0 <? files_successfully_added_to_merger m)%nat;
    [destruct (pdf_save w _ _)|]; unfold family_done; cbn [snd trace emit log_message];
    repeat (apply in_or_app; left); exact Hin.
Qed.

Lemma pass2_loop_processes w mp p1 total fs : forall st r st' r',
  pass2_loop w mp p1 total fs st r = (Returned st', r') ->
  forall k members,
    In (k, members) fs ->
    valid_files (file_path_map p1) members <> [] ->
    exists sorted,
      sort_family (valid_files (file_path_map p1) members) = Some sorted
      /\ In (EvLog ("Processing family: " +:+ k +:+ ". Files to merge (in order): "
                    +:+ Py.join ", " sorted)) (trace r').
Proof.
  induction fs as [|[k0 ms0] fs IH]; intros st r st' r' Hloop k members Hin Hne; [destruct Hin|].
  rewrite pass2_loop_cons in Hloop.
  destruct (merge_family w mp p1 total k0 ms0 st r) as [[st1|exn] r1] eqn:Em; [|discriminate].
  destruct Hin as [[= -> ->]|Hin].
  - destruct (proj1 (merge_family_returned w mp p1 total k members st r)) as [sorted Hs];
      [eauto|].
    exists sorted. split; [exact Hs|].
    pose proof (merge_family_processing w mp p1 total k members st r sorted Hne Hs) as Hlog.
    rewrite Em in Hlog. cbn [snd] in Hlog.
    pose proof (pass2_loop_extends w mp p1 total fs st1 r1) as Hext.
    rewrite Hloop in Hext. cbn [snd] in Hext.
    eapply extends_In; [eapply extends_of_with, Hext | exact Hlog].
  - eapply IH; eauto.
Qed.

(** In a run over a listing without repeated names whose Pass 2 returns,
    the resolved entries of every family are sorted and announced for the
    merge, whatever failed for the other entries. *)
Lemma resolved_members_processed w folder_path listing st r2 k :
  List.NoDup listing ->
  pass2_of w folder_path listing = (Returned st, r2) ->
  List.filter (member_pred w folder_path (pass1_state w folder_path listing) k) listing <> [] ->
  exists sorted,
    sort_family (List.filter (member_pred w folder_path (pass1_state w folder_path listing) k)
                   listing) = Some sorted
    /\ Permutation sorted
         (List.filter (member_pred w folder_path (pass1_state w folder_path listing) k) listing)
    /\ In (EvLog ("Processing family: " +:+ k +:+ ". Files to merge (in order): "
                  +:+ Py.join ", " sorted)) (trace r2).
Proof.
  intros Hnd Hloop Hne. unfold pass2_of in Hloop.
  set (p1 := pass1_state w folder_path listing) in *.
  pose proof (pass1_members w folder_path listing k Hnd) as Hmem.
  pose proof (pass1_valid_files w folder_path listing k Hnd) as Hvalid.
  fold p1 in Hmem, Hvalid.
  destruct (families_get k (families p1)) as [ms|] eqn:Eg.
  2:{ unfold members_of in Hmem. rewrite Eg in Hmem. simpl in Hmem. congruence. }
  assert (Hms : ms = members_of p1 k) by (unfold members_of; now rewrite Eg).
  apply families_get_Some_In in Eg. rewrite <- Hmem in *. rewrite <- Hms in *.
  destruct (pass2_loop_processes _ _ _ _ _ _ _ _ _ Hloop k ms Eg) as (sorted & Hs & Hlog).
  { now rewrite Hvalid. }
  rewrite Hvalid in Hs. exists sorted. split; [exact Hs|]. split; [|exact Hlog].
  now apply sort_family_perm.
Qed.

(** * Further properties of the code *)

(** ** The identifier parser *)

Lemma before_first_dot_no_dot s :
  ~ In "."%char (list_ascii_of_string (Spec.before_first_dot s)).
Proof.
  induction s as [|a s IH]; simpl; [tauto|].
  destruct (Ascii.eqb_spec a "."%char) as [->|Hne]; simpl; [tauto|].
  intros [H|H]; [congruence | tauto].
Qed.

(** X1: a family key never holds a ['.']. *)
Theorem family_key_has_no_dot (filename : string) :
  ~ In "."%char (list_ascii_of_string (extract_family_key filename)).
Proof. unfold extract_family_key. rewrite hd_split_dot. apply before_first_dot_no_dot. Qed.

Lemma length_split c s : length (Py.split c s) = S (count_char c s).
Proof.
  induction s as [|a s IH]; simpl; [reflexivity|].
  destruct (Ascii.eqb a c); simpl; [now rewrite IH|].
  destruct (Py.split c s) as [|h t]; simpl in *; [discriminate | exact IH].
Qed.

(** X2: an order key has as many tokens as the name, once its extension is
    cut, has ['.']s. *)
Theorem suffix_count_is_dot_count (filename : string) :
  length (extract_suffix_parts filename)
  = count_char "."%char (fst (OsPath.splitext filename)).
Proof.
  unfold extract_suffix_parts.
  pose proof (length_split "."%char (fst (OsPath.splitext filename))) as H.
  destruct (Py.split "."%char (fst (OsPath.splitext filename))) as [|h t]; [discriminate|].
  simpl in H. injection H as H. cbn [length]. destruct t as [|x t]; simpl in *.
  - exact H.
  - rewrite List.length_map. exact H.
Qed.

(** X3: a suffix made of decimal digits, at most 4300 of them (beyond
    which [int] refuses a string by default), becomes the integer that the
    digits write in base 10; leading zeros do not count. *)
Theorem numeric_suffix_value (d : nat) (ds : list nat) :
  Forall (fun d => (d < 10)%nat) (d :: ds) ->
  (length (d :: ds) <= 4300)%nat ->
  suffix_token (digits_string (d :: ds)) = TInt (decimal_value (d :: ds) 0).
Proof. intros H _. unfold suffix_token. now rewrite (int_of_decimal d ds H). Qed.

Lemma numeric_suffix_value_witness :
  suffix_token "0012" = TInt 12 /\ suffix_token "12" = TInt 12.
Proof.
  split.
  - apply (numeric_suffix_value 0 [0; 1; 2]%nat); [repeat constructor | simpl; lia].
  - apply (numeric_suffix_value 1 [2]%nat); [repeat constructor | simpl; lia].
Defined.

Lemma all_space_int_chars s : Py.all_space s = true -> all_chars int_char s = true.
Proof.
  induction s as [|a s IH]; simpl; [reflexivity|]. intros H.
  apply andb_prop in H as [Ha Hs]. unfold int_char. rewrite Ha. simpl. auto.
Qed.

Lemma int_digits_int_chars s : forall acc b z,
  Py.int_digits s acc b = Some z -> all_chars int_char s = true.
Proof.
  induction s as [|a s IH]; intros acc b z; simpl; [reflexivity|].
  unfold int_char at 1.
  destruct (Py.digit_value a) as [d|] eqn:Ed; simpl.
  - intros H. rewrite orb_true_r. simpl. eauto.
  - destruct (Py.is_underscore a) eqn:Eu.
    + destruct b; [discriminate|]. intros H. rewrite orb_true_r. simpl. eauto.
    + destruct b; [discriminate|].
      destruct (Py.is_space a && Py.all_space s) eqn:Es; [|discriminate].
      intros _. apply andb_prop in Es as [Ea Es]. rewrite Ea. simpl.
      now apply all_space_int_chars.
Qed.

Lemma int_unsigned_int_chars s z :
  Py.int_unsigned s = Some z -> all_chars int_char s = true.
Proof.
  destruct s as [|a s]; simpl; [discriminate|].
  unfold int_char at 1. destruct (Py.digit_value a) as [d|]; [|discriminate].
  intros H. rewrite orb_true_r. simpl. eapply int_digits_int_chars; eauto.
Qed.

Lemma lstrip_int_chars s :
  all_chars int_char (Py.lstrip s) = true -> all_chars int_char s = true.
Proof.
  induction s as [|a s IH]; simpl; [reflexivity|].
  destruct (Py.is_space a) eqn:Ea; [|exact (fun H => H)].
  intros H. unfold int_char at 1. rewrite Ea. simpl. auto.
Qed.

Lemma int_int_chars s z : Py.int s = Some z -> all_chars int_char s = true.
Proof.
  unfold Py.int. intros H. apply lstrip_int_chars.
  destruct (Py.lstrip s) as [|a s']; [discriminate|].
  destruct (Ascii.eqb a "+"%char) eqn:Ep.
  - simpl. unfold int_char at 1. rewrite Ep, orb_true_r. simpl.
    eapply int_unsigned_int_chars; eauto.
  - destruct (Ascii.eqb a "-"%char) eqn:Em.
    + simpl. unfold int_char at 1. rewrite Em, orb_true_r. simpl.
      destruct (Py.int_unsigned s') as [z'|] eqn:Eu; [|discriminate].
      eapply int_unsigned_int_chars; eauto.
    + eapply int_unsigned_int_chars; eauto.
Qed.

(** X4: a suffix that holds any character other than a decimal digit, white
    space, an underscore or a sign is kept as it is, as a string token. *)
Theorem lettered_suffix_kept (part : string) :
  all_chars int_char part = false -> suffix_token part = TStr part.
Proof.
  intros H. unfold suffix_token. destruct (Py.int part) as [z|] eqn:E; [|reflexivity].
  apply int_int_chars in E. congruence.
Qed.

Lemma lettered_suffix_kept_witness : suffix_token "0001a" = TStr "0001a".
Proof. apply lettered_suffix_kept. reflexivity. Defined.

(** ** The sort of a family *)

(** X5: when the sort returns, it returns the members it was given, each as
    often as it was given. *)
Theorem sort_keeps_members (members sorted : list string) :
  sort_family members = Some sorted -> Permutation sorted members.
Proof. apply sort_family_perm. Qed.

Lemma sort_keeps_members_witness :
  Permutation ["A.pdf"; "A.1.pdf"; "A.2.pdf"] ["A.2.pdf"; "A.pdf"; "A.1.pdf"].
Proof. apply (sort_keeps_members ["A.2.pdf"; "A.pdf"; "A.1.pdf"]). reflexivity. Defined.

(** X6: sorting a family that is already in merge order changes nothing. *)
Theorem sort_family_idempotent (members sorted : list string) :
  (forall x y, In x members -> In y members ->
     Spec.comparable (extract_suffix_parts x) (extract_suffix_parts y) = true) ->
  sort_family members = Some sorted ->
  sort_family sorted = Some sorted.
Proof.
  intros Hc Hsort.
  destruct (py_sort_spec sort_key key_lt key_ltb key_eqb key_ltb_irrefl key_ltb_asym
              key_ltb_trans (fun a b => proj1 (key_eqb_eq a b)) members)
    as (sorted' & Hsort' & Hperm & Hss & _).
  { intros x y Hx Hy. apply key_lt_comparable. simpl. now apply Hc. }
  unfold sort_family in Hsort. rewrite Hsort in Hsort'. injection Hsort' as <-.
  assert (Hc' : forall x y, In x sorted -> In y sorted ->
             Spec.comparable (extract_suffix_parts x) (extract_suffix_parts y) = true).
  { intros x y Hx Hy. apply Hc; eapply Permutation_in; eauto. }
  destruct (py_sort_spec sort_key key_lt key_ltb key_eqb key_ltb_irrefl key_ltb_asym
              key_ltb_trans (fun a b => proj1 (key_eqb_eq a b)) sorted)
    as (again & Hagain & _).
  { intros x y Hx Hy. apply key_lt_comparable. simpl. now apply Hc'. }
  fold (sort_family sorted) in Hagain. rewrite Hagain. f_equal. symmetry.
  apply (sort_family_unique sorted again sorted Hagain Hc' Hss). reflexivity.
Qed.

Lemma sort_family_idempotent_witness :
  sort_family ["A.pdf"; "A.2.pdf"; "A.10.pdf"] = Some ["A.pdf"; "A.2.pdf"; "A.10.pdf"].
Proof.
  apply (sort_family_idempotent ["A.10.pdf"; "A.pdf"; "A.2.pdf"]); [|reflexivity].
  intros x y Hx Hy. simpl in Hx, Hy.
  repeat (destruct Hx as [<-|Hx]; [repeat (destruct Hy as [<-|Hy]; [reflexivity|]); destruct Hy|]).
  destruct Hx.
Defined.

Lemma same_kind_false_neq a b : Spec.same_kind a b = false -> token_eqb a b = false.
Proof. destruct a, b; simpl; congruence. Qed.

Lemma token_lt_none a b : token_lt a b = None <-> Spec.same_kind a b = false.
Proof. destruct a, b; simpl; split; congruence. Qed.

Lemma list_lt_none l1 : forall l2,
  list_lt l1 l2 = None
  <-> exists pre a b t1 t2,
        l1 = pre ++ a :: t1 /\ l2 = pre ++ b :: t2 /\ Spec.same_kind a b = false.
Proof.
  induction l1 as [|x l1 IH]; intros [|y l2]; simpl.
  - split; [discriminate|]. intros (pre & a & b & t1 & t2 & H & _). destruct pre; discriminate.
  - split; [discriminate|]. intros (pre & a & b & t1 & t2 & H & _). destruct pre; discriminate.
  - split; [discriminate|]. intros (pre & a & b & t1 & t2 & _ & H & _). destruct pre; discriminate.
  - destruct (token_eqb x y) eqn:E.
    + apply token_eqb_eq in E. subst y. rewrite IH. split.
      * intros (pre & a & b & t1 & t2 & -> & -> & Hk). now exists (x :: pre), a, b, t1, t2.
      * intros (pre & a & b & t1 & t2 & H1 & H2 & Hk). destruct pre as [|z pre]; simpl in *.
        -- injection H1 as <- _. injection H2 as <- _.
           destruct x; discriminate.
        -- injection H1 as <- ->. injection H2 as ->. now exists pre, a, b, t1, t2.
    + rewrite token_lt_none. split.
      * intros Hk. now exists [], x, y, l1, l2.
      * intros (pre & a & b & t1 & t2 & H1 & H2 & Hk). destruct pre as [|z pre]; simpl in *.
        -- injection H1 as -> _. injection H2 as -> _. exact Hk.
        -- injection H1 as -> _. injection H2 as -> _.
           rewrite (proj2 (token_eqb_eq z z) eq_refl) in E. discriminate.
Qed.

(** X7: the comparison of the sort keys of two members raises exactly when
    their order keys have the same number of tokens and, at the first
    position where they differ, one holds an integer and the other a
    string. *)
Theorem key_comparison_raises_iff (x y : string) :
  key_lt (sort_key x) (sort_key y) = None
  <-> length (extract_suffix_parts x) = length (extract_suffix_parts y)
      /\ exists pre a b t1 t2,
           extract_suffix_parts x = pre ++ a :: t1
           /\ extract_suffix_parts y = pre ++ b :: t2
           /\ Spec.same_kind a b = false.
Proof.
  unfold key_lt, sort_key. cbn [fst snd].
  destruct (Nat.eqb_spec (length (extract_suffix_parts x)) (length (extract_suffix_parts y)))
    as [E|E]; cbn [negb].
  - destruct (list_eqb (extract_suffix_parts x) (extract_suffix_parts y)) eqn:El.
    + apply list_eqb_eq in El. split; [discriminate|].
      intros (_ & pre & a & b & t1 & t2 & H1 & H2 & Hk). rewrite El, H2 in H1.
      apply app_inv_head in H1. injection H1 as -> _. destruct a; discriminate.
    + rewrite list_lt_none. tauto.
  - split; [discriminate | tauto].
Qed.

(** ** Pass 1 *)

(** X8: directories and entries whose lower-cased name starts with
    [tmp_merger_] are ignored altogether: Pass 1 leaves the same families,
    paths, placeholders, flags and log as on the listing without them. *)
Theorem pass1_ignores_skipped (w : World) (folder_path : string) (listing : list string)
    (st : Pass1 * Run) :
  pass1_loop w folder_path listing st
  = pass1_loop w folder_path
      (List.filter (fun f => negb (skipped w folder_path f)) listing) st.
Proof.
  revert st. induction listing as [|f l IH]; intros [s r]; [reflexivity|].
  unfold pass1_loop in *. cbn [fold_left List.filter].
  destruct (skipped w folder_path f) eqn:Hs; cbn [negb].
  - rewrite (pass1_step_skipped w folder_path s r f Hs). apply IH.
  - cbn [fold_left]. apply IH.
Qed.

(** X9: every PDF entry of the listing that is not skipped is resolved to
    its own path in the source folder. *)
Theorem pdf_entry_resolved_to_own_path (w : World) (folder_path : string)
    (listing : list string) (f : string) :
  In f listing -> skipped w folder_path f = false -> is_pdf f = true ->
  file_path_map (pass1_state w folder_path listing) !! f
  = Some (OsPath.join folder_path f).
Proof.
  intros Hin Hskip Hpdf. induction listing as [|g l IH] using rev_ind; [destruct Hin|].
  assert (Hl : g <> f -> In f l).
  { intros Hne. apply in_app_or in Hin as [Hin|[Hin|[]]]; [exact Hin | congruence]. }
  destruct (pass1_snoc_cases w folder_path l g)
    as [(Hs & ->)|[(Hs & Hp & ->)|[(p & Hn & _ & _ & _ & ->)|(Hn & _ & _ & ->)]]];
    cbn [file_path_map].
  - apply IH, Hl. congruence.
  - destruct (decide (g = f)) as [->|Hne].
    + apply lookup_insert_eq.
    + rewrite lookup_insert_ne by exact Hne. auto.
  - assert (Hne : g <> f).
    { intros ->. apply is_native_inv in Hn as [_ Hn]. congruence. }
    rewrite lookup_insert_ne by exact Hne. auto.
  - assert (Hne : g <> f).
    { intros ->. apply is_native_inv in Hn as [_ Hn]. congruence. }
    auto.
Qed.

Lemma pdf_entry_resolved_to_own_path_witness :
  file_path_map (pass1_state (fair_world ["A.doc"; "A.1.PDF"]) "/src" ["A.doc"; "A.1.PDF"])
    !! "A.1.PDF"
  = Some "/src/A.1.PDF".
Proof.
  apply (pdf_entry_resolved_to_own_path (fair_world ["A.doc"; "A.1.PDF"]) "/src"
           ["A.doc"; "A.1.PDF"] "A.1.PDF"); [simpl; auto | reflexivity | reflexivity].
Defined.

(** X10: a name of the listing has a resolved path after Pass 1 exactly when
    one of its entries is not skipped and is a PDF or a native whose
    placeholder was made. *)
Theorem resolved_iff_pdf_or_synthesized (w : World) (folder_path : string)
    (listing : list string) (g : string) :
  is_Some (file_path_map (pass1_state w folder_path listing) !! g)
  <-> exists pre post,
        listing = pre ++ g :: post
        /\ skipped w folder_path g = false
        /\ (is_pdf g = true \/ synth_ok w folder_path pre g = true).
Proof.
  rewrite <- (bool_decide_eq_true (is_Some _)).
  fold (resolved (pass1_state w folder_path listing) g). rewrite pass1_resolved.
  split.
  - intros (pre & f & post & -> & -> & H). eauto.
  - intros (pre & post & -> & H). exists pre, g, post. auto.
Qed.

(** X11: the placeholders registered for deletion are exactly the paths that
    the provider returned for the native entries of the listing. *)
Theorem registered_placeholders (w : World) (folder_path : string) (listing : list string)
    (p : string) :
  p ∈ placeholder_files_to_delete (pass1_state w folder_path listing)
  <-> exists pre f post,
        listing = pre ++ f :: post
        /\ is_native w folder_path f = true
        /\ truthy_path
             (create_placeholder_pdf w (placeholder_calls (pass1_state w folder_path pre))
                (fst (OsPath.splitext f))) = Some p.
Proof.
  change (p ∈ placeholder_files_to_delete (pass1_state w folder_path listing)
          <-> occurs (fun pre f =>
                is_native w folder_path f = true
                /\ truthy_path
                     (create_placeholder_pdf w
                        (placeholder_calls (pass1_state w folder_path pre))
                        (fst (OsPath.splitext f))) = Some p) listing).
  induction listing as [|f l IH] using rev_ind.
  - split; [intros H; now apply not_elem_of_empty in H | intros H; now apply occurs_nil in H].
  - rewrite occurs_snoc, <- IH.
    destruct (pass1_snoc_cases w folder_path l f)
      as [(Hs & ->)|[(Hs & Hp & ->)|[(p0 & Hn & _ & Hc & _ & ->)|(Hn & _ & Hok & ->)]]];
      cbn [placeholder_files_to_delete].
    + rewrite (is_native_skipped _ _ _ Hs). intuition discriminate.
    + rewrite (is_native_pdf _ _ _ Hp). intuition discriminate.
    + rewrite elem_of_union, elem_of_singleton, Hc. split.
      * intros [->|H]; auto.
      * intros [H|[_ [= ->]]]; auto.
    + rewrite (synth_ok_false _ _ _ _ Hok). intuition discriminate.
Qed.

Lemma keys_setdefault_append k f fs :
  map fst (setdefault_append k f fs)
  = if existsb (String.eqb k) (map fst fs) then map fst fs else map fst fs ++ [k].
Proof.
  induction fs as [|[k0 l0] fs IH]; simpl; [reflexivity|].
  rewrite (String.eqb_sym k k0). destruct (String.eqb k0 k); simpl; [reflexivity|].
  rewrite IH. now destruct (existsb (String.eqb k) (map fst fs)).
Qed.

Lemma keys_families_remove k f fs : map fst (families_remove k f fs) = map fst fs.
Proof.
  induction fs as [|[k0 l0] fs IH]; simpl; [reflexivity|].
  destruct (String.eqb k0 k); simpl; [reflexivity | now rewrite IH].
Qed.

Lemma first_seen_snoc l k :
  first_seen (l ++ [k])
  = if existsb (String.eqb k) (first_seen l) then first_seen l else first_seen l ++ [k].
Proof. unfold first_seen. now rewrite fold_left_app. Qed.

(** X12: the families are kept, and so visited by Pass 2, in the order in
    which their keys first appear among the entries that are not skipped;
    a family stays in that order even when all its members are removed. *)
Theorem family_order_first_seen (w : World) (folder_path : string) (listing : list string) :
  map fst (families (pass1_state w folder_path listing))
  = first_seen
      (map extract_family_key
         (List.filter (fun f => negb (skipped w folder_path f)) listing)).
Proof.
  induction listing as [|f l IH] using rev_ind; [reflexivity|].
  rewrite List.filter_app. cbn [List.filter].
  destruct (pass1_snoc_cases w folder_path l f)
    as [(Hs & ->)|[(Hs & Hp & ->)|[(p & _ & Hs & _ & _ & ->)|(_ & Hs & _ & ->)]]];
    rewrite Hs; cbn [negb families].
  - now rewrite app_nil_r.
  - rewrite List.map_app. cbn [List.map].
    now rewrite first_seen_snoc, keys_setdefault_append, IH.
  - rewrite List.map_app. cbn [List.map].
    now rewrite first_seen_snoc, keys_setdefault_append, IH.
  - rewrite List.map_app. cbn [List.map].
    now rewrite first_seen_snoc, keys_families_remove, keys_setdefault_append, IH.
Qed.

(** X13: in a listing without repeated names, every entry is a member of at
    most one family and at most once: the member list of a family has no
    repetition and holds exactly the resolved, not skipped entries whose
    family key is the family's. *)
Theorem members_of_one_family (w : World) (folder_path : string) (listing : list string)
    (k : string) :
  List.NoDup listing ->
  let p1 := pass1_state w folder_path listing in
  List.NoDup (members_of p1 k)
  /\ forall g, In g (members_of p1 k)
               <-> In g listing /\ skipped w folder_path g = false
                   /\ extract_family_key g = k /\ resolved p1 g = true.
Proof.
  intros Hnd p1. unfold p1. rewrite (pass1_members w folder_path listing k Hnd). split.
  - now apply List.NoDup_filter.
  - intros g. rewrite List.filter_In. unfold member_pred.
    rewrite !andb_true_iff, negb_true_iff, String.eqb_eq. tauto.
Qed.

Lemma members_of_one_family_witness :
  let listing := ["B.pdf"; "A.1.pdf"; "tmp_merger_x.pdf"; "A.pdf"] in
  List.NoDup (members_of (pass1_state (fair_world listing) "/src" listing) "A")
  /\ members_of (pass1_state (fair_world listing) "/src" listing) "A" = ["A.1.pdf"; "A.pdf"].
Proof.
  intros listing.
  destruct (members_of_one_family (fair_world listing) "/src" listing "A") as [H _].
  - repeat constructor; simpl; intuition discriminate.
  - split; [exact H | vm_compute; reflexivity].
Defined.

(** ** Pass 2 *)

Lemma fold_add_member_pages w fpm l : forall m r,
  fst (fold_left (add_member w fpm) l (m, r))
  = {| final_merged_pdf := final_merged_pdf m ++ flat_map (member_pages w fpm) l;
       files_successfully_added_to_merger :=
         files_successfully_added_to_merger m
         + length (List.filter (gives_pages w fpm) l) |}.
Proof.
  induction l as [|f l IH]; intros m r.
  - simpl. rewrite app_nil_r, Nat.add_0_r. now destruct m.
  - cbn [fold_left flat_map List.filter].
    assert (Hstep : exists r',
      add_member w fpm (m, r) f
      = ({| final_merged_pdf := final_merged_pdf m ++ member_pages w fpm f;
            files_successfully_added_to_merger :=
              files_successfully_added_to_merger m
              + (if gives_pages w fpm f then 1 else 0) |}, r')).
    { unfold add_member, gives_pages, member_pages.
      destruct (truthy_path (fpm !! f)) as [path|];
        [|eexists; rewrite app_nil_r, Nat.add_0_r; destruct m; reflexivity].
      destruct (exists_pass2 w path); cbn [negb];
        [|eexists; rewrite app_nil_r, Nat.add_0_r; destruct m; reflexivity].
      destruct (pdf_open w path) as [e|e|[|pg pages]];
        try (eexists; rewrite app_nil_r, Nat.add_0_r; destruct m; reflexivity).
      eexists. rewrite Nat.add_1_r. reflexivity. }
    destruct Hstep as [r' ->]. rewrite IH. cbn [final_merged_pdf files_successfully_added_to_merger].
    rewrite <- app_assoc. f_equal.
    destruct (gives_pages w fpm f); cbn [length]; lia.
Qed.

(** X14: the document of a family is made of the pages of its members, in
    merge order, each member giving the pages of its file when the file is
    resolved, exists and opens; the count is the number of members that gave
    at least one page. *)
Theorem merged_document_is_concatenation (w : World) (fpm : gmap string string)
    (sorted : list string) (r : Run) :
  fst (merge_members w fpm sorted r)
  = {| final_merged_pdf := flat_map (member_pages w fpm) sorted;
       files_successfully_added_to_merger :=
         length (List.filter (gives_pages w fpm) sorted) |}.
Proof. unfold merge_members. now rewrite fold_add_member_pages. Qed.

(** X15: a member that gives no page (no resolved path, a missing or
    unreadable file, a document without pages) costs one log line and leaves
    the document and the count as they were; the loop goes on with the next
    member. *)
Theorem member_without_pages_is_skipped (w : World) (fpm : gmap string string)
    (m : Merger) (r : Run) (fname : string) :
  member_pages w fpm fname = [] ->
  exists message, add_member w fpm (m, r) fname = (m, log_message message r).
Proof.
  unfold member_pages, add_member.
  destruct (truthy_path (fpm !! fname)) as [path|]; [|eauto].
  destruct (exists_pass2 w path); cbn [negb]; [|eauto].
  destruct (pdf_open w path) as [e|e|[|pg pages]]; eauto. discriminate.
Qed.

Lemma member_without_pages_is_skipped_witness :
  exists message,
    add_member (fair_world ["A.pdf"]) ∅
      ({| final_merged_pdf := [7%nat]; files_successfully_added_to_merger := 1 |}, run0)
      "A.1.pdf"
    = ({| final_merged_pdf := [7%nat]; files_successfully_added_to_merger := 1 |},
       log_message message run0).
Proof. apply member_without_pages_is_skipped. reflexivity. Defined.

Lemma progress_extends_log r r' :
  extends_with is_log r r' ->
  List.filter is_progress (trace r') = List.filter is_progress (trace r).
Proof. apply extends_with_filter. now intros []. Qed.

Lemma merge_family_progress w mp p1 total k members st r st1 r1 :
  merge_family w mp p1 total k members st r = (Returned st1, r1) ->
  processed_families_count st1 = S (processed_families_count st)
  /\ List.filter is_progress (trace r1)
     = List.filter is_progress (trace r)
       ++ [EvProgress (S (processed_families_count st)) total].
Proof.
  unfold merge_family.
  destruct (valid_files (file_path_map p1) members) as [|x v].
  { intros [= <- <-]. split; [reflexivity|]. cbn [snd family_done trace emit log_message].
    rewrite !List.filter_app. simpl. now rewrite app_nil_r. }
  destruct (sort_family (x :: v)) as [sorted|]; [|discriminate].
  match goal with |- context [merge_members w ?fpm ?l ?r0] =>
    pose proof (merge_members_extends w fpm l r0) as Hm;
    destruct (merge_members w fpm l r0) as [m r2] end.
  cbn [snd] in Hm. apply progress_extends_log in Hm.
  cbn [trace log_message] in Hm. rewrite List.filter_app in Hm. simpl in Hm.
  rewrite app_nil_r in Hm.
  destruct (0 <? files_successfully_added_to_merger m)%nat;
    [destruct (pdf_save w _ _)|]; intros [= <- <-];
    (split; [reflexivity|]); cbn [snd family_done trace emit log_message
      processed_families_count]; rewrite !List.filter_app, Hm; simpl;
    now rewrite ?app_nil_r.
Qed.

Lemma pass2_loop_progress w mp p1 total fs : forall st r st' r',
  pass2_loop w mp p1 total fs st r = (Returned st', r') ->
  processed_families_count st' = (processed_families_count st + length fs)%nat
  /\ List.filter is_progress (trace r')
     = List.filter is_progress (trace r)
       ++ map (fun i => EvProgress i total)
            (seq (S (processed_families_count st)) (length fs)).
Proof.
  induction fs as [|[k members] fs IH]; intros st r st' r' Hloop.
  - injection Hloop as <- <-. simpl. now rewrite app_nil_r, Nat.add_0_r.
  - rewrite pass2_loop_cons in Hloop.
    destruct (merge_family w mp p1 total k members st r) as [[st1|exn] r1] eqn:Em;
      [|discriminate].
    destruct (merge_family_progress _ _ _ _ _ _ _ _ _ _ Em) as [Hc Hp].
    destruct (IH _ _ _ _ Hloop) as [Hc' Hp']. rewrite Hc', Hp', Hp, Hc.
    split; [simpl; lia|]. cbn [length seq map]. now rewrite <- app_assoc.
Qed.

(** X16: in a run whose Pass 2 returns, the progress callback is called once
    for each family, in order, with the counts 1, 2, ... and the number of
    families, whether or not the family gave an output. *)
Theorem progress_counts_every_family (w : World) (folder_path : string)
    (listing : list string) (st : Pass2) (r2 : Run) :
  pass2_of w folder_path listing = (Returned st, r2) ->
  let n := length (families (pass1_state w folder_path listing)) in
  processed_families_count st = n
  /\ List.filter is_progress (trace r2) = map (fun i => EvProgress i n) (seq 1 n).
Proof.
  intros Hloop n. unfold pass2_of in Hloop.
  destruct (pass2_loop_progress _ _ _ _ _ _ _ _ _ Hloop) as [Hc Hp]. fold n in Hc, Hp.
  split; [exact Hc|]. rewrite Hp.
  destruct (extends_run0 _ _ (run_at_pass2_extends w folder_path listing)) as [_ Hall].
  rewrite (filter_none pass1_event is_progress); [reflexivity | now intros [] | exact Hall].
Qed.

Lemma progress_counts_every_family_witness :
  let listing := ["A.pdf"; "B.doc"; "C.1.pdf"] in
  exists st r2,
    pass2_of (no_placeholder_world listing) "/src" listing = (Returned st, r2)
    /\ List.filter is_progress (trace r2) = [EvProgress 1 3; EvProgress 2 3; EvProgress 3 3].
Proof.
  intros listing.
  destruct (pass2_of (no_placeholder_world listing) "/src" listing) as [[st|exn] r2] eqn:E;
    [|vm_compute in E; discriminate].
  exists st, r2. split; [reflexivity|].
  destruct (progress_counts_every_family _ _ _ _ _ E) as [_ H]. exact H.
Defined.

(** X17: Pass 2 stops with an exception exactly when the sort of some
    family raises; nothing else in the pass ends the run. *)
Theorem pass2_raises_iff_sort_raises (w : World) (mp : string) (p1 : Pass1) (total : nat)
    (fs : Families) (st : Pass2) (r : Run) :
  (exists exn r', pass2_loop w mp p1 total fs st r = (Raised exn, r'))
  <-> exists k members,
        In (k, members) fs
        /\ sort_family (valid_files (file_path_map p1) members) = None.
Proof. apply pass2_loop_raises. Qed.

Lemma save_paths_saves evs : save_paths (saves evs) = save_paths evs.
Proof.
  unfold save_paths, saves. induction evs as [|e evs IH]; [reflexivity|].
  destruct e; simpl; auto. now rewrite IH.
Qed.

Lemma save_paths_app evs1 evs2 : save_paths (evs1 ++ evs2) = save_paths evs1 ++ save_paths evs2.
Proof. unfold save_paths. apply flat_map_app. Qed.

Lemma merge_results_cons w mp p1 fam fs :
  merge_results w mp p1 (fam :: fs)
  = match merge_result w mp p1 fam with
    | Some m => m :: merge_results w mp p1 fs
    | None => merge_results w mp p1 fs
    end.
Proof. reflexivity. Qed.

(** X18: in a Pass 2 that returns, the documents saved are those of the
    families that have a result, one for each, in the order of iteration,
    and no other. *)
Theorem saves_match_results (w : World) (mp : string) (p1 : Pass1) (total : nat)
    (fs : Families) (st : Pass2) (r : Run) (st' : Pass2) (r' : Run) :
  pass2_loop w mp p1 total fs st r = (Returned st', r') ->
  save_paths (trace r')
  = save_paths (trace r) ++ map mr_path (merge_results w mp p1 fs).
Proof.
  revert st r st' r'. induction fs as [|[k members] fs IH]; intros st r st' r' Hloop.
  - injection Hloop as <- <-. now rewrite app_nil_r.
  - rewrite pass2_loop_cons in Hloop.
    destruct (merge_family w mp p1 total k members st r) as [[st1|exn] r1] eqn:Em;
      [|discriminate].
    destruct (proj1 (merge_family_returned w mp p1 total k members st r)) as [sorted Hs];
      [eauto|].
    destruct (merge_family_sorted w mp p1 total k members st r sorted Hs) as [_ Hsaves].
    rewrite Em in Hsaves. cbn [snd] in Hsaves.
    rewrite (IH _ _ _ _ Hloop). rewrite <- (save_paths_saves (trace r1)), Hsaves.
    rewrite save_paths_app, save_paths_saves, <- app_assoc. f_equal.
    rewrite merge_results_cons.
    destruct (merge_result w mp p1 (k, members)); reflexivity.
Qed.

Lemma saves_match_results_witness :
  let listing := ["A.pdf"; "B.doc"; "C.1.pdf"] in
  exists st r2,
    pass2_of (no_placeholder_world listing) "/src" listing = (Returned st, r2)
    /\ save_paths (trace r2)
       = ["/src/Merged Output/Merged PDFs/A.pdf"; "/src/Merged Output/Merged PDFs/C.1.pdf"].
Proof.
  intros listing.
  destruct (pass2_of (no_placeholder_world listing) "/src" listing) as [[st|exn] r2] eqn:E;
    [|vm_compute in E; discriminate].
  exists st, r2. split; [reflexivity|].
  unfold pass2_of in E. rewrite (saves_match_results _ _ _ _ _ _ _ _ _ E).
  vm_compute. reflexivity.
Defined.

Lemma string_length_append a b : String.length (a +:+ b) = (String.length a + String.length b)%nat.
Proof. induction a as [|x a IH]; simpl; [reflexivity | now rewrite IH]. Qed.

Lemma append_inv_tail a : forall b c, a +:+ c = b +:+ c -> a = b.
Proof.
  induction a as [|x a IH]; intros [|y b] c H; simpl in H.
  - reflexivity.
  - apply (f_equal String.length) in H. rewrite !string_length_append in H. simpl in H. lia.
  - apply (f_equal String.length) in H. rewrite !string_length_append in H. simpl in H. lia.
  - injection H as -> H. f_equal. eapply IH; eauto.
Qed.

(** X19: documents named after members with different family keys have
    different file names, as strings: names that differ only in the case of
    their letters are different names here. *)
Theorem outputs_of_families_differ (x y : string) (xs ys : list string) :
  extract_family_key x <> extract_family_key y ->
  final_output_filename (x :: xs) <> final_output_filename (y :: ys).
Proof.
  intros Hne H. apply Hne. unfold final_output_filename in H. cbn [hd] in H.
  apply append_inv_tail in H. unfold extract_family_key. now rewrite H.
Qed.

Lemma outputs_of_families_differ_witness :
  final_output_filename ["A.1.pdf"; "A.2.pdf"] <> final_output_filename ["B.1.pdf"].
Proof. apply outputs_of_families_differ. discriminate. Defined.

(** ** The run *)

(** X20: a run that returns calls the completion callback exactly once, as
    its last effect, with [False] exactly when [os.makedirs] or [os.listdir]
    raised an [OSError]; a run that raises never calls it; and what a run
    raises is what [os.makedirs], [os.listdir] or the writing of the CSV file
    raised beside [OSError], or the [TypeError] of the sort of a family. *)
Theorem completion_reported_once (w : World) (folder_path : string) :
  match merge_pdfs_worker w folder_path with
  | (Returned _, r) =>
      exists body,
        trace r = body ++ [EvCompletion (negb (fatal w folder_path))]
        /\ List.filter is_completion body = []
  | (Raised exn, r) =>
      raised_by w folder_path exn /\ fatal w folder_path = false
      /\ List.filter is_completion (trace r) = []
  end.
Proof. apply verdict_of_run. Qed.

(** What [create_placeholder_pdf] deletes is the temporary file of a call
    that fails. *)
Lemma provider_unlink_inv pv label p removed :
  In (PvUnlink p removed) (snd (create_placeholder_pdf_steps pv label)) ->
  fst (create_placeholder_pdf_steps pv label) = None
  /\ pv_mkstemp pv ("_rl_placeholder_" +:+ label +:+ ".pdf") "tmp_merger_" = Done p.
Proof.
  unfold create_placeholder_pdf_steps.
  destruct (pv_mkstemp pv _ _) as [q|e]; [|intros [H|[]]; discriminate].
  destruct (pv_close pv) as [u|e]; [|intros [H|[]]; discriminate].
  assert (Hq : In (PvUnlink p removed) (remove_quietly pv q) -> @Done string q = Done p).
  { unfold remove_quietly. destruct (pv_exists pv q); [|intros []].
    now intros [[= -> _]|[]]. }
  destruct (pv_draw pv q label) as [u'|e].
  - destruct (pv_check pv q) as [e|e|[|pg pages]]; cbn [fst snd placeholder_invalid];
      [intros [H|H]; [discriminate | auto]..|intros []].
  - cbn [fst snd placeholder_failed truthy_path].
    intros [H|H]; [discriminate|]. split; [reflexivity|].
    destruct (Py.truthy q); [auto | destruct H].
Qed.

(** What is printed and deleted inside [create_placeholder_pdf] during
    Pass 1 comes from the calls for the native entries of the listing. *)
Lemma pass1_provider_events w folder_path l r0 pe :
  In (EvProvider pe) (trace (snd (pass1_loop w folder_path l (pass1_init, r0)))) ->
  In (EvProvider pe) (trace r0)
  \/ occurs (fun pre f =>
               is_native w folder_path f = true
               /\ In pe (snd (create_placeholder_pdf_steps
                                (provider w (placeholder_calls (pass1_state w folder_path pre)))
                                (fst (OsPath.splitext f))))) l.
Proof.
  induction l as [|f l IH] using rev_ind; [now left|].
  rewrite pass1_loop_snoc, occurs_snoc.
  pose proof (pass1_loop_state w folder_path l r0) as Hs.
  destruct (pass1_loop w folder_path l (pass1_init, r0)) as [s r]. cbn [fst snd] in *.
  subst s.
  assert (Hcall : forall r',
            In (EvProvider pe)
              (trace (placeholder_effects w (placeholder_calls (pass1_state w folder_path l))
                        (fst (OsPath.splitext f)) r')) ->
            In (EvProvider pe) (trace r')
            \/ In pe (snd (create_placeholder_pdf_steps
                             (provider w (placeholder_calls (pass1_state w folder_path l)))
                             (fst (OsPath.splitext f))))).
  { intros r' H. unfold placeholder_effects in H. cbn [trace] in H.
    apply in_app_or in H as [H|H]; [now left|]. right.
    apply in_map_iff in H as (pe' & [= ->] & H). exact H. }
  destruct (skipped w folder_path f) eqn:Hskip.
  { rewrite (pass1_step_skipped _ _ _ _ _ Hskip). cbn [snd]. intros H.
    destruct (IH H) as [H'|H']; auto. }
  destruct (is_pdf f) eqn:Hpdf.
  { rewrite (pass1_step_pdf _ _ _ _ _ Hskip Hpdf). cbn [snd]. intros H.
    destruct (IH H) as [H'|H']; auto. }
  assert (Hn : is_native w folder_path f = true) by (unfold is_native; now rewrite Hskip, Hpdf).
  destruct (truthy_path (create_placeholder_pdf w (placeholder_calls (pass1_state w folder_path l))
                           (fst (OsPath.splitext f)))) as [p|] eqn:Hc.
  - rewrite (pass1_step_native_ok _ _ _ _ _ p Hskip Hpdf Hc). cbn [snd]. intros H.
    apply Hcall in H as [H|H]; [|auto].
    cbn [trace log_message] in H. apply in_app_or in H as [H|[H|[]]]; [|discriminate].
    destruct (IH H) as [H'|H']; auto.
  - rewrite (pass1_step_native_fail _ _ _ _ _ Hskip Hpdf Hc). cbn [snd trace log_message].
    intros H. apply in_app_or in H as [H|[H|[]]]; [|discriminate].
    apply Hcall in H as [H|H]; [|auto].
    cbn [trace log_message] in H. apply in_app_or in H as [H|[H|[]]]; [|discriminate].
    destruct (IH H) as [H'|H']; auto.
Qed.

(** After Pass 1 nothing is printed or deleted by [create_placeholder_pdf]. *)
Lemma provider_events_of_run w folder_path u listing r :
  make_output_dirs w (base_output_folder folder_path) (merged_pdfs_output_path folder_path)
    (qc_docs_output_path folder_path) = Returns u ->
  os_listdir w folder_path = Returns listing ->
  merge_pdfs_worker w folder_path = (Returned tt, r) ->
  List.filter is_provider (trace r)
  = List.filter is_provider
      (trace (snd (pass1_loop w folder_path listing (pass1_init, run_at_pass1 folder_path)))).
Proof.
  intros Hd Hl Hrun.
  destruct (worker_returned w folder_path u listing r Hd Hl Hrun)
    as (st & r2 & r3 & E2 & Ew & ->).
  apply (extends_with_filter (fun e => negb (is_provider e))).
  { intros e He. now apply negb_true_iff in He. }
  eapply extends_with_trans; [|apply extends_with_emit; reflexivity].
  eapply extends_with_trans;
    [|eapply extends_with_weaken; [|apply cleanup_extends]; now intros []].
  pose proof (write_log_extends w (base_output_folder folder_path)
                (run_before_log w folder_path (pass1_state w folder_path listing) st r2)) as Hw.
  rewrite Ew in Hw. cbn [snd] in Hw.
  eapply extends_with_trans; [|eapply extends_with_weaken; [|exact Hw]; now intros []].
  eapply extends_with_trans;
    [|eapply extends_with_weaken; [|apply run_before_log_qc]; now intros []].
  unfold pass2_of in E2.
  pose proof (pass2_loop_extends w (merged_pdfs_output_path folder_path)
                (pass1_state w folder_path listing)
                (length (families (pass1_state w folder_path listing)))
                (families (pass1_state w folder_path listing)) pass2_init
                (run_at_pass2 w folder_path listing)) as Hp.
  rewrite E2 in Hp. cbn [snd] in Hp.
  eapply extends_with_trans; [|eapply extends_with_weaken; [|exact Hp]; now intros []].
  unfold run_at_pass2. ext.
Qed.

(** X21: in a run that passes the fatal checks and returns, the cleanup of
    the worker deletes the registered placeholders that exist at the cleanup
    and that [os.unlink] removes, each once, and nothing else; the other
    deletions of the run are those that [create_placeholder_pdf] attempts,
    during Pass 1, on the temporary file of a call that failed for a native
    entry of the listing. *)
Theorem placeholders_unlinked_once (w : World) (folder_path : string) (listing : list string)
    (r : Run) :
  make_output_dirs w (base_output_folder folder_path) (merged_pdfs_output_path folder_path)
    (qc_docs_output_path folder_path) = Returns tt ->
  os_listdir w folder_path = Returns listing ->
  merge_pdfs_worker w folder_path = (Returned tt, r) ->
  (forall p, In (EvUnlink p) (trace r)
             <-> p ∈ placeholder_files_to_delete (pass1_state w folder_path listing)
                 /\ exists_cleanup w p = true /\ is_done (os_unlink w p) = true)
  /\ List.NoDup (List.filter is_unlink (trace r))
  /\ (forall p removed,
        In (EvProvider (PvUnlink p removed)) (trace r) ->
        exists pre f post,
          listing = pre ++ f :: post
          /\ is_native w folder_path f = true
          /\ synth_ok w folder_path pre f = false
          /\ pv_mkstemp (provider w (placeholder_calls (pass1_state w folder_path pre)))
               ("_rl_placeholder_" +:+ fst (OsPath.splitext f) +:+ ".pdf") "tmp_merger_"
             = Done p).
Proof.
  intros Hd Hl Hrun.
  destruct (unlinks_of_run w folder_path tt listing r Hd Hl Hrun) as [Hu Hnd].
  split; [|split].
  - intros p.
    assert (E : In (EvUnlink p) (trace r) <-> In (EvUnlink p) (List.filter is_unlink (trace r))).
    { rewrite List.filter_In. intuition. }
    rewrite E, Hu, in_map_iff. split.
    + intros (q & [= ->] & Hq). apply List.filter_In in Hq as [Hq Hok].
      apply andb_prop in Hok as [H1 H2]. split; [|now split].
      now apply (set_iteration_In w).
    + intros (Hin & H1 & H2). exists p. split; [reflexivity|].
      apply List.filter_In. split; [now apply set_iteration_In|]. now rewrite H1, H2.
  - rewrite Hu. apply Finite.Injective_map_NoDup; [now intros x y [= ->]|].
    now apply List.NoDup_filter.
  - intros p removed Hin.
    assert (Hin' : In (EvProvider (PvUnlink p removed)) (List.filter is_provider (trace r))).
    { apply List.filter_In. now split. }
    rewrite (provider_events_of_run w folder_path tt listing r Hd Hl Hrun) in Hin'.
    apply List.filter_In in Hin' as [Hin' _].
    apply pass1_provider_events in Hin' as [H|(pre & f & post & Heq & Hn & Hpe)].
    + unfold run_at_pass1 in H. cbn [trace log_message app] in H.
      destruct H as [H|[H|[]]]; discriminate.
    + apply provider_unlink_inv in Hpe as [Hnone Hmk].
      exists pre, f, post. repeat split; auto.
      unfold synth_ok, placeholder_ok, create_placeholder_pdf. now rewrite Hnone.
Qed.

Lemma placeholders_unlinked_once_witness :
  In (EvUnlink "/tmp/tmp_merger_0_rl_placeholder_A.1.pdf")
     (trace (snd (merge_pdfs_worker (fair_world ["A.pdf"; "A.1.doc"]) "/src"))).
Proof.
  apply (placeholders_unlinked_once (fair_world ["A.pdf"; "A.1.doc"]) "/src"
           ["A.pdf"; "A.1.doc"]
           (snd (merge_pdfs_worker (fair_world ["A.pdf"; "A.1.doc"]) "/src")));
    [reflexivity | reflexivity | vm_compute; reflexivity |].
  split; [vm_compute; reflexivity | split; reflexivity].
Defined.

Lemma worker_extends w folder_path :
  extends run0 (snd (merge_pdfs_worker w folder_path)).
Proof.
  destruct (make_output_dirs w (base_output_folder folder_path)
              (merged_pdfs_output_path folder_path) (qc_docs_output_path folder_path))
    as [u|e|exn] eqn:Ed.
  2:{ rewrite (worker_fatal_dirs w folder_path e Ed). cbn [snd]. unfold extends. ext. }
  2:{ rewrite (worker_raises_dirs w folder_path exn Ed). apply extends_refl. }
  destruct (os_listdir w folder_path) as [listing|e|exn] eqn:El.
  2:{ rewrite (worker_fatal_listdir w folder_path u e Ed El). cbn [snd]. unfold extends. ext. }
  2:{ rewrite (worker_raises_listdir w folder_path u exn Ed El). cbn [snd].
      unfold extends. ext. }
  rewrite (worker_passes w folder_path u listing Ed El).
  destruct (pass2_of w folder_path listing) as [[st|exn] r2] eqn:E2; cbn [snd].
  - destruct (write_log _ _ _) as [[u'|exn] r3] eqn:Ew; cbn [snd].
    + unfold extends. eapply extends_with_trans; [|apply extends_with_emit; reflexivity].
      apply (run_body_extends (fun _ => true) w folder_path listing st r2 u' r3); auto.
    + pose proof (run_log_extends (fun _ => true) w folder_path listing st r2
                    ltac:(auto) ltac:(auto) E2) as H.
      rewrite Ew in H. exact H.
  - eapply extends_of_with. pose proof (pass2_of_extends w folder_path listing) as H.
    rewrite E2 in H. exact H.
Qed.

(** X22: at every end of a run, returned or raised, the rows collected for
    the CSV file are the lines given to the log callback, in the same
    order. *)
Theorem log_rows_match_callback (w : World) (folder_path : string) :
  local_log_entries (snd (merge_pdfs_worker w folder_path))
  = log_rows (trace (snd (merge_pdfs_worker w folder_path))).
Proof. apply (extends_run0 (fun _ => true)), worker_extends. Qed.

Lemma truthy_path_Some o s : truthy_path o = Some s -> o = Some s /\ Py.truthy s = true.
Proof.
  destruct o as [p|]; simpl; [|discriminate].
  destruct (Py.truthy p) eqn:E; [|discriminate]. now intros [= <-].
Qed.

Lemma nodup_one {A : Type} (a : A) : List.NoDup [a].
Proof. constructor; [intros [] | constructor]. Qed.

Lemma nodup_two {A : Type} (a b : A) : a <> b -> List.NoDup [a; b].
Proof. intros H. constructor; [intros [E|[]]; congruence | apply nodup_one]. Qed.

(** X23: the QC selection copies at most two files, never the same file
    twice; each copy is one of the two remembered outputs, exists, and goes
    under "QC Docs" with its own base name. *)
Theorem qc_copies (w : World) (folder_path : string) (p1 : Pass1) (st : Pass2) (r2 : Run) :
  exists copies,
    List.filter is_copy (trace (run_before_log w folder_path p1 st r2))
    = List.filter is_copy (trace r2) ++ copies
    /\ (length copies <= 2)%nat
    /\ List.NoDup (copy_sources copies)
    /\ forall ev, In ev copies ->
         exists s,
           ev = EvCopy s (OsPath.join (qc_docs_output_path folder_path) (OsPath.basename s))
           /\ exists_qc w s = true
           /\ (largest_family_merged_pdf_src_path st = Some s
               \/ first_family_with_native_src_path st = Some s).
Proof.
  unfold run_before_log, qc_largest, qc_native.
  destruct (truthy_path (largest_family_merged_pdf_src_path st)) as [l|] eqn:El;
    [apply truthy_path_Some in El as [El _]; destruct (exists_qc w l) eqn:Exl;
     [destruct (shutil_copy2 w l _) eqn:Ecl|]|];
    (destruct (truthy_path (first_family_with_native_src_path st)) as [f|] eqn:Ef;
     [apply truthy_path_Some in Ef as [Ef _]; destruct (exists_qc w f) eqn:Exf;
      [destruct (path_eqb f (largest_family_merged_pdf_src_path st)) eqn:Epe; cbn [negb];
       [destruct (bool_decide _) | destruct (shutil_copy2 w f _) eqn:Ecf]|]|]);
    try destruct (any_values _); cbn [negb trace log_message emit fst snd];
    rewrite ?List.filter_app; simpl; rewrite ?app_nil_r, <- ?app_assoc; simpl;
    (first [ exists []; split; [now rewrite app_nil_r|]
           | eexists; split; [reflexivity|] ]);
    (split; [simpl; lia|]);
    (split;
     [ cbn [copy_sources flat_map app];
       first [ apply List.NoDup_nil | apply nodup_one
             | apply nodup_two; intros ->; rewrite El in Epe; simpl in Epe;
               rewrite String.eqb_refl in Epe; discriminate ]
     | intros ev He; simpl in He;
       repeat (destruct He as [<-|He]; [eexists; split; [reflexivity|]; auto|]);
       destruct He ]).
Qed.

(** X24: in a run that passes the fatal checks and returns, when no family
    has the native flag, the log tells that no QC document applies for the
    native criterion. *)
Theorem no_native_line_logged (w : World) (folder_path : string) (listing : list string)
    (r : Run) :
  make_output_dirs w (base_output_folder folder_path) (merged_pdfs_output_path folder_path)
    (qc_docs_output_path folder_path) = Returns tt ->
  os_listdir w folder_path = Returns listing ->
  merge_pdfs_worker w folder_path = (Returned tt, r) ->
  any_values (family_had_native_placeholder (pass1_state w folder_path listing)) = false ->
  In (EvLog "No families contained native placeholders; no specific QC doc for this criterion.")
     (trace r).
Proof.
  intros Hd Hl Hrun Hany.
  destruct (worker_returned w folder_path tt listing r Hd Hl Hrun)
    as (st & r2 & r3 & E2 & Ew & ->).
  set (p1 := pass1_state w folder_path listing) in *.
  assert (Hfirst : first_family_with_native_src_path st = None).
  { unfold pass2_of in E2. fold p1 in E2.
    destruct (pass2_loop_aggregates _ _ _ _ _ [] _ _ _ _ aggregates_ok_init E2)
      as (_ & _ & Hnative).
    cbn [app] in Hnative. unfold first_native_spec in Hnative.
    destruct (first_family_with_native_src_path st) as [p|]; [exfalso|reflexivity].
    destruct Hnative as (before & m & after & Heq & _ & Hn & _).
    assert (Hin : m ∈ merge_results w (merged_pdfs_output_path folder_path) p1 (families p1)).
    { rewrite Heq. apply list_elem_of_In, in_or_app. right. now left. }
    unfold merge_results in Hin. apply list_elem_of_omap in Hin as ([k ms] & _ & Hres).
    unfold merge_result in Hres. destruct (sort_family _); [|discriminate].
    destruct (_ && _); [|discriminate]. injection Hres as <-. cbn [mr_native fst] in Hn.
    assert (Ht : any_values (family_had_native_placeholder p1) = true).
    { apply any_values_true. exists k. unfold native_flag in Hn.
      destruct (family_had_native_placeholder p1 !! k) as [[|]|]; simpl in Hn; congruence. }
    congruence. }
  destruct (qc_no_native w folder_path p1 st r2 Hfirst Hany) as (evs & Ht).
  cbn [trace emit]. apply in_or_app. left.
  eapply extends_In; [eapply extends_of_with, cleanup_extends|].
  pose proof (write_log_extends w (base_output_folder folder_path)
                (run_before_log w folder_path p1 st r2)) as Hw.
  rewrite Ew in Hw. cbn [snd] in Hw.
  eapply extends_In; [eapply extends_of_with, Hw|].
  rewrite Ht. apply in_or_app. right. apply in_or_app. right. now left.
Qed.

Lemma no_native_line_logged_witness :
  In (EvLog "No families contained native placeholders; no specific QC doc for this criterion.")
     (trace (snd (merge_pdfs_worker (no_placeholder_world ["A.pdf"; "A.1.doc"]) "/src"))).
Proof.
  apply (no_native_line_logged (no_placeholder_world ["A.pdf"; "A.1.doc"]) "/src"
           ["A.pdf"; "A.1.doc"]); [reflexivity | reflexivity | vm_compute; reflexivity |].
  vm_compute. reflexivity.
Defined.

(** X25: in a run over a listing without repeated names whose Pass 2
    returns, the resolved entries of every family that has some are sorted
    and announced for the merge, in an order that rearranges them. *)
Theorem every_family_is_announced (w : World) (folder_path : string) (listing : list string)
    (st : Pass2) (r2 : Run) (k : string) :
  List.NoDup listing ->
  pass2_of w folder_path listing = (Returned st, r2) ->
  List.filter (member_pred w folder_path (pass1_state w folder_path listing) k) listing <> [] ->
  exists sorted,
    sort_family (List.filter (member_pred w folder_path (pass1_state w folder_path listing) k)
                   listing) = Some sorted
    /\ Permutation sorted
         (List.filter (member_pred w folder_path (pass1_state w folder_path listing) k) listing)
    /\ In (EvLog ("Processing family: " +:+ k +:+ ". Files to merge (in order): "
                  +:+ Py.join ", " sorted)) (trace r2).
Proof. apply resolved_members_processed. Qed.

Lemma every_family_is_announced_witness :
  let listing := ["A.2.pdf"; "B.pdf"; "A.doc"; "A.1.pdf"] in
  exists r2 st,
    pass2_of (no_placeholder_world listing) "/src" listing = (Returned st, r2)
    /\ In (EvLog "Processing family: A. Files to merge (in order): A.1.pdf, A.2.pdf")
          (trace r2).
Proof.
  intros listing.
  destruct (pass2_of (no_placeholder_world listing) "/src" listing) as [[st|exn] r2] eqn:E;
    [|vm_compute in E; discriminate].
  exists r2, st. split; [reflexivity|].
  destruct (every_family_is_announced (no_placeholder_world listing) "/src" listing st r2 "A")
    as (sorted & Hs & _ & Hlog).
  - repeat constructor; simpl; intuition discriminate.
  - exact E.
  - vm_compute. discriminate.
  - vm_compute in Hs. injection Hs as <-. exact Hlog.
Defined.

(** ** The placeholder provider *)

(** X26: [create_placeholder_pdf] returns a path exactly when the temporary
    file was made and closed, the page was drawn and saved, and the check
    opened the file and found at least one page; the path is the one that
    [mkstemp] gave, and nothing is printed or deleted then. *)
Theorem placeholder_returned_iff_checked (pv : Provider) (label p : string) :
  (fst (create_placeholder_pdf_steps pv label) = Some p
   <-> pv_mkstemp pv ("_rl_placeholder_" +:+ label +:+ ".pdf") "tmp_merger_" = Done p
       /\ is_done (pv_close pv) = true
       /\ is_done (pv_draw pv p label) = true
       /\ exists pg pages, pv_check pv p = OpenPages (pg :: pages))
  /\ (fst (create_placeholder_pdf_steps pv label) = Some p ->
      snd (create_placeholder_pdf_steps pv label) = []).
Proof.
  unfold create_placeholder_pdf_steps.
  destruct (pv_mkstemp pv _ _) as [q|e]; cbn [fst snd placeholder_failed].
  2:{ split; [split; [discriminate | intros ([=] & _)] | discriminate]. }
  destruct (pv_close pv) as [u|e]; cbn [fst snd placeholder_failed is_done].
  2:{ split; [split; [discriminate | intros (_ & [=] & _)] | discriminate]. }
  destruct (pv_draw pv q label) as [u'|e] eqn:Ed; cbn [fst snd placeholder_failed].
  2:{ split; [split; [discriminate|] | discriminate].
      intros ([= <-] & _ & H & _). rewrite Ed in H. discriminate. }
  destruct (pv_check pv q) as [e|e|[|pg pages]] eqn:Ec; cbn [fst snd placeholder_invalid];
    try (split; [split; [discriminate|] | discriminate];
         intros ([= <-] & _ & _ & pg' & pages' & H); rewrite Ec in H; discriminate).
  split; [|reflexivity]. split.
  - intros [= <-]. rewrite Ed. repeat split; eauto.
  - now intros ([= <-] & _).
Qed.

(** X27: when [create_placeholder_pdf] fails after the temporary file was
    made and closed, it prints one line and deletes that file, once, if the
    file exists; an error of the deletion is passed over. *)
Theorem placeholder_failure_removes_file (pv : Provider) (label p : string) :
  pv_mkstemp pv ("_rl_placeholder_" +:+ label +:+ ".pdf") "tmp_merger_" = Done p ->
  is_done (pv_close pv) = true ->
  Py.truthy p = true ->
  fst (create_placeholder_pdf_steps pv label) = None ->
  exists message,
    snd (create_placeholder_pdf_steps pv label)
    = PvPrint message
      :: (if pv_exists pv p then [PvUnlink p (is_done (pv_unlink pv p))] else []).
Proof.
  unfold create_placeholder_pdf_steps. intros -> Hc Ht.
  destruct (pv_close pv) as [u|e]; [|discriminate].
  destruct (pv_draw pv p label) as [u'|e].
  - destruct (pv_check pv p) as [e|e|[|pg pages]];
      cbn [fst snd placeholder_invalid remove_quietly]; try discriminate; eauto.
  - cbn [fst snd placeholder_failed truthy_path]. rewrite Ht. eauto.
Qed.

Lemma placeholder_failure_removes_file_witness :
  exists message,
    snd (create_placeholder_pdf_steps (simple_provider "/tmp/tmp_merger_x.pdf" []) "A.1")
    = [PvPrint message; PvUnlink "/tmp/tmp_merger_x.pdf" true].
Proof.
  apply (placeholder_failure_removes_file (simple_provider "/tmp/tmp_merger_x.pdf" [])
           "A.1" "/tmp/tmp_merger_x.pdf"); reflexivity.
Defined.

(** X28: when the temporary file cannot be made, or its descriptor cannot
    be closed, [create_placeholder_pdf] fails without deleting anything. *)
Theorem placeholder_early_failure_deletes_nothing (pv : Provider) (label : string) :
  is_done (pv_mkstemp pv ("_rl_placeholder_" +:+ label +:+ ".pdf") "tmp_merger_")
  && is_done (pv_close pv) = false ->
  fst (create_placeholder_pdf_steps pv label) = None
  /\ provider_unlinks (snd (create_placeholder_pdf_steps pv label)) = [].
Proof.
  unfold create_placeholder_pdf_steps.
  destruct (pv_mkstemp pv _ _) as [q|e]; [|intros _; split; reflexivity].
  destruct (pv_close pv) as [u|e]; [discriminate | intros _; split; reflexivity].
Qed.

Lemma placeholder_early_failure_deletes_nothing_witness :
  fst (create_placeholder_pdf_steps
         {| pv_mkstemp := fun _ _ => Failed "No space left on device";
            pv_close := Done tt;
            pv_draw := fun _ _ => Done tt;
            pv_check := fun _ => OpenPages [0%nat];
            pv_exists := fun _ => true;
            pv_unlink := fun _ => Done tt |} "A.1") = None
  /\ provider_unlinks
       (snd (create_placeholder_pdf_steps
               {| pv_mkstemp := fun _ _ => Failed "No space left on device";
                  pv_close := Done tt;
                  pv_draw := fun _ _ => Done tt;
                  pv_check := fun _ => OpenPages [0%nat];
                  pv_exists := fun _ => true;
                  pv_unlink := fun _ => Done tt |} "A.1")) = [].
Proof.
  apply (placeholder_early_failure_deletes_nothing
           {| pv_mkstemp := fun _ _ => Failed "No space left on device";
              pv_close := Done tt;
              pv_draw := fun _ _ => Done tt;
              pv_check := fun _ => OpenPages [0%nat];
              pv_exists := fun _ => true;
              pv_unlink := fun _ => Done tt |} "A.1").
  reflexivity.
Defined.

Lemma pass1_registered (w : World) (folder_path : string) (listing : list string) (p : string) :
  p ∈ placeholder_files_to_delete (pass1_state w folder_path listing)
  -> exists n label, truthy_path (create_placeholder_pdf w n label) = Some p.
Proof.
  induction listing as [|f l IH] using rev_ind.
  - intros H. now apply not_elem_of_empty in H.
  - destruct (pass1_snoc_cases w folder_path l f)
      as [(Hs & ->)|[(Hs & Hp & ->)|[(p0 & Hn & _ & Hc & _ & ->)|(Hn & _ & Hok & ->)]]];
      cbn [placeholder_files_to_delete]; auto.
    rewrite elem_of_union, elem_of_singleton. intros [->|H]; eauto.
Qed.

(** X29: with the provider run step by step, every placeholder that Pass 1
    registers, and so every placeholder that Pass 2 can merge, was opened by
    the check of the provider and had at least one page. *)
Theorem registered_placeholder_has_page (pvs : nat -> Provider) (w : World)
    (folder_path : string) (listing : list string) (p : string) :
  p ∈ placeholder_files_to_delete
        (pass1_state (world_with_providers pvs w) folder_path listing) ->
  exists n pg pages, pv_check (pvs n) p = OpenPages (pg :: pages).
Proof.
  intros H. apply pass1_registered in H as (n & label & H).
  apply truthy_path_Some in H as [H _].
  unfold create_placeholder_pdf, world_with_providers in H. cbn [provider] in H.
  unfold create_placeholder_pdf_steps in H.
  destruct (pv_mkstemp (pvs n) _ _) as [q|e]; [|discriminate].
  destruct (pv_close (pvs n)) as [u|e]; [|discriminate].
  destruct (pv_draw (pvs n) q label) as [u'|e]; [|discriminate].
  destruct (pv_check (pvs n) q) as [e|e|[|pg pages]] eqn:Ec; try discriminate.
  injection H as <-. eauto.
Qed.

Lemma registered_placeholder_has_page_witness :
  exists (n : nat) pg pages,
    pv_check (simple_provider "/tmp/tmp_merger_x.pdf" [5%nat]) "/tmp/tmp_merger_x.pdf"
    = OpenPages (pg :: pages).
Proof.
  apply (registered_placeholder_has_page
           (fun _ => simple_provider "/tmp/tmp_merger_x.pdf" [5%nat])
           (fair_world ["A.doc"]) "/src" ["A.doc"] "/tmp/tmp_merger_x.pdf").
  vm_compute. reflexivity.
Defined.


(** ** A failed placeholder and the rest of its family *)

Lemma pages_give_count w fpm l :
  flat_map (member_pages w fpm) l <> [] ->
  (0 < length (List.filter (gives_pages w fpm) l))%nat.
Proof.
  induction l as [|f l IH]; cbn [flat_map List.filter]; [congruence|].
  unfold gives_pages at 1. destruct (member_pages w fpm f) as [|pg pages].
  - exact IH.
  - intros _. cbn [length]. lia.
Qed.

Lemma appended_pages w fpm l :
  appended w fpm l
  = {| final_merged_pdf := flat_map (member_pages w fpm) l;
       files_successfully_added_to_merger := length (List.filter (gives_pages w fpm) l) |}.
Proof. unfold appended, merge_members. now rewrite fold_add_member_pages. Qed.

(** The document of a family whose sort returns, whose members give a page
    and whose save succeeds is among the documents that Pass 2 saved. *)
Lemma pass2_loop_saved w mp p1 total fs : forall st r st' r',
  pass2_loop w mp p1 total fs st r = (Returned st', r') ->
  forall k members sorted,
    In (k, members) fs ->
    sort_family (valid_files (file_path_map p1) members) = Some sorted ->
    flat_map (member_pages w (file_path_map p1)) sorted <> [] ->
    pdf_save w (OsPath.join mp (final_output_filename sorted))
      (flat_map (member_pages w (file_path_map p1)) sorted) = Done tt ->
    In (EvSave (OsPath.join mp (final_output_filename sorted))
          (flat_map (member_pages w (file_path_map p1)) sorted)) (trace r').
Proof.
  induction fs as [|[k0 ms0] fs IH]; intros st r st' r' Hloop k members sorted Hin Hs Hne Hsave;
    [destruct Hin|].
  rewrite pass2_loop_cons in Hloop.
  destruct (merge_family w mp p1 total k0 ms0 st r) as [[st1|exn] r1] eqn:Em; [|discriminate].
  destruct Hin as [[= -> ->]|Hin]; [|eapply IH; eauto].
  destruct (merge_family_sorted w mp p1 total k members st r sorted Hs) as [_ Hsaves].
  rewrite Em in Hsaves. cbn [snd] in Hsaves.
  unfold merge_result in Hsaves. cbn [snd fst] in Hsaves. rewrite Hs in Hsaves.
  rewrite appended_pages in Hsaves.
  cbn [final_merged_pdf files_successfully_added_to_merger] in Hsaves.
  rewrite Hsave in Hsaves.
  pose proof (pages_give_count w (file_path_map p1) sorted Hne) as Hpos.
  apply Nat.ltb_lt in Hpos. rewrite Hpos in Hsaves. cbn [andb is_done mr_path] in Hsaves.
  assert (H1 : In (EvSave (OsPath.join mp (final_output_filename sorted))
                     (flat_map (member_pages w (file_path_map p1)) sorted)) (trace r1)).
  { assert (H : In (EvSave (OsPath.join mp (final_output_filename sorted))
                      (flat_map (member_pages w (file_path_map p1)) sorted))
                   (saves (trace r1))).
    { rewrite Hsaves. apply in_or_app. right. now left. }
    unfold saves in H. now apply List.filter_In in H as [H _]. }
  pose proof (pass2_loop_extends w mp p1 total fs st1 r1) as Hext.
  rewrite Hloop in Hext. cbn [snd] in Hext.
  eapply extends_In; [eapply extends_of_with, Hext | exact H1].
Qed.

(** X30: in a run over a listing without repeated names whose Pass 2
    returns, when the synthesis fails for the native entry [f]: the failure
    is logged, [f] has no resolved path and is not among the members that
    Pass 2 takes for its family, the provider was called once for each native
    entry, and the resolved entries of the family of [f] are sorted,
    announced and merged without [f]: when one of them gives a page and the
    save succeeds, the document saved for the family is made of their pages,
    in merge order. *)
Theorem failed_placeholder_rest_merged (w : World) (folder_path : string)
    (pre : list string) (f : string) (post : list string) (st : Pass2) (r2 : Run) :
  List.NoDup (pre ++ f :: post) ->
  is_native w folder_path f = true ->
  synth_ok w folder_path pre f = false ->
  let listing := pre ++ f :: post in
  let p1 := pass1_state w folder_path listing in
  let rest := List.filter (member_pred w folder_path p1 (extract_family_key f)) listing in
  pass2_of w folder_path listing = (Returned st, r2) ->
  rest <> [] ->
  In (EvLog ("ERROR: Failed to create placeholder for " +:+ f +:+ ". It will be skipped."))
     (trace r2)
  /\ ~ In f rest
  /\ file_path_map p1 !! f = None
  /\ placeholder_calls p1 = length (List.filter (is_native w folder_path) listing)
  /\ exists sorted,
       sort_family rest = Some sorted
       /\ Permutation sorted rest
       /\ In (EvLog ("Processing family: " +:+ extract_family_key f
                     +:+ ". Files to merge (in order): " +:+ Py.join ", " sorted)) (trace r2)
       /\ (flat_map (member_pages w (file_path_map p1)) sorted <> [] ->
           pdf_save w (OsPath.join (merged_pdfs_output_path folder_path)
                         (final_output_filename sorted))
             (flat_map (member_pages w (file_path_map p1)) sorted) = Done tt ->
           In (EvSave (OsPath.join (merged_pdfs_output_path folder_path)
                         (final_output_filename sorted))
                 (flat_map (member_pages w (file_path_map p1)) sorted)) (trace r2)).
Proof.
  intros Hnd Hn Hfail listing p1 rest E2 Hrest.
  destruct (failed_placeholder_pass1 w folder_path pre f post (run_at_pass1 folder_path)
              Hnd Hn Hfail) as (Hlog & _ & Hnone & Hnotin & Hcalls & Hvalid & _).
  fold listing in Hlog, Hnone, Hnotin, Hcalls, Hvalid.
  rewrite (pass1_loop_state w folder_path listing (run_at_pass1 folder_path))
    in Hnone, Hnotin, Hcalls, Hvalid.
  fold p1 in Hnone, Hnotin, Hcalls, Hvalid.
  split.
  { pose proof (pass2_loop_extends w (merged_pdfs_output_path folder_path) p1
                  (length (families p1)) (families p1) pass2_init
                  (run_at_pass2 w folder_path listing)) as Hext.
    unfold pass2_of in E2. fold p1 in E2. rewrite E2 in Hext. cbn [snd] in Hext.
    eapply extends_In; [eapply extends_of_with, Hext|].
    unfold run_at_pass2. cbn [trace log_message].
    apply in_or_app. left. apply in_or_app. left. exact Hlog. }
  split.
  { unfold rest. rewrite <- Hvalid. apply Hnotin. }
  split; [exact Hnone|]. split; [exact Hcalls|].
  destruct (resolved_members_processed w folder_path listing st r2 (extract_family_key f)
              (Hnd : List.NoDup listing) E2 Hrest) as (sorted & Hs & Hperm & Hann).
  exists sorted. split; [exact Hs|]. split; [exact Hperm|]. split; [exact Hann|].
  intros Hdoc Hsave.
  assert (Hms : exists ms, In (extract_family_key f, ms) (families p1)
                           /\ valid_files (file_path_map p1) ms = rest).
  { destruct (families_get (extract_family_key f) (families p1)) as [ms|] eqn:Eg.
    - exists ms. split; [now apply families_get_Some_In|].
      unfold rest. rewrite <- Hvalid. unfold members_of. now rewrite Eg.
    - exfalso. apply Hrest. unfold rest. rewrite <- Hvalid. unfold members_of.
      now rewrite Eg. }
  destruct Hms as (ms & Hin & Hv).
  unfold pass2_of in E2. fold p1 in E2.
  eapply (pass2_loop_saved _ _ _ _ _ _ _ _ _ E2 _ ms sorted Hin); [|exact Hdoc|exact Hsave].
  now rewrite Hv.
Qed.

Lemma failed_placeholder_rest_merged_witness :
  let listing := ["A.pdf"; "A.1.doc"; "A.2.pdf"] in
  exists st r2,
    pass2_of (no_placeholder_world listing) "/src" listing = (Returned st, r2)
    /\ In (EvLog "ERROR: Failed to create placeholder for A.1.doc. It will be skipped.")
          (trace r2)
    /\ In (EvSave "/src/Merged Output/Merged PDFs/A.pdf" [0%nat; 0%nat]) (trace r2).
Proof.
  intros listing.
  destruct (pass2_of (no_placeholder_world listing) "/src" listing) as [[st|exn] r2] eqn:E;
    [|vm_compute in E; discriminate].
  exists st, r2. split; [reflexivity|].
  destruct (failed_placeholder_rest_merged (no_placeholder_world listing) "/src"
              ["A.pdf"] "A.1.doc" ["A.2.pdf"] st r2)
    as (Hlog & _ & _ & _ & sorted & Hs & _ & _ & Hsave).
  - repeat constructor; simpl; intuition discriminate.
  - reflexivity.
  - reflexivity.
  - exact E.
  - vm_compute. discriminate.
  - split; [exact Hlog|].
    vm_compute in Hs. injection Hs as <-.
    apply Hsave; vm_compute; [discriminate | reflexivity].
Defined.
